(** * incoming-message-parser

    A shallow embedding of [src/index.ts]: the MIME sniffer
    [getMimeTypeFromBuffer], [parseMultipart] with its header checks, its
    listeners and the loop of its [end] listener, and [parseJson],
    followed by the properties the specification states about them and
    by further properties of the code.

    Conventions of the embedding.
    - A [Buffer] is a list of bytes; indices are JavaScript numbers, kept
      as [Z] with the sentinel [-1] that [indexOf] returns.
    - Text is a JavaScript string, kept as the [string] of its UTF-8
      bytes.  [Buffer.from(str)] is then the list of these bytes, and
      [Buffer.toString()] is the UTF-8 decoder of the platform, which
      puts U+FFFD in the place of every ill-formed byte sequence,
      followed by that encoding.  The characters of the patterns in the
      code are ASCII, one byte each, and such a byte occurs inside no
      multi-byte sequence, so a literal, [startsWith], [includes] and a
      negated class of one ASCII character give on the bytes what they
      give on the UTF-16 code units; the class of white space is
      embedded with the UTF-8 forms of its members.  A string with an
      unpaired surrogate has no such form, and neither the decoder nor an
      HTTP header produces one.
    - [data], the object literal that collects the parts, keeps its own
      properties in a [gmap] and its prototype slot next to them, because
      assignment to the key [__proto__] goes to the accessor inherited from
      [Object.prototype] and creates no own property.
    - The promise of [parseMultipart] is resolved with the object [data]
      itself: the state of the listeners keeps that one object, and what
      a call shows as resolved value is the object as the events have
      left it.
    - A [throw] is the constructor [Throw]; the [while] loop takes fuel. *)

From Stdlib Require Import ZArith NArith Ascii String List Lia Bool.
From Stdlib.Strings Require Import Byte.
From stdpp Require Import gmap strings list.

Local Open Scope Z_scope.

(* ================================================================== *)
(** ** Buffers *)

Definition Buffer : Type := list byte.

Definition buf_length (b : Buffer) : Z := Z.of_nat (length b).

(** Index resolution shared by [subarray] and [indexOf]: a negative index
    counts from the end, and the result is clamped to [0, len]. *)
Definition clamp_index (len i : Z) : Z :=
  if i <? 0 then Z.max (len + i) 0 else Z.min i len.

(** [buf.subarray(start, end)] *)
Definition subarray (b : Buffer) (start end_ : Z) : Buffer :=
  let len := buf_length b in
  let s := clamp_index len start in
  let e := clamp_index len end_ in
  firstn (Z.to_nat (e - s)) (skipn (Z.to_nat s) b).

Fixpoint bytes_prefix (needle hay : Buffer) : bool :=
  match needle, hay with
  | [], _ => true
  | _ :: _, [] => false
  | x :: needle', y :: hay' => Byte.eqb x y && bytes_prefix needle' hay'
  end.

(** Leftmost occurrence of [needle] in [hay], where [hay] is the suffix
    of the buffer that starts at absolute offset [pos]. *)
Fixpoint find_from (needle hay : Buffer) (pos : Z) : Z :=
  if bytes_prefix needle hay then pos
  else match hay with
       | [] => -1
       | _ :: hay' => find_from needle hay' (pos + 1)
       end.

(** [buf.indexOf(value, byteOffset)] for a Buffer (or string) [value]. *)
Definition indexOf (b value : Buffer) (byteOffset : Z) : Z :=
  let o := clamp_index (buf_length b) byteOffset in
  find_from value (skipn (Z.to_nat o) b) o.

(** [Buffer.from(str)]: the UTF-8 bytes of the string. *)
Definition Buffer_from (s : string) : Buffer := list_byte_of_string s.

(* ================================================================== *)
(** ** Strings *)

Definition dquote : ascii := ascii_of_nat 34.
Definition CR : ascii := ascii_of_nat 13.
Definition LF : ascii := ascii_of_nat 10.
Definition CRLF : string := String CR (String LF EmptyString).

(** [s.startsWith(search)] *)
Fixpoint startsWith (s search : string) {struct search} : bool :=
  match search, s with
  | EmptyString, _ => true
  | String _ _, EmptyString => false
  | String c search', String d s' => Ascii.eqb c d && startsWith s' search'
  end.

(** [s.includes(search)] *)
Fixpoint includes (s search : string) {struct s} : bool :=
  startsWith s search ||
  match s with
  | EmptyString => false
  | String _ s' => includes s' search
  end.

Definition lower_char (c : ascii) : ascii :=
  let n := N_of_ascii c in
  if ((65 <=? n) && (n <=? 90))%N then ascii_of_N (n + 32) else c.

(** [s.toLowerCase()].  The code applies it to hexadecimal text and to
    the keys of the signature table, where the letters are ASCII. *)
Fixpoint toLowerCase (s : string) : string :=
  match s with
  | EmptyString => EmptyString
  | String c s' => String (lower_char c) (toLowerCase s')
  end.

Definition hex_digit (n : N) : ascii :=
  match n with
  | 0 => "0" | 1 => "1" | 2 => "2" | 3 => "3" | 4 => "4" | 5 => "5"
  | 6 => "6" | 7 => "7" | 8 => "8" | 9 => "9" | 10 => "a" | 11 => "b"
  | 12 => "c" | 13 => "d" | 14 => "e" | _ => "f"
  end%N%char.

Fixpoint hex_of_bytes (b : Buffer) : string :=
  match b with
  | [] => EmptyString
  | x :: b' =>
      String (hex_digit (Byte.to_N x / 16))
        (String (hex_digit (Byte.to_N x mod 16)) (hex_of_bytes b'))
  end.

(** [buf.toString(hex, start, end)], the hexadecimal rendering *)
Definition toStringHex (b : Buffer) (start end_ : Z) : string :=
  hex_of_bytes (subarray b (Z.max start 0) (Z.max end_ 0)).

(* ================================================================== *)
(** ** Decoding a buffer to text

    [buf.toString()] decodes UTF-8.  The decoder is the one of the
    WHATWG Encoding Standard, which V8 follows: it reads the bytes one by
    one, keeps the code point under construction, the number of
    continuation bytes still to come and the bounds for the next byte,
    and emits U+FFFD for a byte that cannot start a sequence, for a
    sequence broken off by a byte outside the bounds (that byte is then
    read again as the start of a sequence) and for a sequence cut short
    by the end of the buffer. *)

Definition replacement_character : N := 0xFFFD.

Record Utf8Decoder : Type := {
  code_point : N;
  bytes_needed : N;
  lower_boundary : N;
  upper_boundary : N
}.

Definition decoder_reset : Utf8Decoder :=
  {| code_point := 0; bytes_needed := 0;
     lower_boundary := 0x80; upper_boundary := 0xBF |}.

(** A byte read while no sequence is open. *)
Definition lead_byte (b : N) : list N * Utf8Decoder :=
  (if b <=? 0x7F then ([b], decoder_reset)
   else if (0xC2 <=? b) && (b <=? 0xDF) then
     ([], {| code_point := N.land b 0x1F; bytes_needed := 1;
             lower_boundary := 0x80; upper_boundary := 0xBF |})
   else if (0xE0 <=? b) && (b <=? 0xEF) then
     ([], {| code_point := N.land b 0xF; bytes_needed := 2;
             lower_boundary := if b =? 0xE0 then 0xA0 else 0x80;
             upper_boundary := if b =? 0xED then 0x9F else 0xBF |})
   else if (0xF0 <=? b) && (b <=? 0xF4) then
     ([], {| code_point := N.land b 0x7; bytes_needed := 3;
             lower_boundary := if b =? 0xF0 then 0x90 else 0x80;
             upper_boundary := if b =? 0xF4 then 0x8F else 0xBF |})
   else ([replacement_character], decoder_reset))%N.

(** One byte: the code points it completes and the next state. *)
Definition decode_byte (st : Utf8Decoder) (b : N) : list N * Utf8Decoder :=
  (if bytes_needed st =? 0 then lead_byte b
   else if (b <? lower_boundary st) || (upper_boundary st <? b) then
     let (out, st') := lead_byte b in (replacement_character :: out, st')
   else
     let cp := N.lor (N.shiftl (code_point st) 6) (N.land b 0x3F) in
     if bytes_needed st =? 1 then ([cp], decoder_reset)
     else ([], {| code_point := cp; bytes_needed := bytes_needed st - 1;
                  lower_boundary := 0x80; upper_boundary := 0xBF |}))%N.

Fixpoint utf8_decode (st : Utf8Decoder) (bytes : Buffer) : list N :=
  match bytes with
  | [] => if (bytes_needed st =? 0)%N then [] else [replacement_character]
  | b :: bytes' =>
      let (out, st') := decode_byte st (Byte.to_N b) in
      out ++ utf8_decode st' bytes'
  end.

(** The UTF-8 form of a code point. *)
Definition utf8_encode (cp : N) : string :=
  (if cp <? 0x80 then String (ascii_of_N cp) EmptyString
   else if cp <? 0x800 then
     String (ascii_of_N (0xC0 + cp / 0x40))
       (String (ascii_of_N (0x80 + cp mod 0x40)) EmptyString)
   else if cp <? 0x10000 then
     String (ascii_of_N (0xE0 + cp / 0x1000))
       (String (ascii_of_N (0x80 + (cp / 0x40) mod 0x40))
          (String (ascii_of_N (0x80 + cp mod 0x40)) EmptyString))
   else
     String (ascii_of_N (0xF0 + cp / 0x40000))
       (String (ascii_of_N (0x80 + (cp / 0x1000) mod 0x40))
          (String (ascii_of_N (0x80 + (cp / 0x40) mod 0x40))
             (String (ascii_of_N (0x80 + cp mod 0x40)) EmptyString))))%N.

Fixpoint text_of (code_points : list N) : string :=
  match code_points with
  | [] => EmptyString
  | cp :: rest => utf8_encode cp +:+ text_of rest
  end.

(** [buf.toString()] *)
Definition toString (b : Buffer) : string :=
  text_of (utf8_decode decoder_reset b).

(* ================================================================== *)
(** ** Exceptions *)

Inductive Thrown (A : Type) : Type :=
| Return (a : A)
| Throw (message : string).
Arguments Return {A} a.
Arguments Throw {A} message.

(* ================================================================== *)
(** ** getMimeTypeFromBuffer *)

(** The [signatures] object, in the order [for (const key in signatures)]
    visits it: keys that are array indices (494433, 25504446, 41564920)
    come first in ascending numeric order, the others follow
    in the order they are written. *)
Definition signatures : list (string * string) :=
  [ ("494433", "audio/mp3");
    ("25504446", "application/pdf");
    ("41564920", "video/avi");
    ("89504e47", "image/png");
    ("474946383761", "image/gif");
    ("474946383961", "image/gif");
    ("ffd8", "image/jpeg");
    ("504b0304", "application/zip");
    ("2e7261fd", "audio/vnd.rn-realaudio");
    ("fffb", "audio/mp3");
    ("4f676753", "audio/ogg");
    ("1a45dfa3", "video/webm");
    ("000001ba", "video/mpeg");
    ("000001b3", "video/mpeg");
    ("664c6143", "audio/flac");
    ("4d546864", "audio/midi") ]%string.

(** The [for ... in] loop: the first key that prefixes [signature]. *)
Fixpoint first_signature (signature : string) (table : list (string * string))
  : option string :=
  match table with
  | [] => None
  | (key, mime) :: table' =>
      if startsWith signature (toLowerCase key) then Some mime
      else first_signature signature table'
  end.

Definition mime_unknown : string := "Mime type unknown".

Definition getMimeTypeFromBuffer (buffer : Buffer) : Thrown string :=
  let signature :=
    toLowerCase (toStringHex buffer 0 (Z.min 16 (buf_length buffer))) in
  match first_signature signature signatures with
  | Some mime => Return mime
  | None =>
      if startsWith signature "52494646" && (buf_length buffer >? 11) then
        if String.eqb (toStringHex buffer 8 12) "57415645" then
          Return "audio/wav"%string
        else if String.eqb (toStringHex buffer 8 12) "41564920" then
          Return "video/avi"%string
        else Throw mime_unknown
      else Throw mime_unknown
  end.

(* ================================================================== *)
(** ** The regular expressions of [parseMultipart]

    Each pattern is a literal followed by one greedy character class, so
    it is embedded as a matcher anchored at the head of the text that
    returns capture group 1, and [regex_exec] tries the anchored matcher
    at every position from left to right, as [RegExp.prototype.exec] and
    [String.prototype.match] do for a pattern without the [g] flag. *)

(** The rest of [s] after the literal [lit]; [eqc] compares characters. *)
Fixpoint strip_literal (eqc : ascii -> ascii -> bool) (lit s : string)
  {struct lit} : option string :=
  match lit, s with
  | EmptyString, _ => Some s
  | String _ _, EmptyString => None
  | String c lit', String d s' =>
      if eqc c d then strip_literal eqc lit' s' else None
  end.

(** The longest prefix of [s] whose characters satisfy [p], and the rest. *)
Fixpoint span (p : ascii -> bool) (s : string) : string * string :=
  match s with
  | EmptyString => (EmptyString, EmptyString)
  | String c s' =>
      if p c then let (v, rest) := span p s' in (String c v, rest)
      else (EmptyString, s)
  end.

Fixpoint regex_exec (anchored : string -> option string) (s : string)
  : option string :=
  match anchored s with
  | Some capture => Some capture
  | None =>
      match s with
      | EmptyString => None
      | String _ s' => regex_exec anchored s'
      end
  end.

(** Comparison under the [i] flag, for the ASCII letters of a literal.
    Without the [u] flag a character outside ASCII is never taken for an
    ASCII letter, so only the two cases of the letter itself match. *)
Definition eqb_ci (c d : ascii) : bool :=
  Ascii.eqb (lower_char c) (lower_char d).

Definition not_char (x : ascii) (c : ascii) : bool := negb (Ascii.eqb c x).

(** The code points that [\s] matches: the white space and the line
    terminators of ECMAScript. *)
Definition white_space : list N :=
  [0x09; 0x0A; 0x0B; 0x0C; 0x0D; 0x20; 0xA0; 0x1680;
   0x2000; 0x2001; 0x2002; 0x2003; 0x2004; 0x2005; 0x2006; 0x2007;
   0x2008; 0x2009; 0x200A; 0x2028; 0x2029; 0x202F; 0x205F; 0x3000;
   0xFEFF]%N.

(** The text starts with a white-space character. *)
Definition white_space_at (s : string) : bool :=
  existsb (fun cp => startsWith s (utf8_encode cp)) white_space.

(** The longest stretch at the head of [s] that [\S+] can take: it ends
    where a white-space character starts, or with the text. *)
Fixpoint non_space_run (s : string) : string :=
  match s with
  | EmptyString => EmptyString
  | String c s' =>
      if white_space_at s then EmptyString else String c (non_space_run s')
  end.

(** One or more characters: the class under [+] must match once. *)
Definition one_or_more (v : string) : option string :=
  match v with
  | EmptyString => None
  | String _ _ => Some v
  end.

(** [/boundary=([^;]+)/i] *)
Definition boundary_at (s : string) : option string :=
  match strip_literal eqb_ci "boundary=" s with
  | None => None
  | Some rest => one_or_more (fst (span (not_char ";") rest))
  end.

(** The pattern that reads a quoted attribute: the literal [attr], an
    equals sign and an opening quote, then one or more characters other
    than a quote (captured), then the closing quote; [attr] is one of
    [name] and [filename].  After the greedy class has taken every
    character that is not a quote, the closing quote has to follow;
    giving characters back cannot help, because the character after a
    shorter run is not a quote. *)
Definition quoted_at (attr : string) (s : string) : option string :=
  match strip_literal Ascii.eqb (attr +:+ String "=" (String dquote EmptyString)) s with
  | None => None
  | Some rest =>
      let (v, rest') := span (not_char dquote) rest in
      match one_or_more v, rest' with
      | Some v, String _ _ => Some v
      | _, _ => None
      end
  end.

(** [/Content-Transfer-Encoding: (\S+)/] *)
Definition encoding_at (s : string) : option string :=
  match strip_literal Ascii.eqb "Content-Transfer-Encoding: " s with
  | None => None
  | Some rest => one_or_more (non_space_run rest)
  end.

(* ================================================================== *)
(** ** The result object *)

Record FileData : Type := {
  body : Buffer;
  fileName : string;
  encoding : string;
  mimeType : string
}.

Inductive Value : Type :=
| VString (s : string)
| VFile (f : FileData).

(** [data]: an object literal, so its prototype is [Object.prototype]
    ([proto = None]) until an assignment to [__proto__] replaces it. *)
Record JsObject : Type := {
  own : gmap string Value;
  proto : option FileData
}.

Definition empty_object : JsObject := {| own := ∅; proto := None |}.

(** [data[key] = value].  [Object.prototype.__proto__] is an accessor
    that every [data] inherits: its setter replaces the prototype when the
    value is an object and does nothing when it is a string.  Every other
    key becomes (or overwrites) an own property. *)
Definition obj_set (data : JsObject) (key : string) (value : Value) : JsObject :=
  if String.eqb key "__proto__" then
    match value with
    | VFile f => {| own := own data; proto := Some f |}
    | VString _ => data
    end
  else {| own := <[key := value]> (own data); proto := proto data |}.

(* ================================================================== *)
(** ** parseMultipart: the body of the [while] loop *)

Definition divider : Buffer := Buffer_from (CRLF +:+ CRLF).
Definition filename_marker : string :=
  "filename=" +:+ String dquote EmptyString.

(** What the loop body makes of one part segment. *)
Inductive Part : Type :=
| Skipped                                 (* [continue] *)
| Entry (name : string) (value : Value)   (* [data[name] = ...] *)
| Failed (message : string).              (* [getMimeTypeFromBuffer] threw *)

Definition classify (part : Buffer) : Part :=
  let splitIdx := indexOf part divider 0 in
  if splitIdx =? -1 then Skipped else
  let info := toString (subarray part 0 splitIdx) in
  let body := subarray part (splitIdx + 4) (buf_length part - 2) in
  match regex_exec (quoted_at "name") info with
  | None => Skipped
  | Some name =>
      if includes info filename_marker then
        let fileName :=
          match regex_exec (quoted_at "filename") info with
          | Some f => f
          | None => EmptyString
          end in
        let encoding :=
          match regex_exec encoding_at info with
          | Some e => e
          | None => "7bit"%string
          end in
        match getMimeTypeFromBuffer body with
        | Throw message => Failed message
        | Return mimeType =>
            Entry name (VFile {| body := body; fileName := fileName;
                                 encoding := encoding; mimeType := mimeType |})
        end
      else Entry name (VString (toString body))
  end.

(** One pass through the loop, from the test [idx !== -1] to the end of
    the body.  The pass reads [idx] and the two buffers only; what it
    does to the variables of the loop is its result: [Stay] is a
    [continue], which leaves [lastIdx], [idx] and [data] as they were,
    and [Assign idx' name value] is a pass that reaches the end of the
    body, having run [data[name] = value] and set [idx] to [idx']. *)
Inductive Step : Type :=
| Exit
| Stay
| Assign (idx : Z) (name : string) (value : Value)
| Raise (message : string).

Definition scan_step (fullBuffer boundaryBuffer : Buffer) (idx : Z) : Step :=
  if idx =? -1 then Exit else
  let endIdx := indexOf fullBuffer boundaryBuffer (idx + 1) in
  if endIdx =? -1 then Exit else
  let part := subarray fullBuffer (idx + buf_length boundaryBuffer) endIdx in
  match classify part with
  | Skipped => Stay
  | Failed message => Raise message
  | Entry name value =>
      let lastIdx := endIdx in
      Assign (indexOf fullBuffer boundaryBuffer lastIdx) name value
  end.

Inductive LoopResult : Type :=
| LoopDone (data : JsObject)
| LoopThrow (message : string) (data : JsObject)
| LoopFuel.

(** The [while] loop, at most [fuel] passes. *)
Fixpoint scan (fuel : nat) (fullBuffer boundaryBuffer : Buffer)
  (idx : Z) (data : JsObject) : LoopResult :=
  match fuel with
  | O => LoopFuel
  | S fuel' =>
      match scan_step fullBuffer boundaryBuffer idx with
      | Exit => LoopDone data
      | Raise message => LoopThrow message data
      | Stay => scan fuel' fullBuffer boundaryBuffer idx data
      | Assign idx' name value =>
          scan fuel' fullBuffer boundaryBuffer idx' (obj_set data name value)
      end
  end.

(* ================================================================== *)
(** ** Streams and promises *)

(** A [Readable] is the sequence of events it emits to its listeners. *)
Inductive StreamEvent : Type :=
| EvData (chunk : Buffer)
| EvError (err : string)
| EvEnd.

Definition Readable : Type := list StreamEvent.

Inductive Promise (A : Type) : Type :=
| Pending
| Resolved (a : A)
| Rejected (err : string).
Arguments Pending {A}.
Arguments Resolved {A} a.
Arguments Rejected {A} err.

(** [resolve] and [reject] act only on a promise that is still pending. *)
Definition settle {A} (p settled : Promise A) : Promise A :=
  match p with
  | Pending => settled
  | _ => p
  end.

(** What a call did: the state of the promise it returned, the events it
    subscribed to with [requestStream.on], and the events of the stream
    that reached those listeners. *)
Record Call (A : Type) : Type := {
  outcome : Promise A;
  listeners : list string;
  delivered : list StreamEvent
}.
Arguments outcome {A} c.
Arguments listeners {A} c.
Arguments delivered {A} c.

(** A [throw] before the executor runs: the promise of the [async]
    function is rejected and the stream has not been used. *)
Definition thrown_early {A} (message : string) : Call A :=
  {| outcome := Rejected message; listeners := []; delivered := [] |}.

Definition subscribed : list string := ["data"; "error"; "end"]%string.

(* ================================================================== *)
(** ** parseMultipart *)

(** What the listeners share: the chunks pushed so far, the object
    [data] and the promise.  [resolve(data)] hands over the object
    itself, not a copy of it, so the state keeps the object once and the
    promise records only that it is resolved; whoever holds the promise
    reads [data] as it is at that time. *)
Record MultipartState : Type := {
  buffer : list Buffer;
  data : JsObject;
  returned : Promise unit
}.

Definition resolved_with {A} (p : Promise unit) (a : A) : Promise A :=
  match p with
  | Pending => Pending
  | Resolved _ => Resolved a
  | Rejected err => Rejected err
  end.

(** The [end] listener up to [resolve(data)]. *)
Definition on_end (fuel : nat) (buffer : list Buffer) (boundary : string)
  (data : JsObject) : LoopResult :=
  let fullBuffer := concat buffer in
  let boundaryBuffer := Buffer_from ("--" +:+ boundary) in
  let lastIdx := 0 in
  scan fuel fullBuffer boundaryBuffer
    (indexOf fullBuffer boundaryBuffer lastIdx) data.

(** One event reaching the listeners; [None] when the fuel of the loop
    runs out inside the [end] listener.  The loop works on [data] as the
    earlier events left it, whether the promise is settled or not, and
    [resolve] and [reject] do nothing on a settled promise. *)
Definition multipart_event (fuel : nat) (boundary : string)
  (st : MultipartState) (ev : StreamEvent) : option MultipartState :=
  match ev with
  | EvData chunk =>
      Some {| buffer := buffer st ++ [chunk]; data := data st;
              returned := returned st |}
  | EvError err =>
      Some {| buffer := buffer st; data := data st;
              returned := settle (returned st) (Rejected err) |}
  | EvEnd =>
      match on_end fuel (buffer st) boundary (data st) with
      | LoopDone d =>
          Some {| buffer := buffer st; data := d;
                  returned := settle (returned st) (Resolved tt) |}
      | LoopThrow message d =>
          Some {| buffer := buffer st; data := d;
                  returned := settle (returned st) (Rejected message) |}
      | LoopFuel => None
      end
  end.

Fixpoint multipart_events (fuel : nat) (boundary : string)
  (st : MultipartState) (evs : list StreamEvent) : option MultipartState :=
  match evs with
  | [] => Some st
  | ev :: evs' =>
      match multipart_event fuel boundary st ev with
      | Some st' => multipart_events fuel boundary st' evs'
      | None => None
      end
  end.

Definition parseMultipart (fuel : nat) (requestStream : Readable)
  (contentTypeHeader : string) : option (Call JsObject) :=
  if negb (startsWith contentTypeHeader "multipart/form-data") then
    Some (thrown_early "Invalid content type")
  else
    match regex_exec boundary_at contentTypeHeader with
    | None => Some (thrown_early "No boundary found")
    | Some EmptyString => Some (thrown_early "No boundary found")
    | Some boundary =>
        let st := {| buffer := []; data := empty_object; returned := Pending |} in
        match multipart_events fuel boundary st requestStream with
        | Some st' =>
            Some {| outcome := resolved_with (returned st') (data st');
                    listeners := subscribed; delivered := requestStream |}
        | None => None
        end
    end.

(* ================================================================== *)
(** ** parseJson *)

Section Json.
(** [JSON.parse] is the platform's decoder; the embedding takes it as
    a parameter. *)
Context {J : Type} (JSON_parse : string -> Thrown J).

Record JsonState : Type := {
  text : string;
  answer : Promise J
}.

Definition json_event (st : JsonState) (ev : StreamEvent) : JsonState :=
  match ev with
  | EvData chunk =>
      {| text := text st +:+ toString chunk; answer := answer st |}
  | EvError err =>
      {| text := text st; answer := settle (answer st) (Rejected err) |}
  | EvEnd =>
      {| text := text st;
         answer := settle (answer st)
                     match JSON_parse (text st) with
                     | Return v => Resolved v
                     | Throw message => Rejected message
                     end |}
  end.

(** The header is optional at run time: [contentTypeHeader?.startsWith]
    yields [undefined] for a missing header, and the negation throws. *)
Definition parseJson (requestStream : Readable)
  (contentTypeHeader : option string) : Call J :=
  if negb match contentTypeHeader with
          | Some h => startsWith h "application/json"
          | None => false
          end
  then thrown_early "Invalid content type"
  else
    let st := fold_left json_event requestStream
                {| text := EmptyString; answer := Pending |} in
    {| outcome := answer st; listeners := subscribed;
       delivered := requestStream |}.
End Json.

(* ================================================================== *)
(** ** Definitions used to state the properties *)

(** *** The wording of the specification *)

(** The header starts with a literal prefix. *)
Definition starts_with_literal (header literal : string) : Prop :=
  exists rest, header = literal +:+ rest.

(** The header has a boundary parameter: the text boundary= in any
    letter case, followed by one or more characters other than a
    semicolon. *)
Definition has_boundary_parameter (header : string) : Prop :=
  exists before keyword c after,
    header = before +:+ keyword +:+ String c after
    /\ toLowerCase keyword = "boundary="%string
    /\ c <> ";"%char.

(** [sub] occurs in [s]. *)
Definition contains (s sub : string) : Prop :=
  exists before after, s = before +:+ sub +:+ after.

Definition RIFF : Buffer := [x52; x49; x46; x46].
Definition WAVE : Buffer := [x57; x41; x56; x45].
Definition AVI_ : Buffer := [x41; x56; x49; x20].

(** The content matches a signature when a key of the table is a prefix
    of its hexadecimal rendering; it is a RIFF container to be looked
    into when it starts with the four bytes of RIFF and has 12 bytes or
    more. *)
Definition matches_signature (content : Buffer) : Prop :=
  exists key mime,
    In (key, mime) signatures /\ startsWith (hex_of_bytes content) key = true.

Definition riff_container (content : Buffer) : Prop :=
  firstn 4 content = RIFF /\ 12 <= buf_length content.

(** The pattern for the file name finds a match in the header block: a
    filename marker is followed by a value that is not empty and holds no
    quote, and by the closing quote. *)
Definition has_filename_value (info : string) : Prop :=
  exists before value after,
    info = before +:+ filename_marker +:+ value +:+ String dquote after
    /\ value <> EmptyString
    /\ ~ In dquote (list_ascii_of_string value).

(** Reading a hexadecimal rendering back. *)
Definition hex_value (c : ascii) : option N :=
  let n := N_of_ascii c in
  if ((48 <=? n) && (n <=? 57))%N then Some (n - 48)%N
  else if ((97 <=? n) && (n <=? 102))%N then Some (n - 87)%N
  else None.

Fixpoint bytes_of_hex (s : string) : option Buffer :=
  match s with
  | EmptyString => Some []
  | String hi (String lo s') =>
      match hex_value hi, hex_value lo, bytes_of_hex s' with
      | Some h, Some l, Some b' =>
          match Byte.of_N (16 * h + l) with
          | Some x => Some (x :: b')
          | None => None
          end
      | _, _, _ => None
      end
  | String _ EmptyString => None
  end.

(** *** Text *)

(** A byte, or a character, of the ASCII range. *)
Definition ascii_byte (b : byte) : Prop := (Byte.to_N b <= 0x7F)%N.
Definition ascii_char (c : ascii) : Prop := (N_of_ascii c <= 0x7F)%N.

(** [s] is the UTF-8 form of a string: decoding its bytes gives it
    back. *)
Definition well_formed (s : string) : Prop := toString (Buffer_from s) = s.

(** The states the decoder can be in never admit an ASCII byte as a
    continuation byte. *)
Definition decoder_sound (st : Utf8Decoder) : Prop :=
  (0x80 <= lower_boundary st)%N.

(** What the decoder emits when the input ends, or an ASCII byte comes,
    in state [st]. *)
Definition pending (st : Utf8Decoder) : list N :=
  if (bytes_needed st =? 0)%N then [] else [replacement_character].

(** *** Views of the loop *)

(** The segment that the pass at [idx] examines, its header block and
    its content, with the expressions of the loop body: [part], [info]
    and [body]. *)
Definition segment_after (full bb : Buffer) (idx : Z) : Buffer :=
  subarray full (idx + buf_length bb) (indexOf full bb (idx + 1)).

Definition header_block (part : Buffer) : string :=
  toString (subarray part 0 (indexOf part divider 0)).

Definition part_content (part : Buffer) : Buffer :=
  subarray part (indexOf part divider 0 + 4) (buf_length part - 2).

(** [scan_reaches full bb idx entries idx']: started at [idx], the loop
    makes the assignments [entries], one per pass and in this order, and
    then stands at [idx']. *)
Inductive scan_reaches (full bb : Buffer) : Z -> list (string * Value) -> Z -> Prop :=
| reaches_here (idx : Z) : scan_reaches full bb idx [] idx
| reaches_assign (idx idx' idx'' : Z) (name : string) (value : Value)
    (entries : list (string * Value)) :
    scan_step full bb idx = Assign idx' name value ->
    scan_reaches full bb idx' entries idx'' ->
    scan_reaches full bb idx ((name, value) :: entries) idx''.

(** The assignments [entries] made one after the other on [data]. *)
Definition assign_all (data : JsObject) (entries : list (string * Value)) : JsObject :=
  fold_left (fun d entry => obj_set d (fst entry) (snd entry)) entries data.

(** Every own key is a non-empty string. *)
Definition keys_nonempty (data : JsObject) : Prop :=
  forall key : string, is_Some (own data !! key) -> key <> EmptyString.

(** The keys a [for ... in] over the object visits: its own keys and,
    when a file entry has become its prototype, the four keys of that
    entry. *)
Definition enumerable_keys (data : JsObject) : gset string :=
  dom (own data)
  ∪ match proto data with
    | Some _ => {[ "body"; "fileName"; "encoding"; "mimeType" ]}%string
    | None => ∅
    end.

(** *** Bodies as a client writes them

    Each part is the delimiter, a line break, the header block, an empty
    line, the content and a line break; the closing delimiter ends the
    body. *)
Definition quoted (s : string) : string :=
  String dquote (s +:+ String dquote EmptyString).

Definition disposition (name : string) : string :=
  "Content-Disposition: form-data; name=" +:+ quoted name.

Definition file_disposition (name filename : string) : string :=
  disposition name +:+ "; filename=" +:+ quoted filename.

Definition part_bytes (boundary headers : string) (content : Buffer) : Buffer :=
  Buffer_from ("--" +:+ boundary +:+ CRLF +:+ headers +:+ CRLF +:+ CRLF)
  ++ content ++ Buffer_from CRLF.

Definition closing_bytes (boundary : string) : Buffer :=
  Buffer_from ("--" +:+ boundary +:+ "--" +:+ CRLF).

Definition png_signature : Buffer := [x89; x50; x4e; x47; x0d; x0a; x1a; x0a].

(** The body of the example in the specification: a field [a] with the
    value hello and a file [b] named f.png that holds the PNG signature. *)
Definition field_and_png_body : Buffer :=
  part_bytes "X" (disposition "a") (Buffer_from "hello")
  ++ part_bytes "X"
       (file_disposition "b" "f.png" +:+ CRLF +:+ "Content-Type: image/png")
       png_signature
  ++ closing_bytes "X".

(** A body whose second segment has no empty line between a header block
    and a content: a well-formed field, the stray segment, a well-formed
    field, the closing delimiter. *)
Definition stray_segment_body : Buffer :=
  part_bytes "X" (disposition "a") (Buffer_from "hello")
  ++ Buffer_from ("--X" +:+ CRLF +:+ "stray text" +:+ CRLF)
  ++ part_bytes "X" (disposition "c") (Buffer_from "world")
  ++ closing_bytes "X".

(** A field followed by a file whose content is plain text. *)
Definition field_and_text_file_body : Buffer :=
  part_bytes "X" (disposition "a") (Buffer_from "hello")
  ++ part_bytes "X" (file_disposition "b" "notes.txt") (Buffer_from "just text")
  ++ closing_bytes "X".

(** Two fields with the same name, [first] then [second]. *)
Definition twice_body (name : string) : Buffer :=
  part_bytes "X" (disposition name) (Buffer_from "first")
  ++ part_bytes "X" (disposition name) (Buffer_from "second")
  ++ closing_bytes "X".

(** What a browser sends for a file input left empty: an empty file name
    and no content. *)
Definition empty_file_input_body : Buffer :=
  part_bytes "X"
    (file_disposition "b" EmptyString +:+ CRLF
     +:+ "Content-Type: application/octet-stream") []
  ++ closing_bytes "X".

(** A file part with an empty file name whose content is a PNG image. *)
Definition unnamed_png_body : Buffer :=
  part_bytes "X" (file_disposition "b" EmptyString) png_signature
  ++ closing_bytes "X".

(** A file part with an empty file name and a second header line that
    mentions a file name; its content is a PNG image. *)
Definition second_filename_body : Buffer :=
  part_bytes "X"
    (file_disposition "b" EmptyString +:+ CRLF
     +:+ "X-Original: filename=" +:+ quoted "zz") png_signature
  ++ closing_bytes "X".

(** A file part with an empty file name whose name is __proto__. *)
Definition proto_file_body : Buffer :=
  part_bytes "X" (file_disposition "__proto__" EmptyString) png_signature
  ++ closing_bytes "X".

(** A segment without an empty line, followed by the body
    [unnamed_png_body]. *)
Definition stray_then_unnamed_png_body : Buffer :=
  Buffer_from ("--X" +:+ CRLF +:+ "stray text" +:+ CRLF) ++ unnamed_png_body.

(** A segment without an empty line, followed by a file whose content is
    plain text. *)
Definition stray_then_text_file_body : Buffer :=
  Buffer_from ("--X" +:+ CRLF +:+ "stray text" +:+ CRLF)
  ++ part_bytes "X" (file_disposition "b" "notes.txt") (Buffer_from "just text")
  ++ closing_bytes "X".

(** *** Bodies with several parts

    A part is a text field or a file; [written_body] is the body a client
    writes for a list of parts, and [part_value] is the value the part is
    to come back as. *)
Inductive WrittenPart : Type :=
| Field (name : string) (content : Buffer)
| File (name filename : string) (content : Buffer).

Definition part_name (p : WrittenPart) : string :=
  match p with
  | Field name _ | File name _ _ => name
  end.

Definition part_headers (p : WrittenPart) : string :=
  match p with
  | Field name _ => disposition name
  | File name filename _ => file_disposition name filename
  end.

Definition part_payload (p : WrittenPart) : Buffer :=
  match p with
  | Field _ content | File _ _ content => content
  end.

(** The bytes of a part: the delimiter, a line break, the header
    block, an empty line, the content and a line break. *)
Definition written_part (boundary : string) (p : WrittenPart) : Buffer :=
  part_bytes boundary (part_headers p) (part_payload p).

Definition written_body (boundary : string) (parts : list WrittenPart) : Buffer :=
  concat (map (written_part boundary) parts) ++ closing_bytes boundary.

(** The type the sniffer finds for a content it recognises. *)
Definition sniffed (content : Buffer) : string :=
  match getMimeTypeFromBuffer content with
  | Return mime => mime
  | Throw _ => EmptyString
  end.

Definition part_value (p : WrittenPart) : Value :=
  match p with
  | Field _ content => VString (toString content)
  | File _ filename content =>
      VFile {| body := content; fileName := filename; encoding := "7bit";
               mimeType := sniffed content |}
  end.

(** A name or file name that can stand between the quotes of an
    attribute: a well-formed text that is not empty and holds no quote,
    carriage return, equals sign or colon. *)
Definition attribute_text (s : string) : Prop :=
  well_formed s /\ s <> EmptyString
  /\ forall c, In c (list_ascii_of_string s) ->
               c <> dquote /\ c <> CR /\ c <> "="%char /\ c <> ":"%char.

Definition well_written (p : WrittenPart) : Prop :=
  match p with
  | Field name _ => attribute_text name
  | File name filename content =>
      attribute_text name /\ attribute_text filename
      /\ exists mime, getMimeTypeFromBuffer content = Return mime
  end.

(** The delimiter occurs in the written bytes only at their start, also
    when the next delimiter follows them. *)
Definition delimiter_only_leads (bb written : Buffer) : Prop :=
  forall i : nat, (i < length written)%nat ->
    bytes_prefix bb (skipn i (written ++ bb)) = true -> i = 0%nat.

(** The segment of a written part: its bytes after the delimiter. *)
Definition part_segment (p : WrittenPart) : Buffer :=
  Buffer_from (CRLF +:+ part_headers p +:+ CRLF +:+ CRLF)
  ++ part_payload p ++ Buffer_from CRLF.

Definition part_entry (p : WrittenPart) : string * Value :=
  (part_name p, part_value p).

(** An index of the buffer seen from [k] bytes further to the left; the
    sentinel stays what it is. *)
Definition shift_index (k idx : Z) : Z := if idx =? -1 then -1 else idx + k.

(** *** The signature table

    No key of the table is a prefix of another entry's key: two entries
    whose keys are comparable are the same entry. *)
Definition prefix_free (table : list (string * string)) : bool :=
  forallb
    (fun e1 =>
       forallb
         (fun e2 =>
            implb (startsWith (fst e1) (fst e2))
                  (String.eqb (fst e1) (fst e2) && String.eqb (snd e1) (snd e2)))
         table)
    table.

(** The key [key] of the table, as bytes, starts [buffer]. *)
Definition signature_prefixes (key : string) (buffer : Buffer) : Prop :=
  exists key_bytes,
    bytes_of_hex key = Some key_bytes /\ bytes_prefix key_bytes buffer = true.

(** *** Streams *)

(** The text [data] holds after the chunks have arrived.  [data += chunk]
    converts the chunk to text before it appends it, so each chunk is
    decoded on its own, and a character whose bytes are divided between
    two chunks is not put together again. *)
Fixpoint chunks_text (chunks : list Buffer) : string :=
  match chunks with
  | [] => EmptyString
  | chunk :: chunks' => toString chunk +:+ chunks_text chunks'
  end.

(** The promise has been resolved or rejected. *)
Definition settled {A} (p : Promise A) : Prop := p <> Pending.

(** *** File entries *)

(** A file entry as the loop builds it: the type is what the sniffer
    returns for the content, and the encoding is a non-empty token in
    which no white-space character starts at any position. *)
Definition file_entry_sound (f : FileData) : Prop :=
  getMimeTypeFromBuffer (body f) = Return (mimeType f)
  /\ encoding f <> EmptyString
  /\ forall before after,
       encoding f = before +:+ after -> white_space_at after = false.

Definition files_sound (data : JsObject) : Prop :=
  (forall key f, own data !! key = Some (VFile f) -> file_entry_sound f)
  /\ (forall f, proto data = Some f -> file_entry_sound f).

(* ================================================================== *)
(** * Properties *)

(** ** The primitives on small inputs *)

Example subarray_negative_end :
  subarray [x01; x02; x03; x04] 1 (-1) = [x02; x03].
Proof. reflexivity. Qed.

Example subarray_end_before_start :
  subarray [x01; x02; x03; x04] 3 1 = [].
Proof. reflexivity. Qed.

Example indexOf_from_offset :
  indexOf [x01; x02; x01; x02] [x01; x02] 1 = 2.
Proof. reflexivity. Qed.

Example indexOf_absent : indexOf [x01; x02] [x03] 0 = -1.
Proof. reflexivity. Qed.

Example boundary_stops_at_semicolon :
  regex_exec boundary_at "multipart/form-data; Boundary=abc; charset=utf-8"
  = Some "abc"%string.
Proof. reflexivity. Qed.

(** Decoding: the two bytes that cannot start a sequence become U+FFFD
    each (EF BF BD in UTF-8), a sequence cut short becomes one U+FFFD,
    and well-formed sequences, the byte order mark included, come back
    as they are. *)
Example decode_ill_formed :
  Buffer_from (toString [x68; xff; xfe; x69])
  = [x68; xef; xbf; xbd; xef; xbf; xbd; x69]
  /\ Buffer_from (toString [x41; xf0; x9f; x98]) = [x41; xef; xbf; xbd]
  /\ Buffer_from (toString [xe0; x80; x41]) = [xef; xbf; xbd; xef; xbf; xbd; x41].
Proof. repeat split. Qed.

Example decode_well_formed :
  Buffer_from (toString [xef; xbb; xbf; xc3; xa9; xe2; x82; xac; xf0; x9f; x98; x80])
  = [xef; xbb; xbf; xc3; xa9; xe2; x82; xac; xf0; x9f; x98; x80].
Proof. reflexivity. Qed.

(** The token after the transfer encoding ends at a no-break space
    (U+00A0, C2 A0 in UTF-8) as it ends at a space. *)
Example encoding_stops_at_no_break_space :
  regex_exec encoding_at
    ("Content-Transfer-Encoding: ab"
     +:+ String (ascii_of_N 0xC2) (String (ascii_of_N 0xA0) "cd"))
  = Some "ab"%string.
Proof. reflexivity. Qed.

(** The pattern for the name also matches inside a filename attribute
    that comes first. *)
Example name_inside_filename :
  regex_exec (quoted_at "name")
    ("form-data; filename=" +:+ quoted "f.png" +:+ "; name=" +:+ quoted "b")
  = Some "f.png"%string.
Proof. reflexivity. Qed.

Example jpeg_marker :
  getMimeTypeFromBuffer [xff; xd8; xff; xe0] = Return "image/jpeg"%string.
Proof. reflexivity. Qed.

Example shorter_than_any_signature :
  getMimeTypeFromBuffer [xff] = Throw "Mime type unknown"%string.
Proof. reflexivity. Qed.

Example empty_body_resolves_empty :
  parseMultipart 1 [EvEnd] "multipart/form-data; boundary=X"
  = Some {| outcome := Resolved empty_object; listeners := subscribed;
            delivered := [EvEnd] |}.
Proof. reflexivity. Qed.

(** ** Strings and buffers *)

Lemma append_nil_l (s : string) : EmptyString +:+ s = s.
Proof. reflexivity. Qed.

Lemma append_cons (c : ascii) (s t : string) :
  String c s +:+ t = String c (s +:+ t).
Proof. reflexivity. Qed.

Ltac push_append := rewrite ?append_nil_l, ?append_cons in *.

Lemma append_assoc (s t u : string) : (s +:+ t) +:+ u = s +:+ (t +:+ u).
Proof. induction s as [|c s IH]; push_append; [reflexivity | rewrite IH; reflexivity]. Qed.

Lemma append_nil_r (s : string) : s +:+ EmptyString = s.
Proof. induction s as [|c s IH]; push_append; [reflexivity | rewrite IH; reflexivity]. Qed.

Lemma list_ascii_of_string_app (a b : string) :
  list_ascii_of_string (a +:+ b)
  = list_ascii_of_string a ++ list_ascii_of_string b.
Proof.
  induction a as [|c a IH]; push_append; [reflexivity|].
  cbn [list_ascii_of_string app]. rewrite IH. reflexivity.
Qed.

Lemma Buffer_from_cons (c : ascii) (s : string) :
  Buffer_from (String c s) = byte_of_ascii c :: Buffer_from s.
Proof. reflexivity. Qed.

Lemma Buffer_from_app (a b : string) :
  Buffer_from (a +:+ b) = Buffer_from a ++ Buffer_from b.
Proof.
  unfold Buffer_from, list_byte_of_string.
  induction a as [|c a IH]; push_append; [reflexivity|].
  cbn [list_ascii_of_string map app]. rewrite IH. reflexivity.
Qed.

(** ** Decoding

    An ASCII byte ends whatever sequence is open and is decoded to
    itself, so the decoding of a buffer splits at every ASCII byte. *)

Lemma lead_byte_sound (b : N) : decoder_sound (snd (lead_byte b)).
Proof.
  unfold lead_byte, decoder_sound.
  repeat match goal with
         | |- context [if ?c then _ else _] => destruct c
         end; cbn; lia.
Qed.

Lemma decode_byte_sound (st : Utf8Decoder) (b : N) :
  decoder_sound (snd (decode_byte st b)).
Proof.
  unfold decode_byte.
  destruct (bytes_needed st =? 0)%N; [apply lead_byte_sound|].
  destruct (_ || _).
  - pose proof (lead_byte_sound b) as H. destruct (lead_byte b). exact H.
  - destruct (bytes_needed st =? 1)%N; unfold decoder_sound; cbn; lia.
Qed.

Lemma decode_byte_ascii (st : Utf8Decoder) (b : N) :
  decoder_sound st -> (b <= 0x7F)%N ->
  decode_byte st b = (pending st ++ [b], decoder_reset).
Proof.
  unfold decoder_sound, decode_byte, pending, lead_byte. intros Hst Hb.
  destruct (N.leb_spec b 0x7F) as [_|]; [|lia].
  destruct (bytes_needed st =? 0)%N; [reflexivity|].
  destruct (N.ltb_spec b (lower_boundary st)) as [_|]; [reflexivity | lia].
Qed.

Lemma utf8_decode_ascii (st : Utf8Decoder) (a : Buffer) (b : byte) (r : Buffer) :
  decoder_sound st -> ascii_byte b ->
  utf8_decode st (a ++ b :: r)
  = utf8_decode st a ++ Byte.to_N b :: utf8_decode decoder_reset r.
Proof.
  intros Hst Hb. revert st Hst. induction a as [|x a IH]; intros st Hst.
  - cbn [app utf8_decode]. rewrite decode_byte_ascii by assumption.
    rewrite <- app_assoc. reflexivity.
  - cbn [app utf8_decode].
    pose proof (decode_byte_sound st (Byte.to_N x)) as Hnext.
    destruct (decode_byte st (Byte.to_N x)) as [out st'].
    rewrite (IH st' Hnext), <- app_assoc. reflexivity.
Qed.

Lemma text_of_app (l1 l2 : list N) :
  text_of (l1 ++ l2) = text_of l1 +:+ text_of l2.
Proof.
  induction l1 as [|cp l1 IH]; [reflexivity|].
  cbn [app text_of]. rewrite IH. symmetry. apply append_assoc.
Qed.

Lemma utf8_encode_ascii (b : byte) :
  ascii_byte b -> utf8_encode (Byte.to_N b) = String (ascii_of_byte b) EmptyString.
Proof.
  unfold ascii_byte, utf8_encode. intros Hb.
  destruct (N.ltb_spec (Byte.to_N b) 0x80); [|lia].
  rewrite ascii_of_byte_via_N. reflexivity.
Qed.

Lemma toString_ascii_split (a : Buffer) (b : byte) (r : Buffer) :
  ascii_byte b ->
  toString (a ++ b :: r) = toString a +:+ String (ascii_of_byte b) (toString r).
Proof.
  intros Hb. unfold toString.
  rewrite utf8_decode_ascii by (assumption || (unfold decoder_sound; cbn; lia)).
  rewrite text_of_app. cbn [text_of]. rewrite utf8_encode_ascii by exact Hb.
  reflexivity.
Qed.

Lemma toString_ascii_cons (b : byte) (r : Buffer) :
  ascii_byte b -> toString (b :: r) = String (ascii_of_byte b) (toString r).
Proof. intros Hb. exact (toString_ascii_split [] b r Hb). Qed.

(** On a buffer of ASCII bytes the decoder gives the bytes back. *)
Lemma toString_ascii (b : Buffer) :
  Forall ascii_byte b -> toString b = string_of_list_byte b.
Proof.
  induction 1 as [|x b Hx _ IH]; [reflexivity|].
  rewrite toString_ascii_cons by exact Hx. rewrite IH. reflexivity.
Qed.

Lemma to_N_byte_of_ascii (c : ascii) : Byte.to_N (byte_of_ascii c) = N_of_ascii c.
Proof. apply Byte.to_of_N. rewrite <- byte_of_ascii_via_N. reflexivity. Qed.

Lemma ascii_char_byte (c : ascii) : ascii_char c -> ascii_byte (byte_of_ascii c).
Proof. unfold ascii_char, ascii_byte. rewrite to_N_byte_of_ascii. tauto. Qed.

Lemma well_formed_nil : well_formed EmptyString.
Proof. reflexivity. Qed.

Lemma well_formed_cons (c : ascii) (s : string) :
  ascii_char c -> well_formed s -> well_formed (String c s).
Proof.
  unfold well_formed. intros Hc Hs.
  rewrite Buffer_from_cons, toString_ascii_cons by (apply ascii_char_byte; exact Hc).
  rewrite ascii_of_byte_of_ascii, Hs. reflexivity.
Qed.

Lemma well_formed_app (a : string) (c : ascii) (b : string) :
  ascii_char c -> well_formed a -> well_formed b ->
  well_formed (a +:+ String c b).
Proof.
  unfold well_formed. intros Hc Ha Hb.
  rewrite Buffer_from_app, Buffer_from_cons, toString_ascii_split
    by (apply ascii_char_byte; exact Hc).
  rewrite ascii_of_byte_of_ascii, Ha, Hb. reflexivity.
Qed.

(** Well-formedness of a text put together from ASCII literals and
    well-formed pieces, each piece followed by an ASCII character. *)
Ltac well_formed_text :=
  repeat first
    [ exact well_formed_nil
    | assumption
    | apply well_formed_cons; [vm_compute; discriminate|]
    | apply well_formed_app; [vm_compute; discriminate| |] ].

Lemma startsWith_spec (s search : string) :
  startsWith s search = true <-> exists rest, s = search +:+ rest.
Proof.
  revert s; induction search as [|c search IH]; intros s; simpl.
  - split; [intros _; exists s; reflexivity | reflexivity].
  - destruct s as [|d s]; [split; [discriminate | intros [? ?]; discriminate]|].
    rewrite andb_true_iff, Ascii.eqb_eq, IH. split.
    + intros [-> [rest ->]]. exists rest. reflexivity.
    + intros [rest H]. injection H as -> ->. eauto.
Qed.

Lemma bytes_prefix_spec (needle hay : Buffer) :
  bytes_prefix needle hay = true <-> exists rest, hay = needle ++ rest.
Proof.
  revert hay; induction needle as [|x needle IH]; intros hay; simpl.
  - split; [intros _; exists hay; reflexivity | reflexivity].
  - destruct hay as [|y hay]; [split; [discriminate | intros [? ?]; discriminate]|].
    rewrite andb_true_iff, IH. split.
    + intros [Hxy [rest ->]]. apply Byte.byte_dec_bl in Hxy as ->. eauto.
    + intros [rest H]. injection H as -> ->. split; [apply Byte.byte_dec_lb; reflexivity | eauto].
Qed.

Lemma clamp_index_inside (len i : Z) : 0 <= i <= len -> clamp_index len i = i.
Proof. unfold clamp_index. intros H. destruct (i <? 0) eqn:E; lia. Qed.

Lemma subarray_inside (b : Buffer) (s e : Z) :
  0 <= s <= e -> e <= buf_length b ->
  subarray b s e = firstn (Z.to_nat (e - s)) (skipn (Z.to_nat s) b).
Proof.
  intros Hs He. unfold subarray. cbv zeta.
  rewrite !clamp_index_inside by lia. reflexivity.
Qed.

Lemma bytes_of_hex_of_bytes (b : Buffer) : bytes_of_hex (hex_of_bytes b) = Some b.
Proof.
  induction b as [|x b IH]; [reflexivity|].
  cbn [hex_of_bytes bytes_of_hex]. rewrite IH.
  destruct x; reflexivity.
Qed.

Lemma hex_of_bytes_inj (a b : Buffer) : hex_of_bytes a = hex_of_bytes b -> a = b.
Proof.
  intros H. apply (f_equal bytes_of_hex) in H.
  rewrite !bytes_of_hex_of_bytes in H. congruence.
Qed.

(** ** getMimeTypeFromBuffer *)

Lemma signature_window (buffer : Buffer) :
  toStringHex buffer 0 (Z.min 16 (buf_length buffer))
  = hex_of_bytes (firstn 16 buffer).
Proof.
  unfold toStringHex, buf_length.
  replace (Z.max 0 0) with 0 by lia.
  replace (Z.max (Z.min 16 (Z.of_nat (length buffer))) 0)
    with (Z.min 16 (Z.of_nat (length buffer))) by lia.
  rewrite subarray_inside by (unfold buf_length; lia).
  rewrite Z.sub_0_r. change (skipn (Z.to_nat 0) buffer) with buffer.
  destruct (Z_le_gt_dec 16 (Z.of_nat (length buffer))) as [H|H].
  - rewrite Z.min_l by lia. reflexivity.
  - rewrite Z.min_r by lia. rewrite Nat2Z.id.
    rewrite !firstn_all2 by lia. reflexivity.
Qed.

Lemma hex_string_eqb (b expected : Buffer) :
  String.eqb (hex_of_bytes b) (hex_of_bytes expected) = true <-> b = expected.
Proof.
  rewrite String.eqb_eq. split; [apply hex_of_bytes_inj | congruence].
Qed.

Lemma riff_not_in_table (t : string) :
  first_signature (String "5" (String "2" t)) signatures = None.
Proof. reflexivity. Qed.

(** C5. A buffer that starts with the four bytes of RIFF is matched by no
    key of the signature table; with 12 bytes or more it is audio/wav when
    bytes 8 to 12 spell WAVE and video/avi when they spell AVI and a
    space, and getMimeTypeFromBuffer throws Mime type unknown when the
    buffer is shorter than 12 bytes or bytes 8 to 12 are anything else. *)
Theorem riff_container_sniffing (buffer : Buffer) :
  firstn 4 buffer = RIFF ->
  first_signature
    (toLowerCase (toStringHex buffer 0 (Z.min 16 (buf_length buffer))))
    signatures = None
  /\ (12 <= buf_length buffer -> subarray buffer 8 12 = WAVE ->
      getMimeTypeFromBuffer buffer = Return "audio/wav"%string)
  /\ (12 <= buf_length buffer -> subarray buffer 8 12 = AVI_ ->
      getMimeTypeFromBuffer buffer = Return "video/avi"%string)
  /\ (buf_length buffer < 12
      \/ (subarray buffer 8 12 <> WAVE /\ subarray buffer 8 12 <> AVI_) ->
      getMimeTypeFromBuffer buffer = Throw "Mime type unknown"%string).
Proof.
  intros Hriff.
  destruct buffer as [|b0 [|b1 [|b2 [|b3 rest]]]]; try discriminate.
  injection Hriff as -> -> -> ->.
  unfold getMimeTypeFromBuffer. rewrite signature_window.
  set (buffer := x52 :: x49 :: x46 :: x46 :: rest).
  assert (Hsig : toLowerCase (hex_of_bytes (firstn 16 buffer))
                 = String "5" (String "2" (String "4" (String "9"
                     (String "4" (String "6" (String "4" (String "6"
                        (toLowerCase (hex_of_bytes (firstn 12 rest)))))))))))
    by reflexivity.
  rewrite Hsig, riff_not_in_table.
  change (startsWith _ "52494646") with true.
  cbv beta iota. rewrite andb_true_l.
  unfold toStringHex.
  replace (Z.max 8 0) with 8 by lia. replace (Z.max 12 0) with 12 by lia.
  change "57415645"%string with (hex_of_bytes WAVE).
  change "41564920"%string with (hex_of_bytes AVI_).
  repeat split.
  - intros Hlen Hw. destruct (Z.gtb_spec (buf_length buffer) 11); [|lia].
    rewrite Hw. reflexivity.
  - intros Hlen Ha. destruct (Z.gtb_spec (buf_length buffer) 11); [|lia].
    rewrite Ha. reflexivity.
  - intros [Hshort | [Hw Ha]].
    + destruct (Z.gtb_spec (buf_length buffer) 11); [lia|]. reflexivity.
    + destruct (buf_length buffer >? 11); [|reflexivity].
      destruct (String.eqb _ (hex_of_bytes WAVE)) eqn:E1.
      { apply hex_string_eqb in E1. contradiction. }
      destruct (String.eqb _ (hex_of_bytes AVI_)) eqn:E2.
      { apply hex_string_eqb in E2. contradiction. }
      reflexivity.
Qed.

Lemma riff_container_sniffing_witness :
  getMimeTypeFromBuffer (RIFF ++ [x24; x00; x00; x00] ++ WAVE)
  = Return "audio/wav"%string.
Proof.
  apply (riff_container_sniffing (RIFF ++ [x24; x00; x00; x00] ++ WAVE));
    [reflexivity | vm_compute; discriminate | reflexivity].
Defined.

(** ** The content-type header *)

Lemma strip_literal_ci (lit s rest : string) :
  strip_literal eqb_ci lit s = Some rest <->
  exists keyword, s = keyword +:+ rest /\ toLowerCase keyword = toLowerCase lit.
Proof.
  revert s; induction lit as [|c lit IH]; intros s; simpl.
  - split.
    + intros [= ->]. exists EmptyString. split; reflexivity.
    + intros [[|k keyword] [-> Hk]]; [reflexivity | discriminate].
  - destruct s as [|d s].
    + split; [discriminate|]. intros [[|k keyword] [Hs Hk]]; discriminate.
    + unfold eqb_ci at 1. destruct (Ascii.eqb_spec (lower_char c) (lower_char d)) as [E|E].
      * rewrite IH. split.
        -- intros [keyword [-> Hk]]. exists (String d keyword). simpl.
           rewrite Hk, E. split; reflexivity.
        -- intros [[|k keyword] [Hs Hk]]; [discriminate|].
           simpl in Hs, Hk. injection Hs as -> ->. injection Hk as _ Hk.
           exists keyword. split; [reflexivity | assumption].
      * split; [discriminate|].
        intros [[|k keyword] [Hs Hk]]; [discriminate|].
        simpl in Hs, Hk. injection Hs as -> ->. injection Hk as Hc _.
        congruence.
Qed.

Lemma span_head_nonempty (p : ascii -> bool) (s : string) :
  one_or_more (fst (span p s)) <> None <->
  exists c after, s = String c after /\ p c = true.
Proof.
  destruct s as [|c s]; simpl.
  - split; [congruence | intros (? & ? & ? & _); discriminate].
  - destruct (p c) eqn:E.
    + destruct (span p s) as [v rest]. simpl. split; [eauto | discriminate].
    + simpl. split; [congruence|]. intros (c' & after & [= -> ->] & Hp). congruence.
Qed.

Lemma one_or_more_nonempty (v w : string) :
  one_or_more v = Some w -> w = v /\ v <> EmptyString.
Proof. destruct v; simpl; [discriminate|]. intros [= <-]. split; [reflexivity | discriminate]. Qed.

Lemma boundary_at_spec (s : string) :
  boundary_at s <> None <->
  exists keyword c after,
    s = keyword +:+ String c after
    /\ toLowerCase keyword = "boundary="%string /\ c <> ";"%char.
Proof.
  unfold boundary_at.
  destruct (strip_literal eqb_ci "boundary=" s) as [rest|] eqn:E.
  - apply strip_literal_ci in E as (keyword & -> & Hk).
    rewrite span_head_nonempty. split.
    + intros (c & after & -> & Hc). exists keyword, c, after.
      repeat split; [assumption|]. unfold not_char in Hc.
      intros ->. discriminate.
    + intros (keyword' & c & after & Hs & Hk' & Hc).
      assert (keyword' = keyword /\ String c after = rest) as [_ <-].
      { assert (Hlen : String.length keyword' = String.length keyword).
        { assert (Hl : forall t, String.length (toLowerCase t) = String.length t)
            by (induction t; simpl; congruence).
          rewrite <- (Hl keyword'), <- (Hl keyword), Hk, Hk'. reflexivity. }
        clear Hk Hk'. revert keyword Hs Hlen.
        induction keyword' as [|a k' IH]; intros [|b k] Hs Hlen;
          push_append; simpl in *; try discriminate.
        - split; [reflexivity | congruence].
        - injection Hs as -> Hs. injection Hlen as Hlen.
          destruct (IH k Hs Hlen) as [-> ?]. split; [reflexivity | assumption]. }
      exists c, after. split; [reflexivity|]. unfold not_char.
      destruct (Ascii.eqb_spec c ";"); [contradiction | reflexivity].
  - split; [congruence|]. intros (keyword & c & after & -> & Hk & _).
    assert (strip_literal eqb_ci "boundary=" (keyword +:+ String c after)
            = Some (String c after)) as E'.
    { apply strip_literal_ci. exists keyword. split; [reflexivity | exact Hk]. }
    congruence.
Qed.

Lemma regex_exec_spec (anchored : string -> option string) (s : string) :
  regex_exec anchored s <> None <->
  exists before rest, s = before +:+ rest /\ anchored rest <> None.
Proof.
  induction s as [|c s IH]; simpl.
  - destruct (anchored EmptyString) eqn:E.
    + split; [|congruence]. intros _. exists EmptyString, EmptyString.
      split; [reflexivity | congruence].
    + split; [congruence|]. intros ([|? ?] & rest & Hs & Hr); push_append;
        [subst rest; congruence | discriminate].
  - destruct (anchored (String c s)) eqn:E.
    + split; [|congruence]. intros _. exists EmptyString, (String c s).
      split; [reflexivity | congruence].
    + rewrite IH. split.
      * intros (before & rest & -> & Hr). exists (String c before), rest.
        split; [reflexivity | assumption].
      * intros ([|c' before] & rest & Hs & Hr); push_append.
        -- subst rest. congruence.
        -- injection Hs as -> ->. eauto.
Qed.

(** The pattern for the boundary finds a match exactly when the header
    has a boundary parameter in the sense of the specification. *)
Lemma boundary_regex_spec (header : string) :
  regex_exec boundary_at header <> None <-> has_boundary_parameter header.
Proof.
  rewrite regex_exec_spec. unfold has_boundary_parameter. split.
  - intros (before & rest & -> & Hr). apply boundary_at_spec in Hr
      as (keyword & c & after & -> & Hk & Hc). eauto 10.
  - intros (before & keyword & c & after & -> & Hk & Hc).
    exists before, (keyword +:+ String c after). split; [reflexivity|].
    apply boundary_at_spec. eauto 10.
Qed.

(** C7. When the header starts with multipart/form-data and has no
    boundary parameter, parseMultipart rejects with No boundary found
    whatever the stream is, having subscribed to no event of the stream
    and received none of its events. *)
Theorem missing_boundary_rejected_early
  (fuel : nat) (requestStream : Readable) (contentTypeHeader : string) :
  starts_with_literal contentTypeHeader "multipart/form-data" ->
  ~ has_boundary_parameter contentTypeHeader ->
  parseMultipart fuel requestStream contentTypeHeader
  = Some {| outcome := Rejected "No boundary found";
            listeners := []; delivered := [] |}.
Proof.
  intros Hprefix Hnone. unfold parseMultipart.
  apply startsWith_spec in Hprefix. rewrite Hprefix. cbn [negb].
  destruct (regex_exec boundary_at contentTypeHeader) eqn:E.
  - exfalso. apply Hnone, boundary_regex_spec. congruence.
  - reflexivity.
Qed.

Lemma missing_boundary_rejected_early_witness :
  parseMultipart 0 [EvData (Buffer_from "--X--"); EvEnd] "multipart/form-data; charset=utf-8"
  = Some {| outcome := Rejected "No boundary found";
            listeners := []; delivered := [] |}.
Proof.
  apply missing_boundary_rejected_early.
  - exists "; charset=utf-8"%string. reflexivity.
  - intros H. apply boundary_regex_spec in H. apply H. vm_compute. reflexivity.
Defined.

(** C8. When the header does not start with application/json (or there
    is no header at all), parseJson rejects with Invalid content type
    whatever the stream is, having subscribed to no event of the stream
    and received none of its events. *)
Theorem json_content_type_rejected_early
  {J : Type} (JSON_parse : string -> Thrown J)
  (requestStream : Readable) (contentTypeHeader : option string) :
  (forall h, contentTypeHeader = Some h ->
             ~ starts_with_literal h "application/json") ->
  parseJson JSON_parse requestStream contentTypeHeader
  = {| outcome := Rejected "Invalid content type";
       listeners := []; delivered := [] |}.
Proof.
  intros Hnot. unfold parseJson.
  destruct contentTypeHeader as [h|]; [|reflexivity].
  destruct (startsWith h "application/json") eqn:E; [|reflexivity].
  exfalso. apply (Hnot h eq_refl). apply startsWith_spec. exact E.
Qed.

Lemma json_content_type_rejected_early_witness :
  parseJson (fun _ : string => Return tt) [EvData (Buffer_from "{}"); EvEnd]
    (Some "text/plain"%string)
  = {| outcome := Rejected "Invalid content type";
       listeners := []; delivered := [] |}.
Proof.
  apply json_content_type_rejected_early.
  intros h [= <-] [rest Hrest]. discriminate.
Defined.

(** ** The loop and the listeners *)

Lemma scan_fuel_mono (fuel fuel' : nat) (full bb : Buffer) (idx : Z)
  (data : JsObject) :
  (fuel <= fuel')%nat ->
  scan fuel full bb idx data <> LoopFuel ->
  scan fuel' full bb idx data = scan fuel full bb idx data.
Proof.
  revert fuel' idx data.
  induction fuel as [|fuel IH]; intros fuel' idx data Hle Hdone;
    [contradiction Hdone; reflexivity|].
  destruct fuel' as [|fuel']; [lia|]. simpl in *.
  destruct (scan_step full bb idx); try reflexivity; apply IH; (lia || assumption).
Qed.

Lemma multipart_events_data (fuel : nat) (boundary : string)
  (chunks : list Buffer) (evs : list StreamEvent) (st : MultipartState) :
  multipart_events fuel boundary st (map EvData chunks ++ evs)
  = multipart_events fuel boundary
      {| buffer := buffer st ++ chunks; data := data st;
         returned := returned st |} evs.
Proof.
  revert st. induction chunks as [|chunk chunks IH]; intros st; simpl.
  - rewrite app_nil_r. destruct st; reflexivity.
  - rewrite IH. simpl. rewrite <- app_assoc. reflexivity.
Qed.

Lemma regex_exec_some (anchored : string -> option string) (s v : string) :
  regex_exec anchored s = Some v ->
  exists before rest, s = before +:+ rest /\ anchored rest = Some v.
Proof.
  induction s as [|c s IH]; simpl.
  - destruct (anchored EmptyString) eqn:E; [|discriminate].
    intros [= ->]. exists EmptyString, EmptyString. split; [reflexivity | assumption].
  - destruct (anchored (String c s)) eqn:E.
    + intros [= ->]. exists EmptyString, (String c s). split; [reflexivity | assumption].
    + intros H. destruct (IH H) as (before & rest & -> & Hr).
      exists (String c before), rest. split; [reflexivity | assumption].
Qed.

Lemma boundary_nonempty (header boundary : string) :
  regex_exec boundary_at header = Some boundary -> boundary <> EmptyString.
Proof.
  intros H. apply regex_exec_some in H as (before & rest & _ & H).
  unfold boundary_at in H. destruct (strip_literal _ _ _); [|discriminate].
  apply one_or_more_nonempty in H as [-> H]. exact H.
Qed.

(** A stream that delivers its chunks and ends: what the call returns is
    decided by the loop run on the concatenated chunks. *)
Lemma parseMultipart_chunks_end (fuel : nat) (chunks : list Buffer)
  (header boundary : string) :
  startsWith header "multipart/form-data" = true ->
  regex_exec boundary_at header = Some boundary ->
  parseMultipart fuel (map EvData chunks ++ [EvEnd]) header
  = match on_end fuel chunks boundary empty_object with
    | LoopDone d =>
        Some {| outcome := Resolved d; listeners := subscribed;
                delivered := map EvData chunks ++ [EvEnd] |}
    | LoopThrow message _ =>
        Some {| outcome := Rejected message; listeners := subscribed;
                delivered := map EvData chunks ++ [EvEnd] |}
    | LoopFuel => None
    end.
Proof.
  intros Hprefix Hboundary. unfold parseMultipart.
  rewrite Hprefix, Hboundary. cbn [negb].
  pose proof (boundary_nonempty _ _ Hboundary) as Hne.
  destruct boundary as [|c boundary]; [contradiction|].
  rewrite multipart_events_data. cbn [multipart_events multipart_event buffer data returned app].
  destruct (on_end fuel chunks (String c boundary) empty_object); reflexivity.
Qed.

(** C4. The body with boundary X that holds the field a = hello and the
    file b (f.png, no transfer encoding, content the PNG signature),
    delivered in any number of chunks and followed by the end of the
    stream, resolves to the object with a bound to hello and b bound to
    the file entry f.png, 7bit, image/png with those eight bytes. *)
Theorem field_and_png_example (fuel : nat) (chunks : list Buffer) :
  (3 <= fuel)%nat ->
  concat chunks = field_and_png_body ->
  parseMultipart fuel (map EvData chunks ++ [EvEnd])
    "multipart/form-data; boundary=X"
  = Some {| outcome :=
              Resolved
                {| own :=
                     <["b"%string :=
                         VFile {| body := png_signature;
                                  fileName := "f.png";
                                  encoding := "7bit";
                                  mimeType := "image/png" |}]>
                       (<["a"%string := VString "hello"]> ∅);
                   proto := None |};
            listeners := subscribed;
            delivered := map EvData chunks ++ [EvEnd] |}.
Proof.
  intros Hfuel Hbody.
  rewrite (parseMultipart_chunks_end fuel chunks _ "X") by reflexivity.
  unfold on_end. rewrite Hbody.
  rewrite (scan_fuel_mono 3 fuel) by (assumption || (vm_compute; discriminate)).
  vm_compute. reflexivity.
Qed.

Lemma field_and_png_example_witness :
  exists d,
    parseMultipart 3
      [EvData (firstn 40 field_and_png_body);
       EvData (skipn 40 field_and_png_body); EvEnd]
      "multipart/form-data; boundary=X"
    = Some {| outcome := Resolved d; listeners := subscribed;
              delivered := [EvData (firstn 40 field_and_png_body);
                            EvData (skipn 40 field_and_png_body); EvEnd] |}
    /\ own d !! "a"%string = Some (VString "hello").
Proof.
  eexists. split.
  - apply (field_and_png_example 3
             [firstn 40 field_and_png_body; skipn 40 field_and_png_body]);
      [lia | reflexivity].
  - reflexivity.
Defined.

Lemma scan_unfold (fuel : nat) (full bb : Buffer) (idx : Z) (data : JsObject) :
  scan (S fuel) full bb idx data
  = match scan_step full bb idx with
    | Exit => LoopDone data
    | Raise message => LoopThrow message data
    | Stay => scan fuel full bb idx data
    | Assign idx' name value => scan fuel full bb idx' (obj_set data name value)
    end.
Proof. reflexivity. Qed.

(** A pass that ends in [continue] is repeated for ever: no amount of
    fuel lets the loop finish. *)
Lemma scan_stay_forever (full bb : Buffer) (idx : Z) (data : JsObject) :
  scan_step full bb idx = Stay ->
  forall fuel, scan fuel full bb idx data = LoopFuel.
Proof.
  intros Hstay fuel. induction fuel as [|fuel IH]; [reflexivity|].
  rewrite scan_unfold, Hstay. exact IH.
Qed.

Lemma classify_skipped (part : Buffer) :
  indexOf part divider 0 = -1
  \/ regex_exec (quoted_at "name")
       (toString (subarray part 0 (indexOf part divider 0))) = None ->
  classify part = Skipped.
Proof.
  intros H. unfold classify.
  destruct (indexOf part divider 0 =? -1) eqn:E; [reflexivity|].
  destruct H as [H|H]; [rewrite H in E; discriminate|].
  rewrite H. reflexivity.
Qed.

(** The pass on a segment without an empty line, or without a name
    attribute in its header block, ends in [continue]. *)
Lemma scan_step_malformed (full bb : Buffer) (idx : Z) :
  idx <> -1 ->
  indexOf full bb (idx + 1) <> -1 ->
  (let part := segment_after full bb idx in
   indexOf part divider 0 = -1
   \/ regex_exec (quoted_at "name") (header_block part) = None) ->
  scan_step full bb idx = Stay.
Proof.
  intros Hidx Hend Hpart. unfold scan_step.
  destruct (Z.eqb_spec idx (-1)); [contradiction|].
  destruct (Z.eqb_spec (indexOf full bb (idx + 1)) (-1)); [contradiction|].
  cbv zeta in Hpart |- *. unfold segment_after, header_block in Hpart.
  rewrite (classify_skipped _ Hpart). reflexivity.
Qed.

(** C1 (what the code does).  When the loop stands at a delimiter that
    has a next delimiter after it, and the segment between the two has no
    empty line or no name attribute in its header block, the pass ends in
    [continue] with [idx] and [lastIdx] as they were: the next search is
    not moved to the end of the segment, the same segment is examined
    again, and the loop does not finish with any amount of fuel. *)
Theorem malformed_segment_never_left
  (full bb : Buffer) (idx : Z) (data : JsObject) :
  idx <> -1 ->
  indexOf full bb (idx + 1) <> -1 ->
  (let part := segment_after full bb idx in
   indexOf part divider 0 = -1
   \/ regex_exec (quoted_at "name") (header_block part) = None) ->
  scan_step full bb idx = Stay
  /\ forall fuel, scan fuel full bb idx data = LoopFuel.
Proof.
  intros Hidx Hend Hpart.
  pose proof (scan_step_malformed full bb idx Hidx Hend Hpart) as Hstay.
  split; [exact Hstay | apply scan_stay_forever; exact Hstay].
Qed.

Lemma malformed_segment_never_left_witness :
  on_end 1000
    [Buffer_from ("--X" +:+ CRLF +:+ "stray text" +:+ CRLF) ++ closing_bytes "X"]
    "X" empty_object = LoopFuel.
Proof.
  unfold on_end.
  apply (malformed_segment_never_left
           (concat [Buffer_from ("--X" +:+ CRLF +:+ "stray text" +:+ CRLF)
                    ++ closing_bytes "X"])
           (Buffer_from "--X") 0);
    [discriminate | vm_compute; discriminate | left; vm_compute; reflexivity].
Defined.

(** ** Keys of the result *)

Lemma quoted_at_nonempty (attr s v : string) :
  quoted_at attr s = Some v -> v <> EmptyString.
Proof.
  unfold quoted_at. destruct (strip_literal _ _ _) as [rest|]; [|discriminate].
  destruct (span (not_char dquote) rest) as [w rest'].
  destruct w as [|c w]; simpl; [discriminate|].
  destruct rest'; [discriminate|]. intros [= <-]. discriminate.
Qed.

Lemma name_nonempty (info name : string) :
  regex_exec (quoted_at "name") info = Some name -> name <> EmptyString.
Proof.
  intros H. apply regex_exec_some in H as (before & rest & _ & H).
  exact (quoted_at_nonempty _ _ _ H).
Qed.

Lemma classify_entry_name (part : Buffer) (name : string) (value : Value) :
  classify part = Entry name value -> name <> EmptyString.
Proof.
  unfold classify.
  destruct (indexOf part divider 0 =? -1); [discriminate|].
  destruct (regex_exec (quoted_at "name") _) as [n|] eqn:En; [|discriminate].
  apply name_nonempty in En.
  destruct (includes _ _).
  - destruct (getMimeTypeFromBuffer _); [|discriminate]. intros [= <- _]. exact En.
  - intros [= <- _]. exact En.
Qed.

Lemma scan_step_assign_name (full bb : Buffer) (idx idx' : Z)
  (name : string) (value : Value) :
  scan_step full bb idx = Assign idx' name value -> name <> EmptyString.
Proof.
  unfold scan_step.
  destruct (idx =? -1); [discriminate|].
  destruct (indexOf full bb (idx + 1) =? -1); [discriminate|].
  destruct (classify _) as [|n v|m] eqn:E; try discriminate.
  intros [= _ <- _]. exact (classify_entry_name _ _ _ E).
Qed.

Lemma obj_set_keys_nonempty (data : JsObject) (name : string) (value : Value) :
  name <> EmptyString -> keys_nonempty data ->
  keys_nonempty (obj_set data name value).
Proof.
  intros Hname Hdata key. unfold obj_set.
  destruct (String.eqb name "__proto__").
  - destruct value; apply Hdata.
  - cbn [own]. destruct (decide (name = key)) as [<-|Hne].
    + intros _. exact Hname.
    + rewrite lookup_insert_ne by exact Hne. apply Hdata.
Qed.

Lemma scan_keys_nonempty (fuel : nat) (full bb : Buffer) (idx : Z)
  (data : JsObject) :
  keys_nonempty data ->
  match scan fuel full bb idx data with
  | LoopDone d | LoopThrow _ d => keys_nonempty d
  | LoopFuel => True
  end.
Proof.
  revert idx data. induction fuel as [|fuel IH]; intros idx data Hdata;
    [exact I|].
  rewrite scan_unfold. destruct (scan_step full bb idx) as [| |idx' n v|m] eqn:E.
  - exact Hdata.
  - apply IH. exact Hdata.
  - apply IH. apply obj_set_keys_nonempty; [|exact Hdata].
    exact (scan_step_assign_name _ _ _ _ _ _ E).
  - exact Hdata.
Qed.

Lemma resolved_with_inv {A} (p : Promise unit) (a d : A) :
  resolved_with p a = Resolved d -> d = a.
Proof. destruct p; [discriminate | intros [= <-]; reflexivity | discriminate]. Qed.

Lemma multipart_events_keys_nonempty (fuel : nat) (boundary : string)
  (evs : list StreamEvent) (st st' : MultipartState) :
  keys_nonempty (data st) ->
  multipart_events fuel boundary st evs = Some st' ->
  keys_nonempty (data st').
Proof.
  revert st. induction evs as [|ev evs IH]; intros st Hdata; simpl.
  - intros [= <-]. exact Hdata.
  - destruct (multipart_event fuel boundary st ev) as [st1|] eqn:E; [|discriminate].
    apply IH. destruct ev as [chunk|err|]; simpl in E.
    + injection E as <-. exact Hdata.
    + injection E as <-. exact Hdata.
    + unfold on_end in E.
      pose proof (scan_keys_nonempty fuel (concat (buffer st))
                    (Buffer_from ("--" +:+ boundary))
                    (indexOf (concat (buffer st)) (Buffer_from ("--" +:+ boundary)) 0)
                    (data st) Hdata) as Hscan.
      destruct (scan _ _ _ _ _); [| |discriminate]; injection E as <-; exact Hscan.
Qed.

(** C10. Whenever parseMultipart resolves, every key of the object it
    resolves with is a non-empty string: the own keys, which are the
    names captured from the header blocks, and the keys inherited from a
    file entry that was assigned to [__proto__]. *)
Theorem resolved_keys_nonempty (fuel : nat) (requestStream : Readable)
  (contentTypeHeader : string) (call : Call JsObject) (resolved : JsObject) :
  parseMultipart fuel requestStream contentTypeHeader = Some call ->
  outcome call = Resolved resolved ->
  forall key : string, key ∈ enumerable_keys resolved -> key <> EmptyString.
Proof.
  unfold parseMultipart. intros Hcall Hout.
  destruct (negb _); [injection Hcall as <-; discriminate|].
  destruct (regex_exec boundary_at contentTypeHeader) as [[|c boundary]|];
    try (injection Hcall as <-; discriminate).
  destruct (multipart_events _ _ _ _) as [st'|] eqn:E; [|discriminate].
  injection Hcall as <-. cbn [outcome] in Hout.
  apply resolved_with_inv in Hout as ->.
  assert (Hown : keys_nonempty (data st')).
  { refine (multipart_events_keys_nonempty _ _ _ _ _ _ E).
    intros key [v Hv]. cbn in Hv. rewrite lookup_empty in Hv. discriminate. }
  intros key Hkey.
  unfold enumerable_keys in Hkey. apply elem_of_union in Hkey as [Hkey | Hkey].
  - apply elem_of_dom in Hkey. exact (Hown key Hkey).
  - destruct (proto (data st')); [|apply elem_of_empty in Hkey; contradiction].
    repeat (apply elem_of_union in Hkey as [Hkey | Hkey]);
      apply elem_of_singleton in Hkey; subst key; discriminate.
Qed.

Lemma resolved_keys_nonempty_witness :
  "a"%string <> EmptyString.
Proof.
  refine (resolved_keys_nonempty 3 [EvData field_and_png_body; EvEnd]
            "multipart/form-data; boundary=X" _ _ _ _ "a"%string _).
  - vm_compute. reflexivity.
  - reflexivity.
  - apply elem_of_union. left. apply elem_of_dom.
    eexists. vm_compute. reflexivity.
Defined.

(** ** Files whose type is not recognised *)

Lemma hex_of_bytes_app (a b : Buffer) :
  hex_of_bytes (a ++ b) = hex_of_bytes a +:+ hex_of_bytes b.
Proof.
  induction a as [|x a IH]; [reflexivity|].
  cbn [hex_of_bytes app]. rewrite IH. reflexivity.
Qed.

Lemma hex_is_lower_case (b : Buffer) : toLowerCase (hex_of_bytes b) = hex_of_bytes b.
Proof.
  induction b as [|x b IH]; [reflexivity|].
  cbn [hex_of_bytes toLowerCase]. rewrite IH. destruct x; reflexivity.
Qed.

Lemma startsWith_window (b : Buffer) (key : string) :
  startsWith (hex_of_bytes (firstn 16 b)) key = true ->
  startsWith (hex_of_bytes b) key = true.
Proof.
  rewrite !startsWith_spec. intros [rest H].
  exists (rest +:+ hex_of_bytes (skipn 16 b)).
  rewrite <- append_assoc, <- H, <- hex_of_bytes_app, firstn_skipn. reflexivity.
Qed.

Lemma first_signature_none (signature : string) (table : list (string * string)) :
  (forall key mime, In (key, mime) table ->
                    startsWith signature (toLowerCase key) = false) ->
  first_signature signature table = None.
Proof.
  induction table as [|[key mime] table IH]; intros H; [reflexivity|].
  simpl. rewrite (H key mime) by (left; reflexivity).
  apply IH. intros k m Hin. apply (H k m). right. exact Hin.
Qed.

Lemma signatures_lower_case (key mime : string) :
  In (key, mime) signatures -> toLowerCase key = key.
Proof.
  intros H. repeat (destruct H as [[= <- <-]|H]; [reflexivity|]). destruct H.
Qed.

Lemma riff_window (b : Buffer) :
  startsWith (hex_of_bytes (firstn 16 b)) "52494646" = true -> firstn 4 b = RIFF.
Proof.
  intros H. apply startsWith_window in H.
  destruct b as [|b0 [|b1 [|b2 [|b3 rest]]]];
    try (cbn in H; rewrite ?andb_false_r in H; discriminate).
  apply startsWith_spec in H as [tail H].
  change (b0 :: b1 :: b2 :: b3 :: rest) with ([b0; b1; b2; b3] ++ rest) in H.
  rewrite hex_of_bytes_app in H.
  change "52494646"%string with (hex_of_bytes RIFF) in H.
  cbn [firstn]. apply hex_of_bytes_inj.
  cbn [hex_of_bytes RIFF] in H |- *. push_append.
  injection H as -> -> -> -> -> -> -> -> _. reflexivity.
Qed.

(** Content that matches no signature and is not a RIFF container of 12
    bytes or more makes the sniffer throw. *)
Lemma unknown_content_throws (content : Buffer) :
  ~ matches_signature content -> ~ riff_container content ->
  getMimeTypeFromBuffer content = Throw mime_unknown.
Proof.
  intros Hsig Hriff. unfold getMimeTypeFromBuffer.
  rewrite signature_window, hex_is_lower_case.
  rewrite first_signature_none.
  - destruct (startsWith _ "52494646") eqn:E1; [|reflexivity].
    destruct (Z.gtb_spec (buf_length content) 11) as [E2|E2]; [|reflexivity].
    exfalso. apply Hriff. split; [apply riff_window; exact E1 | lia].
  - intros key mime Hin. rewrite (signatures_lower_case _ _ Hin).
    destruct (startsWith _ key) eqn:E; [|reflexivity].
    exfalso. apply Hsig. exists key, mime. split; [exact Hin|].
    apply startsWith_window. exact E.
Qed.

Lemma includes_spec (s sub : string) : includes s sub = true <-> contains s sub.
Proof.
  unfold contains. induction s as [|c s IH]; cbn [includes].
  - rewrite orb_false_r, startsWith_spec. split.
    + intros [rest H]. exists EmptyString, rest. exact H.
    + intros ([|? ?] & after & H); push_append; [eauto | discriminate].
  - rewrite orb_true_iff, startsWith_spec, IH. split.
    + intros [[rest H] | (before & after & H)].
      * exists EmptyString, rest. exact H.
      * exists (String c before), after. push_append. rewrite H. reflexivity.
    + intros ([|c' before] & after & H); push_append.
      * left. eauto.
      * right. injection H as -> ->. eauto.
Qed.

Lemma scan_reaches_scan (full bb : Buffer) (idx idx' : Z)
  (entries : list (string * Value)) :
  scan_reaches full bb idx entries idx' ->
  forall (k : nat) (data : JsObject),
    scan (length entries + k) full bb idx data
    = scan k full bb idx' (assign_all data entries).
Proof.
  induction 1 as [idx | idx idx' idx'' name value entries Hstep _ IH];
    intros k data; [reflexivity|].
  cbn [length Nat.add]. rewrite scan_unfold, Hstep. apply IH.
Qed.

(** The pass that meets a named file part whose content is not
    recognised ends in the exception of the sniffer. *)
Lemma classify_unknown_file (part : Buffer) (name : string) :
  indexOf part divider 0 <> -1 ->
  regex_exec (quoted_at "name") (header_block part) = Some name ->
  contains (header_block part) filename_marker ->
  getMimeTypeFromBuffer (part_content part) = Throw mime_unknown ->
  classify part = Failed mime_unknown.
Proof.
  unfold header_block, part_content.
  intros Hsplit Hname Hfile Hmime. unfold classify.
  destruct (Z.eqb_spec (indexOf part divider 0) (-1)); [contradiction|].
  rewrite Hname. apply includes_spec in Hfile. rewrite Hfile, Hmime. reflexivity.
Qed.

(** C3 (what the code does).  The stream delivers, in any chunks, the
    body with boundary X that holds a segment without an empty line and,
    after it, a file part b (notes.txt) whose content is plain text, and
    ends.  The part after the second delimiter has the filename marker
    in its header block, and its content matches no signature and is not
    a RIFF container; yet the call never settles: with any amount of
    fuel the loop is still repeating the pass on the first segment, so
    the file part is not reached and the promise is not rejected with
    Mime type unknown. *)
Theorem unknown_file_behind_stray_segment (fuel : nat) (chunks : list Buffer) :
  concat chunks = stray_then_text_file_body ->
  let part := segment_after (concat chunks) (Buffer_from "--X") 17 in
  contains (header_block part) filename_marker
  /\ ~ matches_signature (part_content part)
  /\ ~ riff_container (part_content part)
  /\ parseMultipart fuel (map EvData chunks ++ [EvEnd])
       "multipart/form-data; boundary=X" = None.
Proof.
  intros Hbody part. subst part. rewrite Hbody.
  repeat match goal with |- _ /\ _ => split end.
  - apply includes_spec. vm_compute. reflexivity.
  - intros (key & mime & Hin & Hs).
    repeat (destruct Hin as [[= <- <-]|Hin]; [vm_compute in Hs; discriminate|]).
    destruct Hin.
  - intros [H _]. vm_compute in H. discriminate.
  - rewrite (parseMultipart_chunks_end fuel _ _ "X") by reflexivity.
    unfold on_end. rewrite Hbody, scan_stay_forever; [reflexivity|].
    apply scan_step_malformed;
      [vm_compute; discriminate | vm_compute; discriminate
      | left; vm_compute; reflexivity].
Qed.

Lemma unknown_file_behind_stray_segment_witness :
  parseMultipart 1000
    (map EvData [firstn 20 stray_then_text_file_body;
                 skipn 20 stray_then_text_file_body] ++ [EvEnd])
    "multipart/form-data; boundary=X" = None.
Proof.
  assert (Hbody : concat [firstn 20 stray_then_text_file_body;
                          skipn 20 stray_then_text_file_body]
                  = stray_then_text_file_body).
  { cbn [concat]. rewrite app_nil_r. apply firstn_skipn. }
  exact (proj2 (proj2 (proj2
           (unknown_file_behind_stray_segment 1000 _ Hbody)))).
Defined.

(** The same bytes without the segment before the file part are
    rejected with Mime type unknown. *)
Example text_file_part_alone_rejects :
  parseMultipart 1
    [EvData (skipn 17 stray_then_text_file_body); EvEnd]
    "multipart/form-data; boundary=X"
  = Some {| outcome := Rejected "Mime type unknown";
            listeners := subscribed;
            delivered := [EvData (skipn 17 stray_then_text_file_body); EvEnd] |}.
Proof. vm_compute. reflexivity. Qed.

(** ** Parts that share a name *)

Lemma assign_all_app (data : JsObject) (l1 l2 : list (string * Value)) :
  assign_all data (l1 ++ l2) = assign_all (assign_all data l1) l2.
Proof. unfold assign_all. apply fold_left_app. Qed.

Lemma assign_all_other (data : JsObject) (entries : list (string * Value))
  (name : string) :
  (forall value, ~ In (name, value) entries) ->
  own (assign_all data entries) !! name = own data !! name.
Proof.
  revert data. induction entries as [|[n v] entries IH]; intros data Hnot;
    [reflexivity|].
  cbn [assign_all fold_left fst snd]. fold (assign_all (obj_set data n v) entries).
  rewrite IH by (intros value Hin; apply (Hnot value); right; exact Hin).
  unfold obj_set. destruct (String.eqb n "__proto__").
  - destruct v; reflexivity.
  - cbn [own]. apply lookup_insert_ne. intros ->. apply (Hnot v). left. reflexivity.
Qed.

Lemma obj_set_lookup (data : JsObject) (name : string) (value : Value) :
  name <> "__proto__"%string ->
  own (obj_set data name value) !! name = Some value.
Proof.
  intros Hname. unfold obj_set.
  destruct (String.eqb_spec name "__proto__"); [contradiction|].
  cbn [own]. apply lookup_insert_eq.
Qed.

(** The last assignment to a name decides what the name is bound to,
    for every name that assignment can create as an own property. *)
Lemma last_assignment_wins (data : JsObject)
  (before after : list (string * Value)) (name : string) (value : Value) :
  name <> "__proto__"%string ->
  (forall value', ~ In (name, value') after) ->
  own (assign_all data (before ++ (name, value) :: after)) !! name = Some value.
Proof.
  intros Hname Hafter. rewrite assign_all_app.
  cbn [assign_all fold_left fst snd].
  fold (assign_all (obj_set (assign_all data before) name value) after).
  rewrite assign_all_other by exact Hafter. apply obj_set_lookup. exact Hname.
Qed.

Example x_first_then_second :
  parseMultipart 3 [EvData (twice_body "x"); EvEnd]
    "multipart/form-data; boundary=X"
  = Some {| outcome :=
              Resolved {| own := {["x"%string := VString "second"]};
                          proto := None |};
            listeners := subscribed;
            delivered := [EvData (twice_body "x"); EvEnd] |}.
Proof. vm_compute. reflexivity. Qed.

(** C6 (what the code does).  Two fields that share the name __proto__,
    with the values first and second: the call resolves with an object
    that has no own property at all, so the name is bound to neither
    value. *)
Theorem proto_named_fields_not_recorded :
  parseMultipart 3 [EvData (twice_body "__proto__"); EvEnd]
    "multipart/form-data; boundary=X"
  = Some {| outcome := Resolved {| own := ∅; proto := None |};
            listeners := subscribed;
            delivered := [EvData (twice_body "__proto__"); EvEnd] |}.
Proof. vm_compute. reflexivity. Qed.

(** ** File parts with an empty file name *)

Lemma strip_literal_exact (lit s rest : string) :
  strip_literal Ascii.eqb lit s = Some rest <-> s = lit +:+ rest.
Proof.
  revert s; induction lit as [|c lit IH]; intros s; cbn [strip_literal]; push_append.
  - split; [intros [= ->] | intros ->]; reflexivity.
  - destruct s as [|d s]; [split; discriminate|].
    destruct (Ascii.eqb_spec c d) as [<-|Hne].
    + rewrite IH. split; [intros -> | intros [= ->]]; reflexivity.
    + split; [discriminate | intros [= <- _]; contradiction].
Qed.

Lemma span_spec (p : ascii -> bool) (s v rest : string) :
  span p s = (v, rest) ->
  s = v +:+ rest
  /\ (forall c, In c (list_ascii_of_string v) -> p c = true)
  /\ (rest = EmptyString \/ exists c rest', rest = String c rest' /\ p c = false).
Proof.
  revert v rest. induction s as [|c s IH]; intros v rest; cbn [span].
  - intros [= <- <-]. repeat split; [intros c [] | left; reflexivity].
  - destruct (p c) eqn:E.
    + destruct (span p s) as [v' rest'] eqn:Es. intros [= <- <-].
      destruct (IH v' rest' eq_refl) as (Hs & Hall & Hrest).
      repeat split.
      * push_append. rewrite <- Hs. reflexivity.
      * intros c' [<- | Hin]; [exact E | exact (Hall c' Hin)].
      * exact Hrest.
    + intros [= <- <-]. repeat split; [intros c' [] | right; eauto].
Qed.

Lemma span_app_stop (p : ascii -> bool) (v : string) (d : ascii) (rest : string) :
  (forall c, In c (list_ascii_of_string v) -> p c = true) ->
  p d = false ->
  span p (v +:+ String d rest) = (v, String d rest).
Proof.
  intros Hv Hd. induction v as [|c v IH]; push_append; cbn [span].
  - rewrite Hd. reflexivity.
  - rewrite (Hv c) by (left; reflexivity).
    rewrite IH by (intros c' Hin; apply Hv; right; exact Hin). reflexivity.
Qed.

(** The pattern for a quoted attribute, tried where the attribute
    starts, captures the value between the quotes. *)
Lemma quoted_at_hit (attr v after : string) :
  v <> EmptyString ->
  (forall c, In c (list_ascii_of_string v) -> c <> dquote) ->
  quoted_at attr
    ((attr +:+ String "=" (String dquote EmptyString))
     +:+ v +:+ String dquote after)
  = Some v.
Proof.
  intros Hne Hq. unfold quoted_at.
  rewrite (proj2 (strip_literal_exact _ _ (v +:+ String dquote after)) eq_refl).
  rewrite span_app_stop.
  - destruct v; [contradiction | reflexivity].
  - intros c Hin. unfold not_char.
    destruct (Ascii.eqb_spec c dquote) as [->|]; [|reflexivity].
    exfalso. exact (Hq _ Hin eq_refl).
  - reflexivity.
Qed.

Lemma quoted_at_some (attr s v : string) :
  quoted_at attr s = Some v ->
  exists after,
    s = (attr +:+ String "=" (String dquote EmptyString))
        +:+ v +:+ String dquote after
    /\ v <> EmptyString
    /\ ~ In dquote (list_ascii_of_string v).
Proof.
  unfold quoted_at.
  destruct (strip_literal Ascii.eqb _ s) as [rest|] eqn:Es; [|discriminate].
  apply strip_literal_exact in Es. subst s.
  destruct (span (not_char dquote) rest) as [w rest'] eqn:Espan.
  apply span_spec in Espan as (-> & Hall & Hrest).
  destruct (one_or_more w) as [w'|] eqn:Ew; [|discriminate].
  apply one_or_more_nonempty in Ew as [-> Hne].
  destruct rest' as [|c rest']; [discriminate|]. intros [= <-].
  destruct Hrest as [Hrest | (c' & r & [= <- <-] & Hc)]; [discriminate|].
  unfold not_char in Hc. destruct (Ascii.eqb_spec c dquote) as [->|]; [|discriminate].
  exists rest'. repeat split; [exact Hne|].
  intros Hin. specialize (Hall _ Hin). unfold not_char in Hall.
  rewrite Ascii.eqb_refl in Hall. discriminate.
Qed.

Lemma filename_not_captured (info : string) :
  ~ has_filename_value info ->
  regex_exec (quoted_at "filename") info = None.
Proof.
  intros Hnone. destruct (regex_exec _ info) as [v|] eqn:E; [|reflexivity].
  exfalso. apply Hnone.
  apply regex_exec_some in E as (before & rest & -> & H).
  apply quoted_at_some in H as (after & -> & Hne & Hq).
  exists before, v, after. repeat split; assumption.
Qed.

Lemma filename_captured (info : string) :
  has_filename_value info ->
  regex_exec (quoted_at "filename") info <> None.
Proof.
  intros (before & value & after & -> & Hne & Hq).
  apply regex_exec_spec.
  exists before, (filename_marker +:+ value +:+ String dquote after).
  split; [reflexivity|].
  change filename_marker
    with ("filename" +:+ String "=" (String dquote EmptyString)).
  rewrite (quoted_at_hit "filename" value after Hne); [discriminate|].
  intros c Hin ->. exact (Hq Hin).
Qed.

(** C9 (as the code has it).  The stream delivers the body in chunks
    and ends.  The loop, after the assignments for the parts before it,
    stands at the delimiter of a part that has an empty line; the header
    block of the part has a name attribute, with a captured name other
    than __proto__, it contains a filename attribute with an empty quoted
    value, and the pattern for the file name finds no value in it; the
    sniffer recognises the content.  Then the pass treats the part as a
    file and assigns to the name the file entry with the empty string as
    file name (the content, the encoding of the header block or 7bit,
    the type found): the name is an own property of the object bound to
    that entry, and the call goes on as the loop does from the next
    delimiter with that object. *)
Theorem empty_filename_part (fuel : nat) (chunks : list Buffer)
  (header boundary : string) (before : list (string * Value)) (idx : Z)
  (name mimeType : string) :
  starts_with_literal header "multipart/form-data" ->
  regex_exec boundary_at header = Some boundary ->
  let full := concat chunks in
  let bb := Buffer_from ("--" +:+ boundary) in
  scan_reaches full bb (indexOf full bb 0) before idx ->
  idx <> -1 ->
  indexOf full bb (idx + 1) <> -1 ->
  let part := segment_after full bb idx in
  indexOf part divider 0 <> -1 ->
  regex_exec (quoted_at "name") (header_block part) = Some name ->
  name <> "__proto__"%string ->
  contains (header_block part) (filename_marker +:+ String dquote EmptyString) ->
  ~ has_filename_value (header_block part) ->
  getMimeTypeFromBuffer (part_content part) = Return mimeType ->
  let entry :=
    VFile {| body := part_content part;
             fileName := EmptyString;
             encoding := match regex_exec encoding_at (header_block part) with
                         | Some e => e
                         | None => "7bit"%string
                         end;
             mimeType := mimeType |} in
  let recorded := obj_set (assign_all empty_object before) name entry in
  own recorded !! name = Some entry
  /\ parseMultipart (length before + 1 + fuel) (map EvData chunks ++ [EvEnd]) header
     = match scan fuel full bb (indexOf full bb (indexOf full bb (idx + 1)))
               recorded with
       | LoopDone d =>
           Some {| outcome := Resolved d; listeners := subscribed;
                   delivered := map EvData chunks ++ [EvEnd] |}
       | LoopThrow message _ =>
           Some {| outcome := Rejected message; listeners := subscribed;
                   delivered := map EvData chunks ++ [EvEnd] |}
       | LoopFuel => None
       end.
Proof.
  intros Hprefix Hboundary full bb Hreach Hidx Hend part Hsplit Hname Hproto
    Hmarker Hnone Hmime entry recorded.
  split; [apply obj_set_lookup; exact Hproto|].
  apply startsWith_spec in Hprefix.
  rewrite (parseMultipart_chunks_end _ chunks header boundary Hprefix Hboundary).
  unfold on_end. fold full. fold bb.
  rewrite <- Nat.add_assoc, (scan_reaches_scan _ _ _ _ _ Hreach).
  cbn [Nat.add]. rewrite scan_unfold.
  assert (Hstep : scan_step full bb idx
                  = Assign (indexOf full bb (indexOf full bb (idx + 1))) name entry).
  { unfold scan_step.
    destruct (Z.eqb_spec idx (-1)); [contradiction|].
    destruct (Z.eqb_spec (indexOf full bb (idx + 1)) (-1)); [contradiction|].
    fold (segment_after full bb idx). fold part.
    unfold classify. fold (header_block part). fold (part_content part).
    destruct (Z.eqb_spec (indexOf part divider 0) (-1)); [contradiction|].
    rewrite Hname.
    assert (Hfile : includes (header_block part) filename_marker = true).
    { apply includes_spec. destruct Hmarker as (b & a & Hm).
      exists b, (String dquote a). rewrite Hm, !append_assoc. reflexivity. }
    rewrite Hfile, (filename_not_captured _ Hnone), Hmime. reflexivity. }
  rewrite Hstep. fold recorded.
  destruct (scan fuel full bb _ recorded); reflexivity.
Qed.

Lemma empty_filename_part_witness :
  parseMultipart 2 (map EvData [unnamed_png_body] ++ [EvEnd])
    "multipart/form-data; boundary=X"
  = Some {| outcome :=
              Resolved
                {| own := {["b"%string :=
                              VFile {| body := png_signature;
                                       fileName := EmptyString;
                                       encoding := "7bit";
                                       mimeType := "image/png" |}]};
                   proto := None |};
            listeners := subscribed;
            delivered := map EvData [unnamed_png_body] ++ [EvEnd] |}.
Proof.
  assert (H1 : starts_with_literal "multipart/form-data; boundary=X"
                 "multipart/form-data")
    by (exists "; boundary=X"%string; reflexivity).
  assert (H2 : regex_exec boundary_at "multipart/form-data; boundary=X"
               = Some "X"%string) by reflexivity.
  pose proof (empty_filename_part 1 [unnamed_png_body]
                "multipart/form-data; boundary=X" "X" [] 0 "b" "image/png"
                H1 H2) as H.
  cbv zeta in H.
  assert (H3 := H (reaches_here _ _ _)). clear H.
  assert (H4 := H3 ltac:(discriminate)). clear H3.
  assert (H5 := H4 ltac:(vm_compute; discriminate)). clear H4.
  assert (H6 := H5 ltac:(vm_compute; discriminate)). clear H5.
  assert (H7 := H6 ltac:(vm_compute; reflexivity)). clear H6.
  assert (H8 := H7 ltac:(discriminate)). clear H7.
  assert (H9 := H8 ltac:(apply includes_spec; vm_compute; reflexivity)). clear H8.
  assert (H10 := H9 ltac:(intros Hv; apply filename_captured in Hv; apply Hv;
                          vm_compute; reflexivity)). clear H9.
  assert (H11 := H10 ltac:(vm_compute; reflexivity)). clear H10.
  destruct H11 as [_ Hcall].
  change 2%nat with (length (@nil (string * Value)) + 1 + 1)%nat.
  rewrite Hcall. vm_compute. reflexivity.
Defined.

(** C9 (counterexamples to an entry with an empty file name being
    recorded for every such part).  Each of the four parts has a name
    attribute and a filename attribute with an empty quoted value.
    - The part a browser sends for an empty file input has no content:
      the call rejects with Mime type unknown and records nothing.
    - A part whose header block mentions a non-empty file name in a
      second line is recorded with that file name.
    - A part named __proto__ is not recorded as a property: the file
      entry becomes the prototype of the object.
    - A part that comes after a segment without an empty line is never
      reached: the call does not settle. *)
Lemma empty_filename_counterexamples :
  (regex_exec (quoted_at "name")
     (header_block (segment_after empty_file_input_body (Buffer_from "--X") 0))
   = Some "b"%string
   /\ includes
        (header_block (segment_after empty_file_input_body (Buffer_from "--X") 0))
        (filename_marker +:+ String dquote EmptyString) = true
   /\ parseMultipart 1 [EvData empty_file_input_body; EvEnd]
        "multipart/form-data; boundary=X"
      = Some {| outcome := Rejected "Mime type unknown";
                listeners := subscribed;
                delivered := [EvData empty_file_input_body; EvEnd] |})
  /\ (regex_exec (quoted_at "name")
        (header_block (segment_after second_filename_body (Buffer_from "--X") 0))
      = Some "b"%string
      /\ includes
           (header_block (segment_after second_filename_body (Buffer_from "--X") 0))
           (filename_marker +:+ String dquote EmptyString) = true
      /\ parseMultipart 2 [EvData second_filename_body; EvEnd]
           "multipart/form-data; boundary=X"
         = Some {| outcome :=
                     Resolved
                       {| own := {["b"%string :=
                                     VFile {| body := png_signature;
                                              fileName := "zz";
                                              encoding := "7bit";
                                              mimeType := "image/png" |}]};
                          proto := None |};
                   listeners := subscribed;
                   delivered := [EvData second_filename_body; EvEnd] |})
  /\ (regex_exec (quoted_at "name")
        (header_block (segment_after proto_file_body (Buffer_from "--X") 0))
      = Some "__proto__"%string
      /\ includes
           (header_block (segment_after proto_file_body (Buffer_from "--X") 0))
           (filename_marker +:+ String dquote EmptyString) = true
      /\ parseMultipart 2 [EvData proto_file_body; EvEnd]
           "multipart/form-data; boundary=X"
         = Some {| outcome :=
                     Resolved
                       {| own := ∅;
                          proto := Some {| body := png_signature;
                                           fileName := EmptyString;
                                           encoding := "7bit";
                                           mimeType := "image/png" |} |};
                   listeners := subscribed;
                   delivered := [EvData proto_file_body; EvEnd] |})
  /\ (regex_exec (quoted_at "name")
        (header_block
           (segment_after stray_then_unnamed_png_body (Buffer_from "--X") 17))
      = Some "b"%string
      /\ includes
           (header_block
              (segment_after stray_then_unnamed_png_body (Buffer_from "--X") 17))
           (filename_marker +:+ String dquote EmptyString) = true
      /\ forall fuel,
           parseMultipart fuel [EvData stray_then_unnamed_png_body; EvEnd]
             "multipart/form-data; boundary=X" = None).
Proof.
  repeat match goal with |- _ /\ _ => split end;
    try match goal with |- _ = _ => vm_compute; reflexivity end.
  intros fuel.
  change [EvData stray_then_unnamed_png_body; EvEnd]
    with (map EvData [stray_then_unnamed_png_body] ++ [EvEnd]).
  rewrite (parseMultipart_chunks_end fuel _ _ "X") by reflexivity.
  unfold on_end. rewrite scan_stay_forever; [reflexivity|].
  apply scan_step_malformed;
    [vm_compute; discriminate | vm_compute; discriminate | left; vm_compute; reflexivity].
Qed.

(** ** Progress of the loop *)

Lemma find_from_result (needle hay : Buffer) (pos : Z) :
  0 <= pos ->
  find_from needle hay pos = -1
  \/ (pos <= find_from needle hay pos <= pos + Z.of_nat (length hay)
      /\ bytes_prefix needle
           (skipn (Z.to_nat (find_from needle hay pos - pos)) hay) = true).
Proof.
  revert pos. induction hay as [|y hay IH]; intros pos Hpos; cbn [find_from].
  - destruct (bytes_prefix needle []) eqn:E; [right | left; reflexivity].
    rewrite Z.sub_diag. cbn [length Z.to_nat skipn]. split; [lia | exact E].
  - destruct (bytes_prefix needle (y :: hay)) eqn:E.
    + right. rewrite Z.sub_diag. cbn [Z.to_nat skipn].
      split; [cbn [length]; lia | exact E].
    + destruct (IH (pos + 1)) as [H | [Hrange Hpre]]; [lia | left; exact H |].
      right. split; [cbn [length]; lia|].
      replace (Z.to_nat (find_from needle hay (pos + 1) - pos))
        with (S (Z.to_nat (find_from needle hay (pos + 1) - (pos + 1)))) by lia.
      exact Hpre.
Qed.

(** What [indexOf] returns is [-1] or the offset of an occurrence at or
    after [offset]. *)
Lemma indexOf_result (b value : Buffer) (offset : Z) :
  value <> [] -> 0 <= offset ->
  indexOf b value offset = -1
  \/ (offset <= indexOf b value offset <= buf_length b
      /\ bytes_prefix value (skipn (Z.to_nat (indexOf b value offset)) b) = true).
Proof.
  intros Hvalue Hoff. unfold indexOf.
  destruct (Z_le_gt_dec offset (buf_length b)) as [Hin|Hout].
  - rewrite clamp_index_inside by lia.
    destruct (find_from_result value (skipn (Z.to_nat offset) b) offset Hoff)
      as [H | [Hrange Hpre]]; [left; exact H | right].
    rewrite length_skipn in Hrange. unfold buf_length in *.
    split; [lia|].
    rewrite skipn_skipn in Hpre.
    replace (Z.to_nat (find_from value (skipn (Z.to_nat offset) b) offset))
      with (Z.to_nat (find_from value (skipn (Z.to_nat offset) b) offset - offset)
            + Z.to_nat offset)%nat by lia.
    exact Hpre.
  - left. unfold clamp_index. destruct (Z.ltb_spec offset 0); [lia|].
    rewrite Z.min_r by lia. unfold buf_length in *.
    rewrite Nat2Z.id, skipn_all. cbn [find_from].
    destruct value; [contradiction | reflexivity].
Qed.

(** A search that starts on an occurrence finds it. *)
Lemma indexOf_here (b value : Buffer) (r : Z) :
  0 <= r <= buf_length b ->
  bytes_prefix value (skipn (Z.to_nat r) b) = true ->
  indexOf b value r = r.
Proof.
  intros Hr Hpre. unfold indexOf. rewrite clamp_index_inside by lia.
  destruct (skipn (Z.to_nat r) b); cbn [find_from]; rewrite Hpre; reflexivity.
Qed.

(** A pass that reaches the end of the body moves [idx] forward. *)
Lemma scan_step_progress (full bb : Buffer) (idx idx' : Z)
  (name : string) (value : Value) :
  bb <> [] -> 0 <= idx ->
  scan_step full bb idx = Assign idx' name value ->
  idx < idx' <= buf_length full.
Proof.
  intros Hbb Hidx. unfold scan_step.
  destruct (idx =? -1); [discriminate|].
  destruct (Z.eqb_spec (indexOf full bb (idx + 1)) (-1)) as [|Hend]; [discriminate|].
  destruct (classify _); try discriminate. intros [= <- _ _].
  destruct (indexOf_result full bb (idx + 1) Hbb) as [H | [Hrange Hpre]];
    [lia | contradiction |].
  rewrite indexOf_here by (lia || exact Hpre). lia.
Qed.

Lemma scan_reaches_stay (full bb : Buffer) (idx idx' : Z)
  (entries : list (string * Value)) :
  scan_reaches full bb idx entries idx' ->
  scan_step full bb idx' = Stay ->
  forall (fuel : nat) (data : JsObject), scan fuel full bb idx data = LoopFuel.
Proof.
  induction 1 as [idx | idx idx' idx'' name value entries Hstep _ IH];
    intros Hstay fuel data.
  - apply scan_stay_forever. exact Hstay.
  - destruct fuel as [|fuel]; [reflexivity|].
    rewrite scan_unfold, Hstep. apply IH. exact Hstay.
Qed.

(** The loop finishes, by leaving the loop or by an exception, unless it
    comes to a pass that ends in [continue]; in that case it never
    finishes.  The two cases exclude each other. *)
Theorem scan_finishes_unless_stalled (full bb : Buffer) (idx : Z)
  (data : JsObject) :
  bb <> [] -> -1 <= idx ->
  (exists fuel, scan fuel full bb idx data <> LoopFuel)
  \/ ((exists entries idx',
         scan_reaches full bb idx entries idx'
         /\ scan_step full bb idx' = Stay)
      /\ forall fuel, scan fuel full bb idx data = LoopFuel).
Proof.
  intros Hbb Hidx.
  remember (Z.to_nat (buf_length full - idx)) as m eqn:Hm.
  revert idx data Hidx Hm.
  induction m as [m IH] using lt_wf_ind. intros idx data Hidx Hm.
  destruct (scan_step full bb idx) as [| |idx' name value|message] eqn:E.
  - left. exists 1%nat. rewrite scan_unfold, E. discriminate.
  - right. split.
    + exists [], idx. split; [constructor | exact E].
    + apply scan_stay_forever. exact E.
  - assert (Hidx0 : 0 <= idx).
    { destruct (Z.eq_dec idx (-1)) as [->|]; [discriminate E | lia]. }
    pose proof (scan_step_progress _ _ _ _ _ _ Hbb Hidx0 E) as Hprog.
    destruct (IH (Z.to_nat (buf_length full - idx')) ltac:(lia) idx'
                (obj_set data name value) ltac:(lia) eq_refl)
      as [[fuel Hfuel] | [(entries & idx'' & Hreach & Hstay) Hnever]].
    + left. exists (S fuel). rewrite scan_unfold, E. exact Hfuel.
    + right. split.
      * exists ((name, value) :: entries), idx''.
        split; [econstructor; eassumption | exact Hstay].
      * intros [|fuel]; [reflexivity|]. rewrite scan_unfold, E. apply Hnever.
  - left. exists 1%nat. rewrite scan_unfold, E. discriminate.
Qed.

(** C2 (what the code does).  The stream delivers the body in chunks and
    ends.  When the loop, after the assignments for the parts before it,
    stands at a segment that has no empty line, or no name attribute in
    its header block, the call never settles: with any amount of fuel the
    loop inside the [end] listener is still running, so the promise is
    neither resolved with the other parts nor rejected. *)
Theorem malformed_part_never_resolves
  (fuel : nat) (chunks : list Buffer) (header boundary : string)
  (entries : list (string * Value)) (idx : Z) :
  starts_with_literal header "multipart/form-data" ->
  regex_exec boundary_at header = Some boundary ->
  let full := concat chunks in
  let bb := Buffer_from ("--" +:+ boundary) in
  scan_reaches full bb (indexOf full bb 0) entries idx ->
  idx <> -1 ->
  indexOf full bb (idx + 1) <> -1 ->
  (let part := segment_after full bb idx in
   indexOf part divider 0 = -1
   \/ regex_exec (quoted_at "name") (header_block part) = None) ->
  parseMultipart fuel (map EvData chunks ++ [EvEnd]) header = None.
Proof.
  intros Hprefix Hboundary full bb Hreach Hidx Hend Hpart.
  apply startsWith_spec in Hprefix.
  rewrite (parseMultipart_chunks_end fuel chunks header boundary Hprefix Hboundary).
  unfold on_end. fold full. fold bb.
  rewrite (scan_reaches_stay full bb _ idx entries Hreach); [reflexivity|].
  exact (scan_step_malformed full bb idx Hidx Hend Hpart).
Qed.

Lemma malformed_part_never_resolves_witness :
  parseMultipart 1000 (map EvData [stray_segment_body] ++ [EvEnd])
    "multipart/form-data; boundary=X" = None.
Proof.
  apply (malformed_part_never_resolves 1000 [stray_segment_body] _ "X"
           [("a"%string, VString "hello")] 56).
  - exists "; boundary=X"%string. reflexivity.
  - reflexivity.
  - eapply reaches_assign; [vm_compute; reflexivity | apply reaches_here].
  - discriminate.
  - vm_compute. discriminate.
  - left. vm_compute. reflexivity.
Defined.

(* ================================================================== *)
(** * Further properties of the code *)

(** ** getMimeTypeFromBuffer: what decides the result *)

Lemma startsWith_comparable (s k1 k2 : string) :
  startsWith s k1 = true -> startsWith s k2 = true ->
  startsWith k1 k2 = true \/ startsWith k2 k1 = true.
Proof.
  revert s k2. induction k1 as [|c1 k1 IH]; intros s k2 H1 H2.
  - right. destruct k2; reflexivity.
  - destruct k2 as [|c2 k2]; [left; reflexivity|].
    destruct s as [|d s]; [discriminate|].
    cbn [startsWith] in *.
    apply andb_true_iff in H1 as [E1 H1]. apply andb_true_iff in H2 as [E2 H2].
    apply Ascii.eqb_eq in E1, E2. subst c1 c2.
    rewrite Ascii.eqb_refl. cbn [andb].
    destruct (IH s k2 H1 H2) as [H|H]; [left | right]; exact H.
Qed.

Lemma signatures_prefix_free : prefix_free signatures = true.
Proof. vm_compute. reflexivity. Qed.

Lemma prefix_free_same (table : list (string * string))
  (k1 m1 k2 m2 : string) :
  prefix_free table = true ->
  In (k1, m1) table -> In (k2, m2) table ->
  startsWith k1 k2 = true -> k1 = k2 /\ m1 = m2.
Proof.
  unfold prefix_free. intros Hfree H1 H2 Hpre.
  rewrite forallb_forall in Hfree. specialize (Hfree _ H1).
  rewrite forallb_forall in Hfree. specialize (Hfree _ H2).
  cbn [fst snd] in Hfree. rewrite Hpre in Hfree. cbn [implb] in Hfree.
  apply andb_true_iff in Hfree as [E1 E2].
  apply String.eqb_eq in E1, E2. split; assumption.
Qed.

Lemma first_signature_some (signature : string) (table : list (string * string))
  (mime : string) :
  first_signature signature table = Some mime ->
  exists key, In (key, mime) table
              /\ startsWith signature (toLowerCase key) = true.
Proof.
  induction table as [|[k m] table IH]; [discriminate|]. cbn [first_signature].
  destruct (startsWith signature (toLowerCase k)) eqn:E.
  - intros [= <-]. exists k. split; [left; reflexivity | exact E].
  - intros H. destruct (IH H) as (key & Hin & Hs). exists key.
    split; [right; exact Hin | exact Hs].
Qed.

(** In a table without comparable keys, the first entry that matches is
    the only one. *)
Lemma first_signature_unique (signature : string)
  (table : list (string * string)) (key mime : string) :
  (forall k1 m1 k2 m2, In (k1, m1) table -> In (k2, m2) table ->
     startsWith signature (toLowerCase k1) = true ->
     startsWith signature (toLowerCase k2) = true -> m1 = m2) ->
  In (key, mime) table ->
  startsWith signature (toLowerCase key) = true ->
  first_signature signature table = Some mime.
Proof.
  intros Hsame Hin Hs.
  destruct (first_signature signature table) as [m|] eqn:E.
  - apply first_signature_some in E as (k & Hk & Hks).
    f_equal. exact (Hsame _ _ _ _ Hk Hin Hks Hs).
  - exfalso. revert E. clear Hsame.
    induction table as [|[k m] table IH]; [destruct Hin|]. cbn [first_signature].
    destruct (startsWith signature (toLowerCase k)) eqn:Ek; [discriminate|].
    destruct Hin as [[= -> ->]|Hin]; [congruence | exact (IH Hin)].
Qed.

Lemma signatures_same_mime (signature k1 m1 k2 m2 : string) :
  In (k1, m1) signatures -> In (k2, m2) signatures ->
  startsWith signature (toLowerCase k1) = true ->
  startsWith signature (toLowerCase k2) = true -> m1 = m2.
Proof.
  intros H1 H2 Hs1 Hs2.
  rewrite (signatures_lower_case _ _ H1) in Hs1.
  rewrite (signatures_lower_case _ _ H2) in Hs2.
  destruct (startsWith_comparable _ _ _ Hs1 Hs2) as [H|H].
  - exact (proj2 (prefix_free_same _ _ _ _ _ signatures_prefix_free H1 H2 H)).
  - symmetry.
    exact (proj2 (prefix_free_same _ _ _ _ _ signatures_prefix_free H2 H1 H)).
Qed.

(** The order in which [for ... in] visits the keys of [signatures] has
    no influence on the type that is found: any rearrangement of the
    table gives the same result for every signature. *)
Theorem signature_order_irrelevant (signature : string)
  (table : list (string * string)) :
  Permutation table signatures ->
  first_signature signature table = first_signature signature signatures.
Proof.
  intros Hperm.
  destruct (first_signature signature signatures) as [mime|] eqn:E.
  - apply first_signature_some in E as (key & Hin & Hs).
    apply (first_signature_unique signature table key mime).
    + intros k1 m1 k2 m2 H1 H2.
      apply signatures_same_mime;
        eapply Permutation_in; eassumption.
    + eapply Permutation_in; [symmetry; exact Hperm | exact Hin].
    + exact Hs.
  - destruct (first_signature signature table) as [mime|] eqn:E'; [|reflexivity].
    apply first_signature_some in E' as (key & Hin & Hs).
    assert (Hin' : In (key, mime) signatures)
      by (eapply Permutation_in; eassumption).
    rewrite (first_signature_unique signature signatures key mime) in E;
      [discriminate | | exact Hin' | exact Hs].
    intros k1 m1 k2 m2. apply signatures_same_mime.
Qed.

Lemma signature_order_irrelevant_witness :
  first_signature "89504e470d0a1a0a" (rev signatures)
  = first_signature "89504e470d0a1a0a" signatures.
Proof.
  apply signature_order_irrelevant. symmetry. apply Permutation_rev.
Defined.

Lemma hex_prefix_bytes (key_bytes buffer : Buffer) :
  startsWith (hex_of_bytes buffer) (hex_of_bytes key_bytes) = true
  <-> bytes_prefix key_bytes buffer = true.
Proof.
  revert buffer. induction key_bytes as [|x kb IH]; intros buffer.
  - split; reflexivity.
  - destruct buffer as [|y buffer]; [split; discriminate|].
    cbn [hex_of_bytes startsWith bytes_prefix].
    rewrite !andb_true_iff, IH, !Ascii.eqb_eq. split.
    + intros (Hhi & Hlo & Hrest). split; [|exact Hrest].
      apply Byte.byte_dec_lb.
      assert (H : hex_of_bytes [x] = hex_of_bytes [y])
        by (cbn [hex_of_bytes]; rewrite Hhi, Hlo; reflexivity).
      apply hex_of_bytes_inj in H. congruence.
    + intros [Hxy Hrest]. apply Byte.byte_dec_bl in Hxy as ->.
      repeat split; try reflexivity; exact Hrest.
Qed.

Lemma signatures_are_hex (key mime : string) :
  In (key, mime) signatures ->
  exists key_bytes,
    bytes_of_hex key = Some key_bytes /\ hex_of_bytes key_bytes = key.
Proof.
  intros H.
  repeat (destruct H as [[= <- <-]|H];
          [eexists; split; vm_compute; reflexivity|]).
  destruct H.
Qed.

Lemma signature_prefixes_spec (key mime : string) (buffer : Buffer) :
  In (key, mime) signatures ->
  startsWith (hex_of_bytes buffer) key = true <-> signature_prefixes key buffer.
Proof.
  intros Hin. destruct (signatures_are_hex _ _ Hin) as (kb & Hkb & Hhex).
  unfold signature_prefixes. rewrite <- Hhex at 1. rewrite hex_prefix_bytes.
  split.
  - intros H. exists kb. split; assumption.
  - intros (kb' & Hkb' & H). congruence.
Qed.

Lemma startsWith_window_iff (b : Buffer) (key : string) :
  (String.length key <= 32)%nat ->
  startsWith (hex_of_bytes (firstn 16 b)) key = startsWith (hex_of_bytes b) key.
Proof.
  intros Hlen.
  destruct (startsWith (hex_of_bytes (firstn 16 b)) key) eqn:E.
  - symmetry. apply startsWith_window. exact E.
  - destruct (startsWith (hex_of_bytes b) key) eqn:E'; [|reflexivity].
    exfalso. rewrite <- (firstn_skipn 16 b), hex_of_bytes_app in E'.
    destruct (le_lt_dec 16 (length b)) as [Hlong|Hshort].
    + (* the window holds 32 characters, enough for the key *)
      assert (Hw : String.length (hex_of_bytes (firstn 16 b)) = 32%nat).
      { assert (Hl : forall l : Buffer,
                   String.length (hex_of_bytes l) = (2 * length l)%nat).
        { induction l as [|x l IHl]; [reflexivity|].
          cbn [hex_of_bytes String.length length]. rewrite IHl. lia. }
        rewrite Hl, length_firstn. lia. }
      revert E E' Hw Hlen. generalize (hex_of_bytes (firstn 16 b)) as w.
      generalize (hex_of_bytes (skipn 16 b)) as t. intros t w.
      revert key. generalize 32%nat as n. intros n key. revert n key.
      induction w as [|c w IHw]; intros n key E E' Hw Hlen.
      * cbn [String.length] in Hw. subst n.
        destruct key; [discriminate | cbn [String.length] in Hlen; lia].
      * destruct key as [|k key]; [discriminate|].
        push_append. cbn [startsWith String.length] in *.
        destruct (Ascii.eqb k c); [|discriminate]. cbn [andb] in *.
        destruct n as [|n]; [discriminate|].
        apply (IHw n key E E'); lia.
    + rewrite skipn_all2 in E' by lia. rewrite firstn_all2 in E by lia.
      cbn [hex_of_bytes] in E'.
      assert (Hn : forall s, s +:+ EmptyString = s)
        by (induction s as [|c s IHs]; push_append; [reflexivity | rewrite IHs; reflexivity]).
      rewrite Hn, firstn_all2 in E' by lia. congruence.
Qed.

Lemma signatures_short (key mime : string) :
  In (key, mime) signatures -> (String.length key <= 32)%nat.
Proof.
  intros H. repeat (destruct H as [[= <- <-]|H]; [cbn; lia|]). destruct H.
Qed.

(** What the sniffer returns is decided by the bytes alone: a type of
    the table exactly when the bytes of its key start the buffer, and one
    of the two RIFF types exactly when no key does, the buffer starts
    with RIFF, has 12 bytes or more, and bytes 8 to 12 spell WAVE or AVI
    and a space. *)
Theorem sniffed_type_characterised (buffer : Buffer) (mime : string) :
  getMimeTypeFromBuffer buffer = Return mime <->
  (exists key, In (key, mime) signatures /\ signature_prefixes key buffer)
  \/ ((forall key mime', In (key, mime') signatures ->
                         ~ signature_prefixes key buffer)
      /\ riff_container buffer
      /\ ((subarray buffer 8 12 = WAVE /\ mime = "audio/wav"%string)
          \/ (subarray buffer 8 12 = AVI_ /\ mime = "video/avi"%string))).
Proof.
  unfold getMimeTypeFromBuffer.
  rewrite signature_window, hex_is_lower_case.
  destruct (first_signature (hex_of_bytes (firstn 16 buffer)) signatures)
    as [m|] eqn:E.
  - apply first_signature_some in E as (key & Hin & Hs).
    rewrite (signatures_lower_case _ _ Hin) in Hs.
    rewrite (startsWith_window_iff _ _ (signatures_short _ _ Hin)) in Hs.
    apply (signature_prefixes_spec _ _ _ Hin) in Hs. split.
    + intros [= <-]. left. exists key. split; assumption.
    + intros [(key' & Hin' & Hs') | (Hnone & _)].
      * f_equal.
        apply (signatures_same_mime (hex_of_bytes buffer) key m key' mime Hin Hin');
          [rewrite (signatures_lower_case _ _ Hin)
          | rewrite (signatures_lower_case _ _ Hin')];
          eapply signature_prefixes_spec; eassumption.
      * exfalso. exact (Hnone key m Hin Hs).
  - assert (Hnone : forall key mime', In (key, mime') signatures ->
                                      ~ signature_prefixes key buffer).
    { intros key mime' Hin Hs.
      apply (signature_prefixes_spec _ _ _ Hin) in Hs.
      rewrite <- (startsWith_window_iff _ _ (signatures_short _ _ Hin)) in Hs.
      rewrite (first_signature_unique _ signatures key mime') in E;
        [discriminate | | exact Hin |].
      - intros k1 m1 k2 m2. apply signatures_same_mime.
      - rewrite (signatures_lower_case _ _ Hin). exact Hs. }
    unfold toStringHex.
    replace (Z.max 8 0) with 8 by lia. replace (Z.max 12 0) with 12 by lia.
    change "57415645"%string with (hex_of_bytes WAVE).
    change "41564920"%string with (hex_of_bytes AVI_).
    split.
    + intros H. right. split; [exact Hnone|].
      destruct (startsWith _ "52494646") eqn:E1; [|discriminate].
      destruct (Z.gtb_spec (buf_length buffer) 11) as [E2|E2]; [|discriminate].
      cbn [andb] in H.
      split; [split; [apply riff_window; exact E1 | lia]|].
      destruct (String.eqb _ (hex_of_bytes WAVE)) eqn:Ew.
      { apply hex_string_eqb in Ew. injection H as <-. left. split; [exact Ew | reflexivity]. }
      destruct (String.eqb _ (hex_of_bytes AVI_)) eqn:Ea; [|discriminate].
      apply hex_string_eqb in Ea. injection H as <-. right. split; [exact Ea | reflexivity].
    + intros [(key & Hin & Hs) | (_ & [Hriff Hlen] & Hkind)].
      * exfalso. exact (Hnone key mime Hin Hs).
      * assert (E1 : startsWith (hex_of_bytes (firstn 16 buffer)) "52494646" = true).
        { change "52494646"%string with (hex_of_bytes RIFF).
          apply hex_prefix_bytes. apply bytes_prefix_spec.
          exists (skipn 4 (firstn 16 buffer)).
          rewrite <- Hriff. rewrite <- (firstn_skipn 4 (firstn 16 buffer)) at 1.
          f_equal. rewrite firstn_firstn. reflexivity. }
        rewrite E1.
        destruct (Z.gtb_spec (buf_length buffer) 11) as [E2|E2]; [|lia].
        cbn [andb].
        destruct Hkind as [[Hw ->] | [Ha ->]].
        -- rewrite Hw, String.eqb_refl. reflexivity.
        -- rewrite Ha. reflexivity.
Qed.

Lemma subarray_window (buffer : Buffer) :
  11 < buf_length buffer ->
  subarray (firstn 16 buffer) 8 12 = subarray buffer 8 12.
Proof.
  intros Hlen. unfold buf_length in Hlen.
  rewrite !subarray_inside
    by (unfold buf_length; rewrite ?length_firstn; lia).
  change (Z.to_nat (12 - 8)) with 4%nat. change (Z.to_nat 8) with 8%nat.
  rewrite skipn_firstn_comm. change (16 - 8)%nat with 8%nat.
  rewrite firstn_firstn. reflexivity.
Qed.

(** Only the first 16 bytes of a buffer are looked at: cutting the
    buffer after them, or changing what follows them, does not change the
    type or the failure. *)
Theorem sniffer_reads_first_16_bytes (buffer : Buffer) :
  getMimeTypeFromBuffer (firstn 16 buffer) = getMimeTypeFromBuffer buffer.
Proof.
  unfold getMimeTypeFromBuffer. rewrite !signature_window.
  rewrite firstn_firstn. change (Nat.min 16 16) with 16%nat.
  destruct (first_signature _ signatures); [reflexivity|].
  destruct (startsWith _ "52494646"); [|reflexivity]. cbn [andb].
  assert (Hgt : (buf_length (firstn 16 buffer) >? 11) = (buf_length buffer >? 11)).
  { unfold buf_length. rewrite length_firstn.
    destruct (Z.gtb_spec (Z.of_nat (Nat.min 16 (length buffer))) 11);
      destruct (Z.gtb_spec (Z.of_nat (length buffer)) 11); (reflexivity || lia). }
  rewrite Hgt. destruct (Z.gtb_spec (buf_length buffer) 11) as [Hlen|]; [|reflexivity].
  unfold toStringHex.
  replace (Z.max 8 0) with 8 by lia. replace (Z.max 12 0) with 12 by lia.
  rewrite (subarray_window buffer Hlen). reflexivity.
Qed.

(** No signature is shorter than two bytes: the empty buffer and every
    buffer of one byte make the sniffer throw. *)
Theorem sniffer_needs_two_bytes (buffer : Buffer) :
  buf_length buffer < 2 ->
  getMimeTypeFromBuffer buffer = Throw "Mime type unknown"%string.
Proof.
  intros Hlen. destruct buffer as [|x [|y rest]].
  - reflexivity.
  - destruct x; reflexivity.
  - unfold buf_length in Hlen. cbn [length] in Hlen. lia.
Qed.

Lemma sniffer_needs_two_bytes_witness :
  getMimeTypeFromBuffer [xff] = Throw "Mime type unknown"%string.
Proof. apply sniffer_needs_two_bytes. reflexivity. Defined.

(** ** The promise and the stream *)

(** The header check of parseMultipart comes before everything else: a
    header that does not start with multipart/form-data rejects with
    Invalid content type, whatever the stream is, with no listener
    attached and no event received. *)
Theorem multipart_content_type_rejected_early
  (fuel : nat) (requestStream : Readable) (contentTypeHeader : string) :
  ~ starts_with_literal contentTypeHeader "multipart/form-data" ->
  parseMultipart fuel requestStream contentTypeHeader
  = Some {| outcome := Rejected "Invalid content type";
            listeners := []; delivered := [] |}.
Proof.
  intros Hnot. unfold parseMultipart.
  destruct (startsWith contentTypeHeader "multipart/form-data") eqn:E;
    [|reflexivity].
  exfalso. apply Hnot, startsWith_spec. exact E.
Qed.

Lemma multipart_content_type_rejected_early_witness :
  parseMultipart 0 [EvData field_and_png_body; EvEnd]
    "Multipart/Form-Data; boundary=X"
  = Some {| outcome := Rejected "Invalid content type";
            listeners := []; delivered := [] |}.
Proof.
  apply multipart_content_type_rejected_early.
  intros [rest H]. discriminate.
Defined.

Lemma json_events_data {J : Type} (JSON_parse : string -> Thrown J)
  (chunks : list Buffer) (st : JsonState) :
  fold_left (json_event JSON_parse) (map EvData chunks) st
  = {| text := text st +:+ chunks_text chunks; answer := answer st |}.
Proof.
  revert st. induction chunks as [|chunk chunks IH]; intros st;
    cbn [map fold_left chunks_text].
  - rewrite append_nil_r. destruct st; reflexivity.
  - rewrite IH. cbn [json_event text answer]. rewrite append_assoc. reflexivity.
Qed.

Example split_character_not_rejoined :
  Buffer_from (chunks_text [[x7b; xc3]; [xa9; x7d]])
  = [x7b; xef; xbf; xbd; xef; xbf; xbd; x7d]
  /\ Buffer_from (chunks_text [[x7b; xc3; xa9; x7d]]) = [x7b; xc3; xa9; x7d].
Proof. split; vm_compute; reflexivity. Qed.

(** parseJson on a stream that delivers chunks and ends: the text handed
    to [JSON.parse] is the concatenation, in the order of arrival, of
    the texts of the chunks, each chunk decoded as UTF-8 on its own; the
    promise is resolved with what [JSON.parse] returns and rejected with
    what it throws. *)
Theorem parseJson_chunks_end {J : Type} (JSON_parse : string -> Thrown J)
  (chunks : list Buffer) (header : string) :
  starts_with_literal header "application/json" ->
  parseJson JSON_parse (map EvData chunks ++ [EvEnd]) (Some header)
  = {| outcome := match JSON_parse (chunks_text chunks) with
                  | Return v => Resolved v
                  | Throw message => Rejected message
                  end;
       listeners := subscribed;
       delivered := map EvData chunks ++ [EvEnd] |}.
Proof.
  intros Hprefix. apply startsWith_spec in Hprefix.
  unfold parseJson. rewrite Hprefix. cbn [negb].
  rewrite fold_left_app, json_events_data. reflexivity.
Qed.

Lemma parseJson_chunks_end_witness :
  parseJson (fun s : string => if String.eqb s "{}" then Return 0%nat
                               else Throw "Unexpected token")
    (map EvData [Buffer_from "{"; Buffer_from "}"] ++ [EvEnd])
    (Some "application/json; charset=utf-8"%string)
  = {| outcome := Resolved 0%nat; listeners := subscribed;
       delivered := map EvData [Buffer_from "{"; Buffer_from "}"] ++ [EvEnd] |}.
Proof.
  apply (parseJson_chunks_end
           (fun s : string => if String.eqb s "{}" then Return 0%nat
                              else Throw "Unexpected token")
           [Buffer_from "{"; Buffer_from "}"]).
  exists "; charset=utf-8"%string. reflexivity.
Defined.

Lemma settle_settled {A} (p q : Promise A) : settled p -> settle p q = p.
Proof. destruct p; [intros H; contradiction H; reflexivity | reflexivity..]. Qed.

Lemma json_events_settled {J : Type} (JSON_parse : string -> Thrown J)
  (evs : list StreamEvent) (st : JsonState) :
  settled (answer st) ->
  answer (fold_left (json_event JSON_parse) evs st) = answer st.
Proof.
  revert st. induction evs as [|ev evs IH]; intros st Hst; [reflexivity|].
  cbn [fold_left].
  assert (Hstep : answer (json_event JSON_parse st ev) = answer st).
  { destruct ev; cbn [json_event answer];
      [reflexivity | apply settle_settled; exact Hst
      | apply settle_settled; exact Hst]. }
  rewrite IH; [exact Hstep | rewrite Hstep; exact Hst].
Qed.

(** Once the promise of parseJson is resolved or rejected, no later
    event of the stream changes it: a second end, an error after the
    end, or data after an error leave the outcome as it was. *)
Theorem parseJson_settles_once {J : Type} (JSON_parse : string -> Thrown J)
  (events later : list StreamEvent) (header : option string) :
  settled (outcome (parseJson JSON_parse events header)) ->
  outcome (parseJson JSON_parse (events ++ later) header)
  = outcome (parseJson JSON_parse events header).
Proof.
  unfold parseJson. destruct (negb _); [reflexivity|]. cbn [outcome].
  intros Hsettled. rewrite fold_left_app.
  apply json_events_settled. exact Hsettled.
Qed.

Lemma parseJson_settles_once_witness :
  outcome (parseJson (fun _ : string => Return tt)
             ([EvError "socket hang up"] ++ [EvEnd])
             (Some "application/json"%string))
  = outcome (parseJson (fun _ : string => Return tt)
               [EvError "socket hang up"] (Some "application/json"%string)).
Proof.
  apply parseJson_settles_once. discriminate.
Defined.

(** An error of the stream rejects the promise of parseJson with that
    error, when neither an end nor an error came before it. *)
Theorem parseJson_stream_error {J : Type} (JSON_parse : string -> Thrown J)
  (chunks : list Buffer) (err : string) (later : list StreamEvent)
  (header : string) :
  starts_with_literal header "application/json" ->
  outcome (parseJson JSON_parse (map EvData chunks ++ EvError err :: later)
             (Some header))
  = Rejected err.
Proof.
  intros Hprefix. apply startsWith_spec in Hprefix.
  unfold parseJson. rewrite Hprefix. cbn [negb outcome].
  rewrite fold_left_app, json_events_data. cbn [fold_left json_event text answer].
  rewrite json_events_settled; [reflexivity | discriminate].
Qed.

Lemma parseJson_stream_error_witness :
  outcome (parseJson (fun _ : string => Return tt)
             (map EvData [Buffer_from "{"] ++ EvError "aborted" :: [EvEnd])
             (Some "application/json"%string))
  = Rejected "aborted".
Proof.
  apply parseJson_stream_error. exists EmptyString. reflexivity.
Defined.

Lemma multipart_events_app (fuel : nat) (boundary : string)
  (evs1 evs2 : list StreamEvent) (st : MultipartState) :
  multipart_events fuel boundary st (evs1 ++ evs2)
  = match multipart_events fuel boundary st evs1 with
    | Some st1 => multipart_events fuel boundary st1 evs2
    | None => None
    end.
Proof.
  revert st. induction evs1 as [|ev evs1 IH]; intros st; [reflexivity|].
  cbn [app multipart_events].
  destruct (multipart_event fuel boundary st ev); [apply IH | reflexivity].
Qed.

Lemma multipart_events_settled (fuel : nat) (boundary : string)
  (evs : list StreamEvent) (st st' : MultipartState) :
  settled (returned st) ->
  multipart_events fuel boundary st evs = Some st' ->
  returned st' = returned st.
Proof.
  revert st. induction evs as [|ev evs IH]; intros st Hst; cbn [multipart_events].
  - intros [= <-]. reflexivity.
  - destruct (multipart_event fuel boundary st ev) as [st1|] eqn:E; [|discriminate].
    assert (Hstep : returned st1 = returned st).
    { destruct ev; cbn [multipart_event] in E.
      - injection E as <-. reflexivity.
      - injection E as <-. apply settle_settled. exact Hst.
      - destruct (on_end _ _ _ _); [| |discriminate]; injection E as <-;
          apply settle_settled; exact Hst. }
    intros H. rewrite (IH st1); [exact Hstep | rewrite Hstep; exact Hst | exact H].
Qed.

(** The loop adds own properties to [data] or overwrites them; it
    removes none. *)
Lemma scan_keeps_keys (fuel : nat) (full bb : Buffer) (idx : Z)
  (data : JsObject) :
  match scan fuel full bb idx data with
  | LoopDone d | LoopThrow _ d => dom (own data) ⊆ dom (own d)
  | LoopFuel => True
  end.
Proof.
  revert idx data. induction fuel as [|fuel IH]; intros idx data; [exact I|].
  rewrite scan_unfold. destruct (scan_step full bb idx) as [| |idx' n v|m];
    [reflexivity | apply IH | | reflexivity].
  specialize (IH idx' (obj_set data n v)).
  assert (Hset : dom (own data) ⊆ dom (own (obj_set data n v))).
  { unfold obj_set. destruct (String.eqb n "__proto__").
    - destruct v; reflexivity.
    - cbn [own]. rewrite dom_insert_L. apply union_subseteq_r. }
  destruct (scan fuel full bb idx' (obj_set data n v)); [| |exact I];
    (etransitivity; [exact Hset | exact IH]).
Qed.

Lemma multipart_events_keep_keys (fuel : nat) (boundary : string)
  (evs : list StreamEvent) (st st' : MultipartState) :
  multipart_events fuel boundary st evs = Some st' ->
  dom (own (data st)) ⊆ dom (own (data st')).
Proof.
  revert st. induction evs as [|ev evs IH]; intros st; cbn [multipart_events].
  - intros [= <-]. reflexivity.
  - destruct (multipart_event fuel boundary st ev) as [st1|] eqn:E; [|discriminate].
    intros H. transitivity (dom (own (data st1))); [|exact (IH st1 H)].
    destruct ev; cbn [multipart_event] in E.
    + injection E as <-. reflexivity.
    + injection E as <-. reflexivity.
    + unfold on_end in E.
      pose proof (scan_keeps_keys fuel (concat (buffer st))
                    (Buffer_from ("--" +:+ boundary))
                    (indexOf (concat (buffer st)) (Buffer_from ("--" +:+ boundary)) 0)
                    (data st)) as Hscan.
      destruct (scan _ _ _ _ _); [| |discriminate]; injection E as <-; exact Hscan.
Qed.

(** Only the [end] listener touches [data]. *)
Lemma multipart_events_without_end (fuel : nat) (boundary : string)
  (evs : list StreamEvent) (st st' : MultipartState) :
  ~ In EvEnd evs ->
  multipart_events fuel boundary st evs = Some st' ->
  data st' = data st.
Proof.
  revert st. induction evs as [|ev evs IH]; intros st Hno; cbn [multipart_events].
  - intros [= <-]. reflexivity.
  - destruct ev as [chunk|err|]; cbn [multipart_event].
    + intros H. rewrite (IH _ (fun Hin => Hno (or_intror Hin)) H). reflexivity.
    + intros H. rewrite (IH _ (fun Hin => Hno (or_intror Hin)) H). reflexivity.
    + contradiction Hno. left. reflexivity.
Qed.

(** Once the promise of parseMultipart is resolved or rejected, no later
    event of the stream changes that, as long as the listeners that run
    on those events return: a rejected promise keeps its error and a
    resolved promise stays resolved.  It is resolved with the object
    [data] itself, which is not frozen: the object reads the same after
    events other than [end], and a further [end] runs the loop on it
    again, which adds own properties or overwrites them and removes
    none. *)
Theorem parseMultipart_settles_once (fuel : nat)
  (events later : list StreamEvent) (header : string)
  (call call' : Call JsObject) :
  parseMultipart fuel events header = Some call ->
  settled (outcome call) ->
  parseMultipart fuel (events ++ later) header = Some call' ->
  match outcome call with
  | Pending => False
  | Rejected err => outcome call' = Rejected err
  | Resolved d =>
      exists d', outcome call' = Resolved d'
                 /\ dom (own d) ⊆ dom (own d')
                 /\ (~ In EvEnd later -> d' = d)
  end.
Proof.
  unfold parseMultipart.
  destruct (negb _); [intros [= <-] _ [= <-]; reflexivity|].
  destruct (regex_exec boundary_at header) as [[|c boundary]|];
    try (intros [= <-] _ [= <-]; reflexivity).
  rewrite multipart_events_app.
  destruct (multipart_events fuel _ _ events) as [st1|]; [|discriminate].
  intros [= <-]. cbn [outcome]. intros Hsettled.
  destruct (multipart_events fuel _ st1 later) as [st2|] eqn:E; [|discriminate].
  intros [= <-]. cbn [outcome].
  assert (Hst1 : settled (returned st1)).
  { intros Hp. apply Hsettled. rewrite Hp. reflexivity. }
  rewrite (multipart_events_settled _ _ _ _ _ Hst1 E).
  destruct (returned st1) as [|[]|err]; cbn [resolved_with].
  - apply Hst1. reflexivity.
  - exists (data st2). split; [reflexivity|]. split.
    + exact (multipart_events_keep_keys _ _ _ _ _ E).
    + intros Hno. exact (multipart_events_without_end _ _ _ _ _ Hno E).
  - reflexivity.
Qed.

Lemma parseMultipart_settles_once_witness :
  exists d',
    Resolved (obj_set empty_object "a" (VString "hello")) = Resolved d'
    /\ dom (own (obj_set empty_object "a" (VString "hello"))) ⊆ dom (own d')
    /\ (~ In EvEnd [EvError "socket hang up"] ->
        d' = obj_set empty_object "a" (VString "hello")).
Proof.
  pose (d := obj_set empty_object "a" (VString "hello")).
  pose (events := [EvData (part_bytes "X" (disposition "a") (Buffer_from "hello"));
                   EvData (closing_bytes "X"); EvEnd]).
  pose (call := {| outcome := Resolved d; listeners := subscribed;
                   delivered := events |}).
  pose (call' := {| outcome := Resolved d; listeners := subscribed;
                    delivered := events ++ [EvError "socket hang up"] |}).
  assert (H1 : parseMultipart 2 events "multipart/form-data; boundary=X"
               = Some call) by (vm_compute; reflexivity).
  assert (H2 : parseMultipart 2 (events ++ [EvError "socket hang up"])
                 "multipart/form-data; boundary=X" = Some call')
    by (vm_compute; reflexivity).
  assert (Hs : settled (outcome call)) by discriminate.
  exact (parseMultipart_settles_once 2 events [EvError "socket hang up"]
           "multipart/form-data; boundary=X" call call' H1 Hs H2).
Defined.

(** The object a resolved promise holds does change when the stream
    emits [end] a second time: the first [end] records the field a, the
    chunk that follows completes a part b, and the second [end] writes b
    into the object that was handed to [resolve]. *)
Example second_end_writes_resolved_object :
  let first := part_bytes "X" (disposition "a") (Buffer_from "hello")
               ++ Buffer_from "--X" in
  let second := Buffer_from (CRLF +:+ disposition "b" +:+ CRLF +:+ CRLF
                             +:+ "world" +:+ CRLF +:+ "--X--" +:+ CRLF) in
  option_map outcome
    (parseMultipart 3 [EvData first; EvEnd] "multipart/form-data; boundary=X")
  = Some (Resolved {| own := {["a"%string := VString "hello"]}; proto := None |})
  /\ option_map outcome
       (parseMultipart 3 [EvData first; EvEnd; EvData second; EvEnd]
          "multipart/form-data; boundary=X")
     = Some (Resolved {| own := <["b"%string := VString "world"]>
                                  {["a"%string := VString "hello"]};
                         proto := None |}).
Proof. split; vm_compute; reflexivity. Qed.

(** An error of the stream that comes before its end rejects the promise
    of parseMultipart with that error; the chunks received so far are
    not parsed. *)
Theorem parseMultipart_stream_error (fuel : nat) (chunks : list Buffer)
  (err header boundary : string) :
  starts_with_literal header "multipart/form-data" ->
  regex_exec boundary_at header = Some boundary ->
  parseMultipart fuel (map EvData chunks ++ [EvError err]) header
  = Some {| outcome := Rejected err; listeners := subscribed;
            delivered := map EvData chunks ++ [EvError err] |}.
Proof.
  intros Hprefix Hboundary. apply startsWith_spec in Hprefix.
  unfold parseMultipart. rewrite Hprefix, Hboundary. cbn [negb].
  pose proof (boundary_nonempty _ _ Hboundary) as Hne.
  destruct boundary as [|c boundary]; [contradiction|].
  rewrite multipart_events_data. reflexivity.
Qed.

Lemma parseMultipart_stream_error_witness :
  parseMultipart 0 (map EvData [field_and_png_body] ++ [EvError "aborted"])
    "multipart/form-data; boundary=X"
  = Some {| outcome := Rejected "aborted"; listeners := subscribed;
            delivered := map EvData [field_and_png_body] ++ [EvError "aborted"] |}.
Proof.
  apply (parseMultipart_stream_error 0 [field_and_png_body] "aborted" _ "X").
  - exists "; boundary=X"%string. reflexivity.
  - reflexivity.
Defined.

(** Nothing is parsed before the stream ends: while only chunks have
    arrived the promise of parseMultipart is pending, and the loop has
    not run (no fuel is needed). *)
Theorem parseMultipart_pending_without_end (fuel : nat)
  (chunks : list Buffer) (header boundary : string) :
  starts_with_literal header "multipart/form-data" ->
  regex_exec boundary_at header = Some boundary ->
  parseMultipart fuel (map EvData chunks) header
  = Some {| outcome := Pending; listeners := subscribed;
            delivered := map EvData chunks |}.
Proof.
  intros Hprefix Hboundary. apply startsWith_spec in Hprefix.
  unfold parseMultipart. rewrite Hprefix, Hboundary. cbn [negb].
  pose proof (boundary_nonempty _ _ Hboundary) as Hne.
  destruct boundary as [|c boundary]; [contradiction|].
  rewrite <- (app_nil_r (map EvData chunks)) at 1.
  rewrite multipart_events_data. reflexivity.
Qed.

Lemma parseMultipart_pending_without_end_witness :
  parseMultipart 0 (map EvData [field_and_png_body])
    "multipart/form-data; boundary=X"
  = Some {| outcome := Pending; listeners := subscribed;
            delivered := map EvData [field_and_png_body] |}.
Proof.
  apply (parseMultipart_pending_without_end 0 [field_and_png_body] _ "X").
  - exists "; boundary=X"%string. reflexivity.
  - reflexivity.
Defined.

(** ** A file of unknown type that the loop comes to *)

(** The stream delivers the body in chunks and ends.  When the loop,
    after the assignments for the parts before it, stands at the
    delimiter of a part that has an empty line, a name attribute and the
    filename marker in its header block, and the content of that part
    matches no signature and is not a RIFF container of 12 bytes or more,
    the call rejects with Mime type unknown: the promise carries no
    object, so the entries recorded before the part are not returned. *)
Theorem unknown_file_type_rejects
  (fuel : nat) (chunks : list Buffer) (header boundary : string)
  (entries : list (string * Value)) (idx : Z) (name : string) :
  starts_with_literal header "multipart/form-data" ->
  regex_exec boundary_at header = Some boundary ->
  let full := concat chunks in
  let bb := Buffer_from ("--" +:+ boundary) in
  scan_reaches full bb (indexOf full bb 0) entries idx ->
  idx <> -1 ->
  indexOf full bb (idx + 1) <> -1 ->
  let part := segment_after full bb idx in
  indexOf part divider 0 <> -1 ->
  regex_exec (quoted_at "name") (header_block part) = Some name ->
  contains (header_block part) filename_marker ->
  ~ matches_signature (part_content part) ->
  ~ riff_container (part_content part) ->
  (length entries < fuel)%nat ->
  parseMultipart fuel (map EvData chunks ++ [EvEnd]) header
  = Some {| outcome := Rejected "Mime type unknown";
            listeners := subscribed;
            delivered := map EvData chunks ++ [EvEnd] |}.
Proof.
  intros Hprefix Hboundary full bb Hreach Hidx Hend part
    Hsplit Hname Hfile Hsig Hriff Hfuel.
  apply startsWith_spec in Hprefix.
  rewrite (parseMultipart_chunks_end fuel chunks header boundary Hprefix Hboundary).
  unfold on_end. fold full. fold bb.
  replace fuel with (length entries + S (fuel - length entries - 1))%nat by lia.
  rewrite (scan_reaches_scan _ _ _ _ _ Hreach), scan_unfold.
  assert (Hstep : scan_step full bb idx = Raise mime_unknown).
  { unfold scan_step.
    destruct (Z.eqb_spec idx (-1)); [contradiction|].
    destruct (Z.eqb_spec (indexOf full bb (idx + 1)) (-1)); [contradiction|].
    fold (segment_after full bb idx). fold part.
    rewrite (classify_unknown_file part name); try assumption; [reflexivity|].
    apply unknown_content_throws; assumption. }
  rewrite Hstep. reflexivity.
Qed.

Lemma unknown_file_type_rejects_witness :
  parseMultipart 2 (map EvData [field_and_text_file_body] ++ [EvEnd])
    "multipart/form-data; boundary=X"
  = Some {| outcome := Rejected "Mime type unknown";
            listeners := subscribed;
            delivered := map EvData [field_and_text_file_body] ++ [EvEnd] |}.
Proof.
  apply (unknown_file_type_rejects 2 [field_and_text_file_body] _ "X"
           [("a"%string, VString "hello")] 56 "b").
  - exists "; boundary=X"%string. reflexivity.
  - reflexivity.
  - eapply reaches_assign; [vm_compute; reflexivity | apply reaches_here].
  - discriminate.
  - vm_compute. discriminate.
  - vm_compute. discriminate.
  - vm_compute. reflexivity.
  - apply includes_spec. vm_compute. reflexivity.
  - intros (key & mime & Hin & Hs).
    repeat (destruct Hin as [[= <- <-]|Hin]; [vm_compute in Hs; discriminate|]).
    destruct Hin.
  - intros [H _]. vm_compute in H. discriminate.
  - simpl. lia.
Defined.

(** ** The loop: how many passes, and what it leaves in the object *)

(** Unless it comes to a pass that ends in [continue], the loop is done
    after at most one pass per byte that lies at or after [idx], plus
    one: every pass that reaches the end of the body moves [idx] forward
    by at least one byte. *)
Theorem scan_passes_bounded (full bb : Buffer) (idx : Z) (data : JsObject) :
  bb <> [] -> -1 <= idx ->
  (forall entries idx', scan_reaches full bb idx entries idx' ->
                        scan_step full bb idx' <> Stay) ->
  scan (S (Z.to_nat (buf_length full + 1 - idx))) full bb idx data <> LoopFuel.
Proof.
  intros Hbb.
  assert (Hgen : forall (m : nat) (idx : Z) (data : JsObject),
             -1 <= idx ->
             (Z.to_nat (buf_length full + 1 - idx) <= m)%nat ->
             (forall entries idx', scan_reaches full bb idx entries idx' ->
                                   scan_step full bb idx' <> Stay) ->
             scan (S m) full bb idx data <> LoopFuel).
  { clear idx data. induction m as [|m IH]; intros idx data Hidx Hm Hnostay;
      rewrite scan_unfold;
      destruct (scan_step full bb idx) as [| |idx' name value|message] eqn:E;
      try discriminate;
      try (exfalso; exact (Hnostay [] idx (reaches_here _ _ _) E)).
    - exfalso.
      assert (Hidx0 : 0 <= idx).
      { destruct (Z.eq_dec idx (-1)) as [->|]; [discriminate E | lia]. }
      pose proof (scan_step_progress _ _ _ _ _ _ Hbb Hidx0 E) as Hprog.
      unfold buf_length in *. lia.
    - assert (Hidx0 : 0 <= idx).
      { destruct (Z.eq_dec idx (-1)) as [->|]; [discriminate E | lia]. }
      pose proof (scan_step_progress _ _ _ _ _ _ Hbb Hidx0 E) as Hprog.
      apply IH; [lia | unfold buf_length in *; lia |].
      intros entries idx'' Hreach.
      apply (Hnostay ((name, value) :: entries) idx'').
      econstructor; eassumption. }
  intros Hidx Hnostay. apply Hgen; [exact Hidx | lia | exact Hnostay].
Qed.

Lemma scan_passes_bounded_witness :
  scan (S (Z.to_nat (buf_length field_and_png_body + 1 - 0)))
    field_and_png_body (Buffer_from "--X") 0 empty_object <> LoopFuel.
Proof.
  apply scan_passes_bounded; [discriminate | lia |].
  intros entries idx' Hreach.
  inversion Hreach as [|? ? ? ? ? ? Hstep Hrest]; subst;
    [vm_compute; discriminate|].
  vm_compute in Hstep. injection Hstep as <- <- <-.
  inversion Hrest as [|? ? ? ? ? ? Hstep' Hrest']; subst;
    [vm_compute; discriminate|].
  vm_compute in Hstep'. injection Hstep' as <- <- <-.
  inversion Hrest' as [|? ? ? ? ? ? Hstep'' _]; subst;
    [vm_compute; discriminate|].
  vm_compute in Hstep''. discriminate.
Defined.

Lemma dom_obj_set (data : JsObject) (name : string) (value : Value)
  (key : string) :
  key ∈ dom (own (obj_set data name value)) <->
  key ∈ dom (own data) \/ (key = name /\ name <> "__proto__"%string).
Proof.
  unfold obj_set. destruct (String.eqb_spec name "__proto__") as [->|Hne].
  - destruct value; split; try (intros H; left; exact H);
      intros [H | [_ H]]; (exact H || contradiction H; reflexivity).
  - cbn [own]. rewrite dom_insert_L, elem_of_union, elem_of_singleton.
    split.
    + intros [-> | H]; [right; split; [reflexivity | exact Hne] | left; exact H].
    + intros [H | [-> _]]; [right; exact H | left; reflexivity].
Qed.

Lemma dom_assign_all (data : JsObject) (entries : list (string * Value))
  (key : string) :
  key ∈ dom (own (assign_all data entries)) <->
  key ∈ dom (own data)
  \/ (key <> "__proto__"%string /\ exists value, In (key, value) entries).
Proof.
  revert data. induction entries as [|[n v] entries IH]; intros data.
  - cbn [assign_all fold_left]. split; [intros H; left; exact H|].
    intros [H | (_ & value & [])]. exact H.
  - cbn [assign_all fold_left fst snd].
    fold (assign_all (obj_set data n v) entries).
    rewrite IH, dom_obj_set. split.
    + intros [[H | [-> Hne]] | (Hne & value & Hin)].
      * left. exact H.
      * right. split; [exact Hne | exists v; left; reflexivity].
      * right. split; [exact Hne | exists value; right; exact Hin].
    + intros [H | (Hne & value & [[= <- <-] | Hin])].
      * left. left. exact H.
      * left. right. split; [reflexivity | exact Hne].
      * right. split; [exact Hne | exists value; exact Hin].
Qed.

(** A body in which the delimiter occurs at most once (the empty body, a
    body without the delimiter, one delimiter that is not followed by a
    second one) resolves with the empty object: what follows the last
    delimiter is never examined, so a part that is not closed by another
    delimiter is dropped without an error. *)
Theorem single_delimiter_resolves_empty (fuel : nat) (chunks : list Buffer)
  (header boundary : string) :
  starts_with_literal header "multipart/form-data" ->
  regex_exec boundary_at header = Some boundary ->
  (forall i j : nat,
     bytes_prefix (Buffer_from ("--" +:+ boundary)) (skipn i (concat chunks)) = true ->
     bytes_prefix (Buffer_from ("--" +:+ boundary)) (skipn j (concat chunks)) = true ->
     i = j) ->
  (1 <= fuel)%nat ->
  parseMultipart fuel (map EvData chunks ++ [EvEnd]) header
  = Some {| outcome := Resolved empty_object; listeners := subscribed;
            delivered := map EvData chunks ++ [EvEnd] |}.
Proof.
  intros Hprefix Hboundary Honce Hfuel. apply startsWith_spec in Hprefix.
  rewrite (parseMultipart_chunks_end fuel chunks header boundary Hprefix Hboundary).
  unfold on_end.
  set (full := concat chunks) in *. set (bb := Buffer_from ("--" +:+ boundary)) in *.
  assert (Hbb : bb <> []) by (subst bb; discriminate).
  destruct fuel as [|fuel]; [lia|]. rewrite scan_unfold.
  assert (Hexit : scan_step full bb (indexOf full bb 0) = Exit).
  { unfold scan_step.
    destruct (indexOf_result full bb 0 Hbb ltac:(lia)) as [-> | [Hrange Hpre]];
      [reflexivity|].
    destruct (Z.eqb_spec (indexOf full bb 0) (-1)); [reflexivity|].
    destruct (indexOf_result full bb (indexOf full bb 0 + 1) Hbb ltac:(lia))
      as [-> | [Hrange' Hpre']]; [reflexivity|].
    exfalso. pose proof (Honce _ _ Hpre Hpre'). lia. }
  rewrite Hexit. reflexivity.
Qed.

Lemma single_delimiter_resolves_empty_witness :
  parseMultipart 1
    (map EvData [Buffer_from ("--X" +:+ CRLF +:+ disposition "a" +:+ CRLF
                              +:+ CRLF +:+ "hello")] ++ [EvEnd])
    "multipart/form-data; boundary=X"
  = Some {| outcome := Resolved empty_object; listeners := subscribed;
            delivered :=
              map EvData [Buffer_from ("--X" +:+ CRLF +:+ disposition "a"
                                       +:+ CRLF +:+ CRLF +:+ "hello")]
              ++ [EvEnd] |}.
Proof.
  apply (single_delimiter_resolves_empty 1 _ _ "X").
  - exists "; boundary=X"%string. reflexivity.
  - reflexivity.
  - intros i j Hi Hj.
    assert (Hzero : forall k : nat,
               bytes_prefix (Buffer_from ("--" +:+ "X"))
                 (skipn k (concat [Buffer_from ("--X" +:+ CRLF +:+ disposition "a"
                                                +:+ CRLF +:+ CRLF +:+ "hello")]))
               = true -> k = 0%nat).
    { intros k. do 60 (destruct k as [|k]; [vm_compute; congruence|]).
      vm_compute. destruct k; discriminate. }
    rewrite (Hzero i Hi), (Hzero j Hj). reflexivity.
  - lia.
Defined.

(** ** What the patterns capture *)

(** The match that [regex_exec] returns is the leftmost one. *)
Lemma regex_exec_first (anchored : string -> option string) (s v : string) :
  regex_exec anchored s = Some v ->
  exists before rest,
    s = before +:+ rest /\ anchored rest = Some v
    /\ forall b r, s = b +:+ r ->
                   (String.length b < String.length before)%nat ->
                   anchored r = None.
Proof.
  induction s as [|c s IH]; cbn [regex_exec].
  - destruct (anchored EmptyString) eqn:E; [|discriminate].
    intros [= ->]. exists EmptyString, EmptyString.
    repeat split; [exact E|]. intros b r _ Hlen. cbn in Hlen. lia.
  - destruct (anchored (String c s)) eqn:E.
    + intros [= ->]. exists EmptyString, (String c s).
      repeat split; [exact E|]. intros b r _ Hlen. cbn in Hlen. lia.
    + intros H. destruct (IH H) as (before & rest & -> & Hr & Hfirst).
      exists (String c before), rest. repeat split; [exact Hr|].
      intros [|c' b] r Hs Hlen; push_append.
      * subst r. exact E.
      * injection Hs as -> Hs. apply (Hfirst b r Hs). cbn in Hlen. lia.
Qed.

Example boundary_after_empty_parameter :
  regex_exec boundary_at "multipart/form-data; boundary=;boundary=abc"
  = Some "abc"%string.
Proof. reflexivity. Qed.

(** The boundary that parseMultipart takes from the header is the text
    that follows the first boundary= (in any letter case) that has a
    character other than a semicolon after it, up to the next semicolon
    or the end of the header: it is not empty, holds no semicolon, and
    nothing is trimmed from it.  An occurrence of boundary= that is
    followed by a semicolon or by nothing is passed over. *)
Theorem boundary_capture (header boundary : string) :
  regex_exec boundary_at header = Some boundary ->
  boundary <> EmptyString
  /\ (forall c, In c (list_ascii_of_string boundary) -> c <> ";"%char)
  /\ exists before keyword after,
       header = before +:+ keyword +:+ boundary +:+ after
       /\ toLowerCase keyword = "boundary="%string
       /\ (after = EmptyString \/ exists after', after = String ";" after')
       /\ forall before' keyword' c after',
            header = before' +:+ keyword' +:+ String c after' ->
            toLowerCase keyword' = "boundary="%string ->
            c <> ";"%char ->
            (String.length before <= String.length before')%nat.
Proof.
  intros H. apply regex_exec_first in H as (before & rest & -> & H & Hfirst).
  unfold boundary_at in H.
  destruct (strip_literal eqb_ci "boundary=" rest) as [tail|] eqn:Es;
    [|discriminate].
  apply strip_literal_ci in Es as (keyword & -> & Hk).
  destruct (span (not_char ";") tail) as [v after] eqn:Espan. cbn [fst] in H.
  apply one_or_more_nonempty in H as [-> Hne].
  apply span_spec in Espan as (-> & Hall & Hafter).
  split; [exact Hne|]. split.
  - intros c Hin ->. specialize (Hall _ Hin). discriminate.
  - exists before, keyword, after. repeat split; [exact Hk | |].
    + destruct Hafter as [-> | (c & after' & -> & Hc)]; [left; reflexivity|].
      right. exists after'. unfold not_char in Hc.
      destruct (Ascii.eqb_spec c ";") as [->|]; [reflexivity | discriminate].
    + intros before' keyword' c after' Hs Hk' Hc.
      destruct (Nat.le_gt_cases (String.length before) (String.length before'))
        as [Hle | Hlt]; [exact Hle|].
      exfalso.
      assert (Hmatch : boundary_at (keyword' +:+ String c after') <> None).
      { apply boundary_at_spec. exists keyword', c, after'. auto. }
      apply Hmatch. exact (Hfirst before' _ Hs Hlt).
Qed.

Lemma boundary_capture_witness :
  "abc"%string <> EmptyString
  /\ (forall c, In c (list_ascii_of_string "abc") -> c <> ";"%char)
  /\ exists before keyword after,
       "multipart/form-data; boundary=;Boundary=abc; charset=utf-8"%string
       = before +:+ keyword +:+ "abc" +:+ after
       /\ toLowerCase keyword = "boundary="%string
       /\ (after = EmptyString \/ exists after', after = String ";" after')
       /\ forall before' keyword' c after',
            "multipart/form-data; boundary=;Boundary=abc; charset=utf-8"%string
            = before' +:+ keyword' +:+ String c after' ->
            toLowerCase keyword' = "boundary="%string ->
            c <> ";"%char ->
            (String.length before <= String.length before')%nat.
Proof.
  apply (boundary_capture
           "multipart/form-data; boundary=;Boundary=abc; charset=utf-8" "abc").
  reflexivity.
Defined.

(** ** File entries of the result *)

Lemma white_space_at_app (s rest : string) :
  white_space_at s = true -> white_space_at (s +:+ rest) = true.
Proof.
  unfold white_space_at. rewrite !existsb_exists.
  intros (cp & Hin & Hs). exists cp. split; [exact Hin|].
  apply startsWith_spec in Hs as [tail ->].
  apply startsWith_spec. exists (tail +:+ rest). apply append_assoc.
Qed.

Lemma non_space_run_prefix (s : string) :
  exists rest, s = non_space_run s +:+ rest.
Proof.
  induction s as [|c s [rest IH]]; [exists EmptyString; reflexivity|].
  cbn [non_space_run]. destruct (white_space_at (String c s)).
  - exists (String c s). reflexivity.
  - exists rest. push_append. rewrite <- IH. reflexivity.
Qed.

(** No white-space character starts anywhere in the stretch that the
    class of non-space characters takes. *)
Lemma non_space_run_no_space (s before after : string) :
  non_space_run s = before +:+ after -> white_space_at after = false.
Proof.
  revert before. induction s as [|c s IH]; intros before; cbn [non_space_run].
  - destruct before, after; try discriminate. reflexivity.
  - destruct (white_space_at (String c s)) eqn:E.
    + destruct before, after; try discriminate. reflexivity.
    + destruct before as [|b before]; push_append.
      * intros <-. destruct (white_space_at (String c (non_space_run s))) eqn:E';
          [|reflexivity].
        destruct (non_space_run_prefix s) as [rest Hrest].
        apply (white_space_at_app _ rest) in E'. push_append.
        rewrite <- Hrest in E'. congruence.
      * intros [= _ H]. exact (IH before H).
Qed.

Lemma encoding_capture (info e : string) :
  regex_exec encoding_at info = Some e ->
  e <> EmptyString
  /\ forall before after, e = before +:+ after -> white_space_at after = false.
Proof.
  intros H. apply regex_exec_some in H as (before & rest & _ & H).
  unfold encoding_at in H.
  destruct (strip_literal Ascii.eqb _ rest) as [tail|]; [|discriminate].
  apply one_or_more_nonempty in H as [-> Hne].
  split; [exact Hne|]. intros b a Hba.
  exact (non_space_run_no_space tail b a Hba).
Qed.

Lemma classify_file_sound (part : Buffer) (name : string) (f : FileData) :
  classify part = Entry name (VFile f) -> file_entry_sound f.
Proof.
  unfold classify.
  destruct (indexOf part divider 0 =? -1); [discriminate|].
  destruct (regex_exec (quoted_at "name") _); [|discriminate].
  destruct (includes _ _); [|discriminate].
  destruct (getMimeTypeFromBuffer _) as [mime|] eqn:Emime; [|discriminate].
  intros [= _ <-]. unfold file_entry_sound. cbn [body mimeType encoding].
  split; [exact Emime|].
  destruct (regex_exec encoding_at _) as [e|] eqn:Ee.
  - exact (encoding_capture _ _ Ee).
  - split; [discriminate|].
    intros before after H.
    assert (Hrun : non_space_run "7bit" = "7bit"%string) by (vm_compute; reflexivity).
    rewrite <- Hrun in H. exact (non_space_run_no_space _ _ _ H).
Qed.

Lemma scan_step_assign_classify (full bb : Buffer) (idx idx' : Z)
  (name : string) (value : Value) :
  scan_step full bb idx = Assign idx' name value ->
  classify (segment_after full bb idx) = Entry name value.
Proof.
  unfold scan_step, segment_after.
  destruct (idx =? -1); [discriminate|].
  destruct (indexOf full bb (idx + 1) =? -1); [discriminate|].
  destruct (classify _) as [|n v|m]; try discriminate.
  intros [= _ <- <-]. reflexivity.
Qed.

(** A property of the object that every assignment of the loop keeps
    holds for the object the promise is resolved with. *)
Lemma parseMultipart_invariant (P : JsObject -> Prop) :
  P empty_object ->
  (forall data part name value,
     classify part = Entry name value -> P data -> P (obj_set data name value)) ->
  forall (fuel : nat) (requestStream : Readable) (header : string)
         (call : Call JsObject) (resolved : JsObject),
    parseMultipart fuel requestStream header = Some call ->
    outcome call = Resolved resolved ->
    P resolved.
Proof.
  intros Hempty Hstep.
  assert (Hscan : forall fuel full bb idx data, P data ->
            match scan fuel full bb idx data with
            | LoopDone d | LoopThrow _ d => P d
            | LoopFuel => True
            end).
  { induction fuel as [|fuel IH]; intros full bb idx data Hdata; [exact I|].
    rewrite scan_unfold.
    destruct (scan_step full bb idx) as [| |idx' n v|m] eqn:E;
      [exact Hdata | apply IH; exact Hdata | | exact Hdata].
    apply IH. apply (Hstep _ _ _ _ (scan_step_assign_classify _ _ _ _ _ _ E)).
    exact Hdata. }
  assert (Hevents : forall fuel boundary evs st st',
            P (data st) ->
            multipart_events fuel boundary st evs = Some st' ->
            P (data st')).
  { intros fuel boundary evs. induction evs as [|ev evs IH];
      intros st st' Hdata; cbn [multipart_events].
    - intros [= <-]. exact Hdata.
    - destruct (multipart_event fuel boundary st ev) as [st1|] eqn:E;
        [|discriminate].
      apply IH. destruct ev as [chunk|err|]; cbn [multipart_event] in E.
      + injection E as <-. exact Hdata.
      + injection E as <-. exact Hdata.
      + unfold on_end in E.
        pose proof (Hscan fuel (concat (buffer st))
                      (Buffer_from ("--" +:+ boundary))
                      (indexOf (concat (buffer st))
                         (Buffer_from ("--" +:+ boundary)) 0)
                      (data st) Hdata) as Hs.
        destruct (scan _ _ _ _ _) as [d0|m d0|]; [| |discriminate];
          injection E as <-; exact Hs. }
  intros fuel requestStream header call resolved. unfold parseMultipart.
  destruct (negb _); [intros [= <-]; discriminate|].
  destruct (regex_exec boundary_at header) as [[|c boundary]|];
    try (intros [= <-]; discriminate).
  destruct (multipart_events _ _ _ _) as [st'|] eqn:E; [|discriminate].
  intros [= <-]. cbn [outcome]. intros Hout.
  apply resolved_with_inv in Hout as ->.
  exact (Hevents fuel (String c boundary) requestStream
           {| buffer := []; data := empty_object; returned := Pending |} st'
           Hempty E).
Qed.

Lemma obj_set_files_sound (data : JsObject) (part : Buffer) (name : string)
  (value : Value) :
  classify part = Entry name value ->
  files_sound data -> files_sound (obj_set data name value).
Proof.
  intros Hclass [Hown Hproto]. unfold obj_set.
  destruct (String.eqb name "__proto__").
  - destruct value as [s|f]; [split; assumption|].
    split; [exact Hown|]. cbn [proto]. intros f' [= <-].
    exact (classify_file_sound _ _ _ Hclass).
  - split; [|exact Hproto]. cbn [own]. intros key f.
    destruct (decide (name = key)) as [<-|Hne].
    + rewrite lookup_insert_eq. intros [= ->].
      exact (classify_file_sound _ _ _ Hclass).
    + rewrite lookup_insert_ne by exact Hne. apply Hown.
Qed.

(** Every file entry of a resolved object, and the file entry that an
    assignment to __proto__ made its prototype, carries the type the
    sniffer returns for its own content, and an encoding that is a
    non-empty token in which no white-space character of JavaScript
    occurs. *)
Theorem resolved_files_sound (fuel : nat) (requestStream : Readable)
  (header : string) (call : Call JsObject) (resolved : JsObject) :
  parseMultipart fuel requestStream header = Some call ->
  outcome call = Resolved resolved ->
  files_sound resolved.
Proof.
  apply (parseMultipart_invariant files_sound).
  - split; [|discriminate]. intros key f H. cbn in H.
    rewrite lookup_empty in H. discriminate.
  - intros data part name value. apply obj_set_files_sound.
Qed.

Lemma resolved_files_sound_witness :
  files_sound
    {| own :=
         <["b"%string :=
             VFile {| body := png_signature; fileName := "f.png";
                      encoding := "7bit"; mimeType := "image/png" |}]>
           (<["a"%string := VString "hello"]> ∅);
       proto := None |}.
Proof.
  refine (resolved_files_sound 3 [EvData field_and_png_body; EvEnd]
            "multipart/form-data; boundary=X" _ _ _ _).
  - vm_compute. reflexivity.
  - vm_compute. reflexivity.
Defined.

(** ** A body with one part *)

Lemma bytes_prefix_head_ne (x y : byte) (needle hay : Buffer) :
  x <> y -> bytes_prefix (x :: needle) (y :: hay) = false.
Proof.
  intros Hne. cbn [bytes_prefix].
  destruct (Byte.eqb x y) eqn:E; [|reflexivity].
  apply Byte.byte_dec_bl in E. contradiction.
Qed.

(** No occurrence starts among bytes that differ from the first byte of
    the value. *)
Lemma find_from_skip (x : byte) (needle s t : Buffer) (pos : Z) :
  Forall (fun y => y <> x) s ->
  find_from (x :: needle) (s ++ t) pos
  = find_from (x :: needle) t (pos + Z.of_nat (length s)).
Proof.
  intros Hs. revert pos. induction Hs as [|y s Hy _ IH]; intros pos.
  - cbn [app length]. f_equal. lia.
  - cbn [app find_from].
    rewrite bytes_prefix_head_ne by (intros ->; apply Hy; reflexivity).
    rewrite IH. f_equal. cbn [length]. lia.
Qed.

Lemma find_from_none (needle hay : Buffer) (pos : Z) :
  0 <= pos -> find_from needle hay pos = -1 ->
  forall i : nat, bytes_prefix needle (skipn i hay) = false.
Proof.
  revert pos. induction hay as [|y hay IH]; intros pos Hpos; cbn [find_from].
  - destruct (bytes_prefix needle []) eqn:E; [lia|].
    intros _ i. rewrite skipn_nil. exact E.
  - destruct (bytes_prefix needle (y :: hay)) eqn:E; [lia|].
    intros H [|i]; [exact E|]. cbn [skipn]. apply (IH (pos + 1)); [lia | exact H].
Qed.

(** An occurrence at or after the offset is not missed. *)
Lemma indexOf_finds (b value : Buffer) (offset : Z) (j : nat) :
  value <> [] -> 0 <= offset <= Z.of_nat j ->
  bytes_prefix value (skipn j b) = true ->
  indexOf b value offset <> -1.
Proof.
  intros Hvalue Hoff Hpre Hnone. unfold indexOf in Hnone.
  destruct (Z_le_gt_dec offset (buf_length b)) as [Hin|Hout].
  - rewrite clamp_index_inside in Hnone by lia.
    pose proof (find_from_none value (skipn (Z.to_nat offset) b) offset
                  (proj1 Hoff) Hnone (j - Z.to_nat offset)%nat) as H.
    rewrite skipn_skipn in H.
    replace (j - Z.to_nat offset + Z.to_nat offset)%nat with j in H by lia.
    congruence.
  - unfold buf_length in Hout. rewrite skipn_all2 in Hpre by lia.
    destruct value; [contradiction | discriminate].
Qed.

Lemma subarray_middle (a m z : Buffer) :
  subarray (a ++ m ++ z) (Z.of_nat (length a)) (Z.of_nat (length a + length m))
  = m.
Proof.
  rewrite subarray_inside
    by (unfold buf_length; rewrite ?length_app; lia).
  replace (Z.to_nat (Z.of_nat (length a + length m) - Z.of_nat (length a)))
    with (length m) by lia.
  rewrite Nat2Z.id.
  rewrite drop_app_length. apply take_app_length.
Qed.

(** The two passes over a body that consists of one segment between two
    delimiters: the first pass examines exactly that segment, the second
    finds no further delimiter. *)
Lemma single_segment_passes (bb segment tail : Buffer) :
  bb <> [] ->
  let full := bb ++ segment ++ bb ++ tail in
  let p := Z.of_nat (length bb + length segment) in
  (forall i : nat, bytes_prefix bb (skipn i full) = true ->
                   i = 0%nat \/ i = (length bb + length segment)%nat) ->
  indexOf full bb 0 = 0
  /\ scan_step full bb 0
     = match classify segment with
       | Skipped => Stay
       | Failed message => Raise message
       | Entry name value => Assign p name value
       end
  /\ scan_step full bb p = Exit.
Proof.
  intros Hbb full p Hocc.
  assert (Hat0 : bytes_prefix bb (skipn 0 full) = true).
  { apply bytes_prefix_spec. eexists. reflexivity. }
  assert (Hatp : bytes_prefix bb (skipn (length bb + length segment) full) = true).
  { apply bytes_prefix_spec. exists tail. subst full.
    rewrite app_assoc, skipn_app, skipn_all2 by (rewrite length_app; lia).
    rewrite length_app, Nat.sub_diag. reflexivity. }
  assert (Hlen : buf_length full = p + Z.of_nat (length bb + length tail)).
  { subst full p. unfold buf_length. rewrite !length_app. lia. }
  assert (Hidx0 : indexOf full bb 0 = 0).
  { apply indexOf_here; [lia | exact Hat0]. }
  assert (Hend : indexOf full bb (0 + 1) = p).
  { destruct (indexOf_result full bb (0 + 1) Hbb ltac:(lia)) as [H | [Hrange Hpre]].
    - exfalso. revert H. apply (indexOf_finds _ _ _ (length bb + length segment));
        [exact Hbb | subst p; destruct bb; [contradiction | cbn [length]; lia]
        | exact Hatp].
    - destruct (Hocc _ Hpre) as [H | H]; subst p; lia. }
  assert (Hnext : indexOf full bb (p + 1) = -1).
  { destruct (indexOf_result full bb (p + 1) Hbb ltac:(lia)) as [H | [Hrange Hpre]];
      [exact H|].
    exfalso. destruct (Hocc _ Hpre) as [H | H]; subst p; lia. }
  split; [exact Hidx0|]. split.
  - unfold scan_step. change (0 =? -1) with false. cbv iota.
    rewrite Hend.
    destruct (Z.eqb_spec p (-1)); [subst p; lia|].
    replace (subarray full (0 + buf_length bb) p) with segment.
    + destruct (classify segment); try reflexivity.
      rewrite indexOf_here; [reflexivity | lia |].
      subst p. rewrite Nat2Z.id. exact Hatp.
    + symmetry. subst full p. unfold buf_length. rewrite Z.add_0_l.
      apply (subarray_middle bb segment (bb ++ tail)).
  - unfold scan_step. destruct (Z.eqb_spec p (-1)); [reflexivity|].
    rewrite Hnext. reflexivity.
Qed.

Lemma regex_exec_skip (anchored : string -> option string) (c : ascii)
  (s : string) :
  anchored (String c s) = None ->
  regex_exec anchored (String c s) = regex_exec anchored s.
Proof. intros H. cbn [regex_exec]. rewrite H. reflexivity. Qed.

Lemma regex_exec_hit (anchored : string -> option string) (s v : string) :
  anchored s = Some v -> regex_exec anchored s = Some v.
Proof. intros H. destruct s; cbn [regex_exec]; rewrite H; reflexivity. Qed.

Lemma includes_skip (c : ascii) (s sub : string) :
  startsWith (String c s) sub = false ->
  includes (String c s) sub = includes s sub.
Proof. intros H. cbn [includes]. rewrite H. reflexivity. Qed.

Lemma no_marker_without_equals (s : string) :
  (forall c, In c (list_ascii_of_string s) -> c <> "="%char) ->
  includes (s +:+ String dquote EmptyString) filename_marker = false.
Proof.
  intros Hs. destruct (includes _ _) eqn:E; [|reflexivity]. exfalso.
  apply includes_spec in E as (before & after & E).
  apply (f_equal list_ascii_of_string) in E.
  rewrite !list_ascii_of_string_app in E.
  assert (Hin : In "="%char (list_ascii_of_string s
                              ++ list_ascii_of_string (String dquote EmptyString))).
  { rewrite E. apply in_or_app. right. apply in_or_app. left.
    cbn. do 8 right. left. reflexivity. }
  apply in_app_or in Hin as [Hin | Hin].
  - exact (Hs _ Hin eq_refl).
  - cbn in Hin. destruct Hin as [Hin | []]. discriminate.
Qed.

Lemma byte_of_ascii_CR (c : ascii) : byte_of_ascii c = x0d -> c = CR.
Proof.
  intros H. rewrite <- (ascii_of_byte_of_ascii c), H. reflexivity.
Qed.

Lemma header_bytes_without_CR (name : string) :
  (forall c, In c (list_ascii_of_string name) -> c <> CR) ->
  Forall (fun y => y <> x0d) (Buffer_from (disposition name)).
Proof.
  intros Hname. unfold disposition, quoted.
  change (String dquote (name +:+ String dquote EmptyString))
    with (String dquote EmptyString +:+ name +:+ String dquote EmptyString).
  rewrite !Buffer_from_app. repeat apply Forall_app_2.
  - cbv. repeat (constructor; [discriminate|]). constructor.
  - cbv. repeat (constructor; [discriminate|]). constructor.
  - apply Forall_forall. intros y Hy ->.
    unfold Buffer_from, list_byte_of_string in Hy.
    apply list_elem_of_In, in_map_iff in Hy as (c & Hc & Hin).
    apply byte_of_ascii_CR in Hc. exact (Hname c Hin Hc).
  - cbv. repeat (constructor; [discriminate|]). constructor.
Qed.

Lemma Byte_eqb_ne (x y : byte) : x <> y -> Byte.eqb x y = false.
Proof.
  intros Hne. destruct (Byte.eqb x y) eqn:E; [|reflexivity].
  apply Byte.byte_dec_bl in E. contradiction.
Qed.

Lemma find_from_cons (needle : Buffer) (y : byte) (hay : Buffer) (pos : Z) :
  find_from needle (y :: hay) pos
  = if bytes_prefix needle (y :: hay) then pos
    else find_from needle hay (pos + 1).
Proof. reflexivity. Qed.

(** The empty line is found right after a header block that holds no
    carriage return. *)
Lemma divider_found (block rest : Buffer) :
  block <> [] -> Forall (fun y => y <> x0d) block ->
  indexOf (x0d :: x0a :: block ++ divider ++ rest) divider 0
  = Z.of_nat (2 + length block).
Proof.
  intros Hne Hblock. unfold indexOf.
  rewrite clamp_index_inside by (unfold buf_length; lia).
  change (skipn (Z.to_nat 0) ?l) with l.
  change divider with [x0d; x0a; x0d; x0a].
  destruct block as [|h0 block']; [contradiction|].
  pose proof (Forall_inv Hblock) as Hh0. cbn beta in Hh0.
  assert (H0 : bytes_prefix [x0d; x0a; x0d; x0a]
                 (x0d :: x0a :: (h0 :: block')
                  ++ [x0d; x0a; x0d; x0a] ++ rest) = false).
  { cbn [app bytes_prefix]. rewrite (Byte_eqb_ne x0d h0) by congruence.
    rewrite andb_false_l, !andb_false_r. reflexivity. }
  rewrite find_from_cons, H0.
  rewrite find_from_cons, bytes_prefix_head_ne by discriminate.
  rewrite (find_from_skip x0d [x0a; x0d; x0a] (h0 :: block')) by exact Hblock.
  cbn [app]. rewrite find_from_cons.
  change (bytes_prefix [x0d; x0a; x0d; x0a] (x0d :: x0a :: x0d :: x0a :: rest))
    with true.
  cbv iota. lia.
Qed.

(** The loop body on the segment of a text field written by
    [part_bytes] with the header [disposition name]: the field is
    recorded under [name] with the text of the content. *)
Lemma field_segment_classified (name : string) (content : Buffer) :
  well_formed name ->
  name <> EmptyString ->
  (forall c, In c (list_ascii_of_string name) ->
             c <> dquote /\ c <> CR /\ c <> "="%char) ->
  classify (Buffer_from (CRLF +:+ disposition name +:+ CRLF +:+ CRLF)
            ++ content ++ Buffer_from CRLF)
  = Entry name (VString (toString content)).
Proof.
  intros Hwf Hne Hname.
  assert (Hwf' : well_formed (CRLF +:+ disposition name)).
  { cbv [CRLF disposition quoted]. push_append. well_formed_text. }
  set (block := Buffer_from (disposition name)).
  set (A := Buffer_from (CRLF +:+ disposition name)).
  assert (HA : A = x0d :: x0a :: block).
  { subst A block. rewrite Buffer_from_app. reflexivity. }
  assert (Hseg : Buffer_from (CRLF +:+ disposition name +:+ CRLF +:+ CRLF)
                 ++ content ++ Buffer_from CRLF
                 = x0d :: x0a :: block ++ divider ++ content ++ Buffer_from CRLF).
  { rewrite !Buffer_from_app. fold block. fold divider.
    rewrite <- !app_assoc. reflexivity. }
  rewrite Hseg.
  assert (Hblock : block <> []).
  { subst block. unfold disposition. rewrite Buffer_from_app. discriminate. }
  assert (Hsplit : indexOf (x0d :: x0a :: block ++ divider ++ content ++ Buffer_from CRLF)
                     divider 0 = Z.of_nat (length A)).
  { rewrite HA. apply divider_found; [exact Hblock|].
    apply header_bytes_without_CR. intros c Hin. apply (Hname c Hin). }
  assert (Hinfo : toString (subarray (x0d :: x0a :: block ++ divider ++ content
                                      ++ Buffer_from CRLF) 0 (Z.of_nat (length A)))
                  = CRLF +:+ disposition name).
  { transitivity (toString A); [|exact Hwf'].
    f_equal.
    exact (subarray_middle [] A (divider ++ content ++ Buffer_from CRLF)). }
  assert (Hbody : subarray (x0d :: x0a :: block ++ divider ++ content
                            ++ Buffer_from CRLF)
                    (Z.of_nat (length A) + 4)
                    (buf_length (x0d :: x0a :: block ++ divider ++ content
                                 ++ Buffer_from CRLF) - 2)
                  = content).
  { change (x0d :: x0a :: block ++ divider ++ content ++ Buffer_from CRLF)
      with (A ++ divider ++ content ++ Buffer_from CRLF).
    rewrite (app_assoc A divider).
    replace (Z.of_nat (length A) + 4) with (Z.of_nat (length (A ++ divider)))
      by (rewrite length_app; change (length divider) with 4%nat; lia).
    replace (buf_length ((A ++ divider) ++ content ++ Buffer_from CRLF) - 2)
      with (Z.of_nat (length (A ++ divider) + length content))
      by (unfold buf_length; rewrite !length_app;
          change (length (Buffer_from CRLF)) with 2%nat; lia).
    apply subarray_middle. }
  assert (Hcapture : regex_exec (quoted_at "name") (CRLF +:+ disposition name)
                     = Some name).
  { cbv [CRLF disposition quoted CR LF String.append].
    repeat (rewrite regex_exec_skip by reflexivity).
    apply regex_exec_hit.
    exact (quoted_at_hit "name" name EmptyString Hne
             (fun c Hin => proj1 (Hname c Hin))). }
  assert (Hfield : includes (CRLF +:+ disposition name) filename_marker = false).
  { cbv [CRLF disposition quoted CR LF String.append].
    repeat (rewrite includes_skip by reflexivity).
    exact (no_marker_without_equals name
             (fun c Hin => proj2 (proj2 (Hname c Hin)))). }
  unfold classify. rewrite Hsplit.
  destruct (Z.eqb_spec (Z.of_nat (length A)) (-1)); [lia|].
  rewrite Hinfo, Hcapture, Hfield, Hbody. reflexivity.
Qed.

Lemma part_bytes_framed (boundary headers : string) (content : Buffer) :
  part_bytes boundary headers content ++ closing_bytes boundary
  = Buffer_from ("--" +:+ boundary)
    ++ (Buffer_from (CRLF +:+ headers +:+ CRLF +:+ CRLF)
        ++ content ++ Buffer_from CRLF)
    ++ Buffer_from ("--" +:+ boundary) ++ Buffer_from ("--" +:+ CRLF).
Proof.
  unfold part_bytes, closing_bytes.
  rewrite <- !append_assoc, !Buffer_from_app, <- !app_assoc. reflexivity.
Qed.

Lemma part_bytes_length (boundary headers : string) (content : Buffer) :
  length (part_bytes boundary headers content)
  = (length (Buffer_from ("--" +:+ boundary))
     + length (Buffer_from (CRLF +:+ headers +:+ CRLF +:+ CRLF)
               ++ content ++ Buffer_from CRLF))%nat.
Proof.
  unfold part_bytes.
  rewrite <- !append_assoc, !Buffer_from_app, !length_app. lia.
Qed.

Lemma obj_set_empty (name : string) (value : Value) :
  name <> "__proto__"%string ->
  obj_set empty_object name value
  = {| own := {[name := value]}; proto := None |}.
Proof.
  intros Hname. unfold obj_set, empty_object.
  destruct (String.eqb_spec name "__proto__"); [contradiction|].
  cbn [own proto]. rewrite insert_empty. reflexivity.
Qed.

(** A body with one text field, as a client writes it, comes back as
    that field: the call resolves with an object that has one own
    property, the name, bound to the content decoded as UTF-8 (with
    U+FFFD where the bytes are not UTF-8).  The name is a well-formed
    text other than __proto__, it is not empty and holds no quote,
    carriage return or equals sign, and the delimiter occurs in the body
    only where the client wrote it. *)
Theorem single_field_round_trip (fuel : nat) (chunks : list Buffer)
  (header boundary name : string) (content : Buffer) :
  starts_with_literal header "multipart/form-data" ->
  regex_exec boundary_at header = Some boundary ->
  concat chunks
  = part_bytes boundary (disposition name) content ++ closing_bytes boundary ->
  well_formed name ->
  name <> EmptyString ->
  name <> "__proto__"%string ->
  (forall c, In c (list_ascii_of_string name) ->
             c <> dquote /\ c <> CR /\ c <> "="%char) ->
  (forall i : nat,
     bytes_prefix (Buffer_from ("--" +:+ boundary)) (skipn i (concat chunks)) = true ->
     i = 0%nat \/ i = length (part_bytes boundary (disposition name) content)) ->
  (2 <= fuel)%nat ->
  parseMultipart fuel (map EvData chunks ++ [EvEnd]) header
  = Some {| outcome :=
              Resolved {| own := {[name := VString (toString content)]};
                          proto := None |};
            listeners := subscribed;
            delivered := map EvData chunks ++ [EvEnd] |}.
Proof.
  intros Hprefix Hboundary Hbody Hwf Hne Hproto Hname Hocc Hfuel.
  apply startsWith_spec in Hprefix.
  rewrite (parseMultipart_chunks_end fuel chunks header boundary Hprefix Hboundary).
  unfold on_end. rewrite Hbody in *. clear Hbody.
  rewrite part_bytes_length in Hocc. rewrite part_bytes_framed in *.
  set (bb := Buffer_from ("--" +:+ boundary)) in *.
  set (segment := Buffer_from (CRLF +:+ disposition name +:+ CRLF +:+ CRLF)
                  ++ content ++ Buffer_from CRLF) in *.
  assert (Hbb : bb <> []) by (subst bb; discriminate).
  destruct (single_segment_passes bb segment (Buffer_from ("--" +:+ CRLF))
              Hbb Hocc) as (Hidx0 & Hpass1 & Hpass2).
  subst segment. rewrite field_segment_classified in Hpass1 by assumption.
  rewrite Hidx0.
  assert (Hscan : scan 2 (bb ++ (Buffer_from (CRLF +:+ disposition name
                                              +:+ CRLF +:+ CRLF)
                                 ++ content ++ Buffer_from CRLF)
                          ++ bb ++ Buffer_from ("--" +:+ CRLF)) bb 0 empty_object
                  = LoopDone {| own := {[name := VString (toString content)]};
                                proto := None |}).
  { rewrite scan_unfold, Hpass1. cbv iota.
    rewrite scan_unfold, Hpass2, obj_set_empty by exact Hproto. reflexivity. }
  rewrite (scan_fuel_mono 2 fuel) by (try exact Hfuel; rewrite Hscan; discriminate).
  rewrite Hscan. reflexivity.
Qed.

Lemma single_field_round_trip_witness :
  parseMultipart 2
    (map EvData [part_bytes "X" (disposition "a") [x68; xc3; xa9; xff];
                 closing_bytes "X"] ++ [EvEnd])
    "multipart/form-data; boundary=X"
  = Some {| outcome :=
              Resolved {| own := {["a"%string :=
                                     VString (toString [x68; xc3; xa9; xff])]};
                          proto := None |};
            listeners := subscribed;
            delivered :=
              map EvData [part_bytes "X" (disposition "a") [x68; xc3; xa9; xff];
                          closing_bytes "X"] ++ [EvEnd] |}.
Proof.
  apply (single_field_round_trip 2 _ _ "X" "a" [x68; xc3; xa9; xff]).
  - exists "; boundary=X"%string. reflexivity.
  - reflexivity.
  - cbn [concat]. rewrite app_nil_r. reflexivity.
  - reflexivity.
  - discriminate.
  - discriminate.
  - intros c [<- | []]. repeat split; discriminate.
  - intros i.
    do 70 (destruct i as [|i];
           [vm_compute; intros H;
            first [left; reflexivity | right; reflexivity | discriminate H]|]).
    vm_compute. destruct i; discriminate.
  - lia.
Defined.

(** How the body is cut into chunks has no influence on what
    parseMultipart does with it: two streams that deliver the same bytes
    and end give the same outcome. *)
Theorem multipart_chunking_irrelevant (fuel : nat)
  (chunks chunks' : list Buffer) (header : string) :
  concat chunks = concat chunks' ->
  option_map outcome (parseMultipart fuel (map EvData chunks ++ [EvEnd]) header)
  = option_map outcome (parseMultipart fuel (map EvData chunks' ++ [EvEnd]) header).
Proof.
  intros Hsame. unfold parseMultipart.
  destruct (negb _); [reflexivity|].
  destruct (regex_exec boundary_at header) as [[|c boundary]|]; try reflexivity.
  rewrite !multipart_events_data.
  cbn [multipart_events multipart_event buffer data returned app].
  unfold on_end. rewrite Hsame.
  destruct (scan fuel _ _ _ _); reflexivity.
Qed.

Lemma multipart_chunking_irrelevant_witness :
  option_map outcome
    (parseMultipart 3
       (map EvData [firstn 10 field_and_png_body; skipn 10 field_and_png_body]
        ++ [EvEnd])
       "multipart/form-data; boundary=X")
  = option_map outcome
      (parseMultipart 3 (map EvData [field_and_png_body] ++ [EvEnd])
         "multipart/form-data; boundary=X").
Proof.
  apply multipart_chunking_irrelevant. reflexivity.
Defined.

(** A part whose header block holds a filename attribute with a
    non-empty value is never skipped for want of a name attribute: the
    pattern for the name finds name= and the quoted value inside the
    filename attribute itself. *)
Theorem file_part_never_skipped (part : Buffer) (filename : string) :
  indexOf part divider 0 <> -1 ->
  filename <> EmptyString ->
  (forall c, In c (list_ascii_of_string filename) -> c <> dquote) ->
  contains (header_block part) ("filename=" +:+ quoted filename) ->
  classify part <> Skipped.
Proof.
  intros Hsplit Hne Hq (before & after & Hinfo).
  assert (Hname : regex_exec (quoted_at "name") (header_block part) <> None).
  { apply regex_exec_spec.
    exists (before +:+ "file"),
      (("name" +:+ String "=" (String dquote EmptyString))
       +:+ filename +:+ String dquote after).
    split.
    - rewrite Hinfo. unfold quoted.
      repeat (rewrite append_assoc || rewrite append_cons
              || rewrite append_nil_l).
      reflexivity.
    - rewrite quoted_at_hit by assumption. discriminate. }
  unfold classify. fold (header_block part). fold (part_content part).
  destruct (Z.eqb_spec (indexOf part divider 0) (-1)); [contradiction|].
  destruct (regex_exec (quoted_at "name") (header_block part));
    [|contradiction Hname; reflexivity].
  destruct (includes _ _); [|discriminate].
  destruct (getMimeTypeFromBuffer _); discriminate.
Qed.

Lemma file_part_never_skipped_witness :
  classify (Buffer_from (CRLF +:+ "Content-Disposition: form-data; filename="
                         +:+ quoted "f.png" +:+ CRLF +:+ CRLF)
            ++ png_signature ++ Buffer_from CRLF)
  <> Skipped.
Proof.
  apply (file_part_never_skipped _ "f.png").
  - vm_compute. discriminate.
  - discriminate.
  - intros c Hin. cbn in Hin.
    repeat (destruct Hin as [<- | Hin]; [discriminate|]). destruct Hin.
  - apply includes_spec. vm_compute. reflexivity.
Defined.

(** ** A body with one file *)

Ltac norm_append :=
  repeat (rewrite append_assoc || rewrite append_cons || rewrite append_nil_l).

(** A literal that holds the character [x] after a stretch [l1] cannot
    be matched where the text goes on with characters other than [x]
    and then with a character [d] that is neither [x] nor in [l1]. *)
Lemma strip_literal_blocked (l1 : string) (x : ascii) (l2 s : string)
  (d : ascii) (rest : string) :
  ~ In x (list_ascii_of_string s) -> x <> d ->
  ~ In d (list_ascii_of_string l1) ->
  strip_literal Ascii.eqb (l1 +:+ String x l2) (s +:+ String d rest) = None.
Proof.
  revert l1. induction s as [|a s IH]; intros l1 Hs Hxd Hd; push_append.
  - destruct l1 as [|c l1]; push_append; cbn [strip_literal].
    + destruct (Ascii.eqb_spec x d); [contradiction | reflexivity].
    + destruct (Ascii.eqb_spec c d) as [->|]; [|reflexivity].
      exfalso. apply Hd. left. reflexivity.
  - destruct l1 as [|c l1]; push_append; cbn [strip_literal].
    + destruct (Ascii.eqb_spec x a) as [->|]; [|reflexivity].
      exfalso. apply Hs. left. reflexivity.
    + destruct (Ascii.eqb c a); [|reflexivity].
      apply IH; [| exact Hxd |].
      * intros Hin. apply Hs. right. exact Hin.
      * intros Hin. apply Hd. right. exact Hin.
Qed.

(** The search goes through a stretch of text in which the pattern
    matches nowhere. *)
Lemma regex_exec_through (anchored : string -> option string) (s t : string) :
  (forall s1 c s2, s = s1 +:+ String c s2 ->
                   anchored (String c s2 +:+ t) = None) ->
  regex_exec anchored (s +:+ t) = regex_exec anchored t.
Proof.
  induction s as [|a s IH]; intros Hnone; push_append; [reflexivity|].
  rewrite regex_exec_skip.
  - apply IH. intros s1 c s2 ->. apply (Hnone (String a s1) c s2). reflexivity.
  - exact (Hnone EmptyString a s eq_refl).
Qed.

Lemma suffix_chars (s s1 : string) (c : ascii) (s2 : string) (x : ascii) :
  s = s1 +:+ String c s2 ->
  ~ In x (list_ascii_of_string s) ->
  ~ In x (list_ascii_of_string (String c s2)).
Proof.
  intros -> Hs Hin. apply Hs. rewrite list_ascii_of_string_app.
  apply in_or_app. right. exact Hin.
Qed.

Lemma quoted_filename_through (s rest : string) :
  ~ In "="%char (list_ascii_of_string s) ->
  regex_exec (quoted_at "filename") (s +:+ String dquote rest)
  = regex_exec (quoted_at "filename") (String dquote rest).
Proof.
  intros Hs. apply regex_exec_through. intros s1 c s2 Heq.
  unfold quoted_at.
  rewrite (strip_literal_blocked "filename" "=" (String dquote EmptyString)
             (String c s2) dquote rest); [reflexivity | | discriminate |].
  - exact (suffix_chars _ _ _ _ _ Heq Hs).
  - cbn. intros H. repeat (destruct H as [H | H]; [discriminate H|]). exact H.
Qed.

Lemma encoding_through (s rest : string) :
  ~ In ":"%char (list_ascii_of_string s) ->
  regex_exec encoding_at (s +:+ String dquote rest)
  = regex_exec encoding_at (String dquote rest).
Proof.
  intros Hs. apply regex_exec_through. intros s1 c s2 Heq.
  unfold encoding_at.
  change "Content-Transfer-Encoding: "%string
    with ("Content-Transfer-Encoding" +:+ String ":" " ").
  rewrite (strip_literal_blocked "Content-Transfer-Encoding" ":" " "
             (String c s2) dquote rest); [reflexivity | | discriminate |].
  - exact (suffix_chars _ _ _ _ _ Heq Hs).
  - cbn. intros H. repeat (destruct H as [H | H]; [discriminate H|]). exact H.
Qed.

Lemma bytes_without_CR (s : string) :
  (forall c, In c (list_ascii_of_string s) -> c <> CR) ->
  Forall (fun y => y <> x0d) (Buffer_from s).
Proof.
  intros Hs. apply Forall_forall. intros y Hy ->.
  unfold Buffer_from, list_byte_of_string in Hy.
  apply list_elem_of_In, in_map_iff in Hy as (c & Hc & Hin).
  apply byte_of_ascii_CR in Hc. exact (Hs c Hin Hc).
Qed.

(** The views of a segment written with the header block [headers]: the
    empty line is found after the header block, which comes back with
    the line break that precedes it, and the content comes back without
    the line break that follows it. *)
Lemma written_segment_views (headers : string) (content : Buffer) :
  well_formed headers ->
  headers <> EmptyString ->
  (forall c, In c (list_ascii_of_string headers) -> c <> CR) ->
  let segment := Buffer_from (CRLF +:+ headers +:+ CRLF +:+ CRLF)
                 ++ content ++ Buffer_from CRLF in
  indexOf segment divider 0 <> -1
  /\ header_block segment = CRLF +:+ headers
  /\ part_content segment = content.
Proof.
  intros Hwf Hne Hheaders segment.
  assert (Hwf' : well_formed (CRLF +:+ headers)).
  { cbv [CRLF]. push_append. well_formed_text. }
  set (block := Buffer_from headers).
  set (A := Buffer_from (CRLF +:+ headers)).
  assert (Hseg : segment = x0d :: x0a :: block ++ divider ++ content
                                            ++ Buffer_from CRLF).
  { subst segment. rewrite !Buffer_from_app. fold block. fold divider.
    rewrite <- !app_assoc. reflexivity. }
  assert (Hblock : block <> []).
  { subst block. destruct headers; [contradiction | discriminate]. }
  assert (Hsplit : indexOf segment divider 0 = Z.of_nat (length A)).
  { rewrite Hseg.
    replace (Z.of_nat (length A)) with (Z.of_nat (2 + length block))
      by (subst A block; rewrite Buffer_from_app; reflexivity).
    apply divider_found; [exact Hblock | apply bytes_without_CR; exact Hheaders]. }
  unfold header_block, part_content. rewrite Hsplit. split; [lia|]. split.
  - transitivity (toString A); [|exact Hwf'].
    f_equal. rewrite Hseg.
    exact (subarray_middle [] A (divider ++ content ++ Buffer_from CRLF)).
  - rewrite Hseg.
    change (x0d :: x0a :: block ++ divider ++ content ++ Buffer_from CRLF)
      with (A ++ divider ++ content ++ Buffer_from CRLF).
    rewrite (app_assoc A divider).
    replace (Z.of_nat (length A) + 4) with (Z.of_nat (length (A ++ divider)))
      by (rewrite length_app; change (length divider) with 4%nat; lia).
    replace (buf_length ((A ++ divider) ++ content ++ Buffer_from CRLF) - 2)
      with (Z.of_nat (length (A ++ divider) + length content))
      by (unfold buf_length; rewrite !length_app;
          change (length (Buffer_from CRLF)) with 2%nat; lia).
    apply subarray_middle.
Qed.

Ltac split_or H :=
  match type of H with
  | _ \/ _ => destruct H as [H | H]; split_or H
  | In _ (_ ++ _) => apply in_app_or in H; split_or H
  | In _ (_ :: _) => destruct H as [H | H]; split_or H
  | In _ [] => destruct H
  | False => destruct H
  | _ => idtac
  end.

(** The loop body on the segment of a file written by [part_bytes] with
    the header [file_disposition name filename]: the file is recorded
    under [name] with its content, its file name, the encoding 7bit and
    the type the sniffer finds, or the sniffer's exception ends the
    pass. *)
Lemma file_segment_classified (name filename : string) (content : Buffer) :
  well_formed name -> well_formed filename ->
  name <> EmptyString -> filename <> EmptyString ->
  (forall c,
     In c (list_ascii_of_string name) \/ In c (list_ascii_of_string filename) ->
     c <> dquote /\ c <> CR /\ c <> "="%char /\ c <> ":"%char) ->
  classify (Buffer_from (CRLF +:+ file_disposition name filename
                         +:+ CRLF +:+ CRLF)
            ++ content ++ Buffer_from CRLF)
  = match getMimeTypeFromBuffer content with
    | Return mime =>
        Entry name (VFile {| body := content; fileName := filename;
                             encoding := "7bit"; mimeType := mime |})
    | Throw message => Failed message
    end.
Proof.
  intros Hwfn Hwff Hname Hfilename Hchars.
  assert (Hwf : well_formed (file_disposition name filename)).
  { cbv [file_disposition disposition quoted]. norm_append. well_formed_text. }
  assert (Hn : forall x, (x = dquote \/ x = CR \/ x = "="%char \/ x = ":"%char) ->
                         ~ In x (list_ascii_of_string name)).
  { intros x Hx Hin. destruct (Hchars x (or_introl Hin)) as (H1 & H2 & H3 & H4).
    destruct Hx as [-> | [-> | [-> | ->]]]; contradiction. }
  assert (Hf : forall x, (x = dquote \/ x = CR \/ x = "="%char \/ x = ":"%char) ->
                         ~ In x (list_ascii_of_string filename)).
  { intros x Hx Hin. destruct (Hchars x (or_intror Hin)) as (H1 & H2 & H3 & H4).
    destruct Hx as [-> | [-> | [-> | ->]]]; contradiction. }
  destruct (written_segment_views (file_disposition name filename) content)
    as (Hsplit & Hinfo & Hbody).
  { exact Hwf. }
  { unfold file_disposition, disposition. discriminate. }
  { intros c Hin ->. unfold file_disposition, disposition, quoted in Hin.
    repeat first [ rewrite list_ascii_of_string_app in Hin
                 | progress cbn [list_ascii_of_string] in Hin ].
    rewrite !in_app_iff in Hin. cbn [In] in Hin.
    assert (HnCR := Hn CR ltac:(auto)). assert (HfCR := Hf CR ltac:(auto)).
    let v := eval vm_compute in CR in change CR with v in *.
    let v := eval vm_compute in dquote in change dquote with v in *.
    split_or Hin;
      first [discriminate Hin | exact (HnCR Hin) | exact (HfCR Hin)]. }
  unfold classify.
  fold (header_block (Buffer_from (CRLF +:+ file_disposition name filename
                                   +:+ CRLF +:+ CRLF)
                      ++ content ++ Buffer_from CRLF)).
  fold (part_content (Buffer_from (CRLF +:+ file_disposition name filename
                                   +:+ CRLF +:+ CRLF)
                      ++ content ++ Buffer_from CRLF)).
  destruct (Z.eqb_spec (indexOf (Buffer_from (CRLF +:+ file_disposition name filename
                                              +:+ CRLF +:+ CRLF)
                                 ++ content ++ Buffer_from CRLF) divider 0) (-1));
    [contradiction|].
  rewrite Hinfo, Hbody.
  assert (Hcapture : regex_exec (quoted_at "name")
                       (CRLF +:+ file_disposition name filename) = Some name).
  { unfold file_disposition, disposition, quoted. cbv [CRLF CR LF].
    norm_append.
    repeat (rewrite regex_exec_skip by reflexivity).
    apply regex_exec_hit.
    exact (quoted_at_hit "name" name ("; filename=" +:+ quoted filename)
             Hname (fun c Hin => proj1 (Hchars c (or_introl Hin)))). }
  assert (Hmarker : includes (CRLF +:+ file_disposition name filename)
                      filename_marker = true).
  { apply includes_spec.
    exists (CRLF +:+ disposition name +:+ "; "),
      (filename +:+ String dquote EmptyString).
    unfold file_disposition, disposition, quoted, filename_marker.
    norm_append. reflexivity. }
  assert (Hfile : regex_exec (quoted_at "filename")
                    (CRLF +:+ file_disposition name filename) = Some filename).
  { unfold file_disposition, disposition, quoted. cbv [CRLF CR LF].
    norm_append.
    repeat (rewrite regex_exec_skip by reflexivity).
    rewrite quoted_filename_through by exact (Hn "="%char ltac:(auto)).
    repeat (rewrite regex_exec_skip by reflexivity).
    apply regex_exec_hit.
    exact (quoted_at_hit "filename" filename EmptyString
             Hfilename (fun c Hin => proj1 (Hchars c (or_intror Hin)))). }
  assert (Hencoding : regex_exec encoding_at
                        (CRLF +:+ file_disposition name filename) = None).
  { unfold file_disposition, disposition, quoted. cbv [CRLF CR LF].
    norm_append.
    repeat (rewrite regex_exec_skip by reflexivity).
    rewrite encoding_through by exact (Hn ":"%char ltac:(auto)).
    repeat (rewrite regex_exec_skip by reflexivity).
    rewrite encoding_through by exact (Hf ":"%char ltac:(auto)).
    reflexivity. }
  rewrite Hcapture, Hmarker, Hfile, Hencoding. reflexivity.
Qed.

(** A body with one file, as a client writes it, comes back as that
    file: when the sniffer recognises the content, the call resolves with
    an object that has one own property, the name, bound to the file
    entry (the content byte for byte, the file name, the encoding 7bit,
    the type found); when it does not, the call rejects with the
    sniffer's exception.  Name and file name are well-formed texts, not
    empty and without quote, carriage return, equals sign or colon, the
    name is not __proto__, and the delimiter occurs in the body only
    where the client wrote it. *)
Theorem single_file_round_trip (fuel : nat) (chunks : list Buffer)
  (header boundary name filename : string) (content : Buffer) :
  starts_with_literal header "multipart/form-data" ->
  regex_exec boundary_at header = Some boundary ->
  concat chunks
  = part_bytes boundary (file_disposition name filename) content
    ++ closing_bytes boundary ->
  well_formed name -> well_formed filename ->
  name <> EmptyString -> filename <> EmptyString ->
  name <> "__proto__"%string ->
  (forall c,
     In c (list_ascii_of_string name) \/ In c (list_ascii_of_string filename) ->
     c <> dquote /\ c <> CR /\ c <> "="%char /\ c <> ":"%char) ->
  (forall i : nat,
     bytes_prefix (Buffer_from ("--" +:+ boundary)) (skipn i (concat chunks)) = true ->
     i = 0%nat
     \/ i = length (part_bytes boundary (file_disposition name filename) content)) ->
  (2 <= fuel)%nat ->
  parseMultipart fuel (map EvData chunks ++ [EvEnd]) header
  = Some {| outcome :=
              match getMimeTypeFromBuffer content with
              | Return mime =>
                  Resolved
                    {| own :=
                         {[name := VFile {| body := content; fileName := filename;
                                            encoding := "7bit";
                                            mimeType := mime |}]};
                       proto := None |}
              | Throw message => Rejected message
              end;
            listeners := subscribed;
            delivered := map EvData chunks ++ [EvEnd] |}.
Proof.
  intros Hprefix Hboundary Hbody Hwfn Hwff Hname Hfilename Hproto Hchars Hocc Hfuel.
  apply startsWith_spec in Hprefix.
  rewrite (parseMultipart_chunks_end fuel chunks header boundary Hprefix Hboundary).
  unfold on_end. rewrite Hbody in *. clear Hbody.
  rewrite part_bytes_length in Hocc. rewrite part_bytes_framed in *.
  set (bb := Buffer_from ("--" +:+ boundary)) in *.
  assert (Hbb : bb <> []) by (subst bb; discriminate).
  destruct (single_segment_passes bb
              (Buffer_from (CRLF +:+ file_disposition name filename
                            +:+ CRLF +:+ CRLF)
               ++ content ++ Buffer_from CRLF)
              (Buffer_from ("--" +:+ CRLF)) Hbb Hocc)
    as (Hidx0 & Hpass1 & Hpass2).
  rewrite file_segment_classified in Hpass1 by assumption.
  rewrite Hidx0.
  destruct fuel as [|[|fuel]]; [lia | lia |].
  rewrite scan_unfold, Hpass1.
  destruct (getMimeTypeFromBuffer content) as [mime|message]; [|reflexivity].
  cbv iota. rewrite scan_unfold, Hpass2, obj_set_empty by exact Hproto.
  reflexivity.
Qed.

Lemma single_file_round_trip_witness :
  parseMultipart 2
    (map EvData [part_bytes "X" (file_disposition "b" "f.png") png_signature;
                 closing_bytes "X"] ++ [EvEnd])
    "multipart/form-data; boundary=X"
  = Some {| outcome :=
              match getMimeTypeFromBuffer png_signature with
              | Return mime =>
                  Resolved
                    {| own :=
                         {["b"%string :=
                             VFile {| body := png_signature; fileName := "f.png";
                                      encoding := "7bit"; mimeType := mime |}]};
                       proto := None |}
              | Throw message => Rejected message
              end;
            listeners := subscribed;
            delivered :=
              map EvData [part_bytes "X" (file_disposition "b" "f.png")
                            png_signature;
                          closing_bytes "X"] ++ [EvEnd] |}.
Proof.
  apply (single_file_round_trip 2 _ _ "X" "b" "f.png" png_signature).
  - exists "; boundary=X"%string. reflexivity.
  - reflexivity.
  - cbn [concat]. rewrite app_nil_r. reflexivity.
  - reflexivity.
  - reflexivity.
  - discriminate.
  - discriminate.
  - discriminate.
  - intros c Hin. cbn in Hin. split_or Hin; subst c; repeat split; discriminate.
  - intros i.
    do 90 (destruct i as [|i];
           [vm_compute; intros H;
            first [left; reflexivity | right; reflexivity | discriminate H]|]).
    vm_compute. destruct i; discriminate.
  - lia.
Defined.

(** ** The two bytes before the next delimiter *)

Lemma bytes_prefix_fits (needle hay : Buffer) :
  bytes_prefix needle hay = true -> (length needle <= length hay)%nat.
Proof.
  intros H. apply bytes_prefix_spec in H as [rest ->].
  rewrite length_app. lia.
Qed.

Lemma bytes_prefix_app (needle hay t : Buffer) :
  (length needle <= length hay)%nat ->
  bytes_prefix needle (hay ++ t) = bytes_prefix needle hay.
Proof.
  revert hay. induction needle as [|x needle IH]; intros hay Hlen; [reflexivity|].
  destruct hay as [|y hay]; [cbn [length] in Hlen; lia|].
  cbn [app bytes_prefix]. rewrite IH by (cbn [length] in Hlen; lia). reflexivity.
Qed.

(** An occurrence found in a buffer is found at the same place when
    bytes are added at the end. *)
Lemma find_from_app_found (needle hay t : Buffer) (pos : Z) :
  0 <= pos -> find_from needle hay pos <> -1 ->
  find_from needle (hay ++ t) pos = find_from needle hay pos.
Proof.
  revert pos. induction hay as [|y hay IH]; intros pos Hpos Hfound.
  - cbn [find_from] in Hfound. destruct (bytes_prefix needle []) eqn:E;
      [|contradiction Hfound; reflexivity].
    destruct needle; [|discriminate]. destruct t; reflexivity.
  - cbn [app]. rewrite !find_from_cons in *.
    destruct (bytes_prefix needle (y :: hay)) eqn:E.
    + change (y :: hay ++ t) with ((y :: hay) ++ t).
      rewrite bytes_prefix_app by (apply bytes_prefix_fits; exact E).
      rewrite E. reflexivity.
    + destruct (find_from_result needle hay (pos + 1) ltac:(lia))
        as [H | [_ Hpre]]; [contradiction|].
      apply bytes_prefix_fits in Hpre. rewrite length_skipn in Hpre.
      change (y :: hay ++ t) with ((y :: hay) ++ t).
      rewrite bytes_prefix_app by (cbn [length]; lia).
      rewrite E. apply IH; [lia | exact Hfound].
Qed.

Lemma indexOf_app_found (b t value : Buffer) :
  indexOf b value 0 <> -1 ->
  indexOf (b ++ t) value 0 = indexOf b value 0.
Proof.
  unfold indexOf. rewrite !clamp_index_inside by (unfold buf_length; lia).
  change (skipn (Z.to_nat 0) ?l) with l.
  apply find_from_app_found. lia.
Qed.

Lemma subarray_app_inside (b t : Buffer) (s e : Z) :
  0 <= s -> 0 <= e <= buf_length b ->
  subarray (b ++ t) s e = subarray b s e.
Proof.
  intros Hs He. unfold subarray, buf_length in *. rewrite length_app.
  unfold clamp_index.
  destruct (Z.ltb_spec s 0); [lia|]. destruct (Z.ltb_spec e 0); [lia|].
  rewrite !(Z.min_l e) by lia.
  destruct (Z_le_gt_dec s (Z.of_nat (length b))) as [Hin|Hout].
  - rewrite !(Z.min_l s) by lia.
    rewrite skipn_app, firstn_app, length_skipn.
    replace (Z.to_nat s - length b)%nat with 0%nat by lia.
    replace (Z.to_nat (e - s) - (length b - Z.to_nat s))%nat with 0%nat by lia.
    cbn [skipn firstn]. apply app_nil_r.
  - replace (Z.to_nat (e - Z.min s (Z.of_nat (length b + length t)))) with 0%nat by lia.
    replace (Z.to_nat (e - Z.min s (Z.of_nat (length b)))) with 0%nat by lia.
    reflexivity.
Qed.

(** The last two bytes of a segment are cut off without being looked at:
    when the empty line lies before them, the segment is treated in the
    same way whatever these two bytes are. *)
Theorem last_two_bytes_unchecked (segment : Buffer) (a b c d : byte) :
  indexOf segment divider 0 <> -1 ->
  classify (segment ++ [a; b]) = classify (segment ++ [c; d]).
Proof.
  intros Hfound.
  assert (Hview : forall t : Buffer, length t = 2%nat ->
            classify (segment ++ t)
            = let splitIdx := indexOf segment divider 0 in
              let info := toString (subarray segment 0 splitIdx) in
              let body := subarray segment (splitIdx + 4) (buf_length segment) in
              match regex_exec (quoted_at "name") info with
              | None => Skipped
              | Some name =>
                  if includes info filename_marker then
                    match getMimeTypeFromBuffer body with
                    | Throw message => Failed message
                    | Return mimeType =>
                        Entry name
                          (VFile {| body := body;
                                    fileName :=
                                      match regex_exec (quoted_at "filename") info with
                                      | Some f => f
                                      | None => EmptyString
                                      end;
                                    encoding :=
                                      match regex_exec encoding_at info with
                                      | Some e => e
                                      | None => "7bit"%string
                                      end;
                                    mimeType := mimeType |})
                    end
                  else Entry name (VString (toString body))
              end).
  { intros t Ht. unfold classify. rewrite (indexOf_app_found _ _ _ Hfound).
    destruct (Z.eqb_spec (indexOf segment divider 0) (-1)); [contradiction|].
    destruct (indexOf_result segment divider 0 ltac:(discriminate) ltac:(lia))
      as [H | [Hrange Hpre]]; [contradiction|].
    apply bytes_prefix_fits in Hpre. rewrite length_skipn in Hpre.
    change (length divider) with 4%nat in Hpre.
    rewrite (subarray_app_inside segment t 0 _) by lia.
    replace (buf_length (segment ++ t) - 2) with (buf_length segment)
      by (unfold buf_length; rewrite length_app; lia).
    rewrite (subarray_app_inside segment t _ (buf_length segment)) by lia.
    reflexivity. }
  rewrite !Hview by reflexivity. reflexivity.
Qed.

Lemma last_two_bytes_unchecked_witness :
  classify (Buffer_from (CRLF +:+ disposition "a" +:+ CRLF +:+ CRLF +:+ "hel")
            ++ [x6c; x6f])
  = classify (Buffer_from (CRLF +:+ disposition "a" +:+ CRLF +:+ CRLF +:+ "hel")
              ++ [x0d; x0a]).
Proof.
  apply last_two_bytes_unchecked. vm_compute. discriminate.
Defined.

(** ** A body with several parts *)

Lemma find_from_first (needle hay : Buffer) (pos : Z) (j : nat) :
  bytes_prefix needle (skipn j hay) = true ->
  (forall i : nat, (i < j)%nat -> bytes_prefix needle (skipn i hay) = false) ->
  find_from needle hay pos = pos + Z.of_nat j.
Proof.
  revert hay pos. induction j as [|j IH]; intros hay pos Hat Hbefore.
  - change (bytes_prefix needle hay = true) in Hat.
    destruct hay; cbn [find_from]; rewrite Hat; lia.
  - pose proof (Hbefore 0%nat ltac:(lia)) as H0.
    change (bytes_prefix needle hay = false) in H0.
    destruct hay as [|y hay].
    + change (bytes_prefix needle [] = true) in Hat. congruence.
    + rewrite find_from_cons, H0. rewrite (IH hay (pos + 1)).
      * lia.
      * exact Hat.
      * intros i Hi. exact (Hbefore (S i) ltac:(lia)).
Qed.

Lemma indexOf_first (b value : Buffer) (offset : Z) (j : nat) :
  value <> [] -> 0 <= offset <= Z.of_nat j ->
  bytes_prefix value (skipn j b) = true ->
  (forall i : nat, offset <= Z.of_nat i -> (i < j)%nat ->
                   bytes_prefix value (skipn i b) = false) ->
  indexOf b value offset = Z.of_nat j.
Proof.
  intros Hvalue Hoff Hat Hbefore.
  assert (Hj : (j < length b)%nat).
  { apply bytes_prefix_fits in Hat. rewrite length_skipn in Hat.
    destruct value; [contradiction | cbn [length] in Hat; lia]. }
  unfold indexOf. rewrite clamp_index_inside by (unfold buf_length; lia).
  rewrite (find_from_first value _ offset (j - Z.to_nat offset)).
  - lia.
  - rewrite skipn_skipn.
    replace (j - Z.to_nat offset + Z.to_nat offset)%nat with j by lia. exact Hat.
  - intros i Hi. rewrite skipn_skipn. apply Hbefore; lia.
Qed.

Lemma occurrence_in_front (bb w rest : Buffer) (i : nat) :
  (i <= length w)%nat ->
  bytes_prefix bb (skipn i (w ++ bb ++ rest))
  = bytes_prefix bb (skipn i (w ++ bb)).
Proof.
  intros Hi. rewrite app_assoc, skipn_app.
  replace (i - length (w ++ bb))%nat with 0%nat by (rewrite length_app; lia).
  cbn [skipn]. apply bytes_prefix_app.
  rewrite length_skipn, length_app. lia.
Qed.

Lemma leading_segment_pass (bb segment rest : Buffer) :
  bb <> [] ->
  delimiter_only_leads bb (bb ++ segment) ->
  scan_step ((bb ++ segment) ++ bb ++ rest) bb 0
  = match classify segment with
    | Skipped => Stay
    | Failed message => Raise message
    | Entry name value => Assign (Z.of_nat (length (bb ++ segment))) name value
    end.
Proof.
  intros Hbb Hlead.
  set (w := bb ++ segment). set (full := w ++ bb ++ rest).
  assert (Hatp : bytes_prefix bb (skipn (length w) full) = true).
  { subst full. rewrite skipn_app, skipn_all, Nat.sub_diag. cbn [skipn app].
    apply bytes_prefix_spec. eexists. reflexivity. }
  assert (Hw : (0 < length w)%nat).
  { subst w. rewrite length_app. destruct bb; [contradiction | cbn [length]; lia]. }
  assert (Hend : indexOf full bb (0 + 1) = Z.of_nat (length w)).
  { apply indexOf_first; [exact Hbb | lia | exact Hatp |].
    intros i Hi1 Hi2. destruct (bytes_prefix bb (skipn i full)) eqn:E; [|reflexivity].
    subst full. rewrite occurrence_in_front in E by lia.
    pose proof (Hlead i Hi2 E). lia. }
  unfold scan_step. change (0 =? -1) with false. cbv iota. rewrite Hend.
  destruct (Z.eqb_spec (Z.of_nat (length w)) (-1)); [lia|].
  replace (subarray full (0 + buf_length bb) (Z.of_nat (length w))) with segment.
  - destruct (classify segment); try reflexivity.
    rewrite indexOf_here; [reflexivity | | rewrite Nat2Z.id; exact Hatp].
    subst full. unfold buf_length. rewrite !length_app. lia.
  - symmetry. subst full w. unfold buf_length. rewrite Z.add_0_l, <- app_assoc.
    rewrite length_app. apply (subarray_middle bb segment (bb ++ rest)).
Qed.

Lemma find_from_shift (needle hay : Buffer) (pos k : Z) :
  0 <= pos -> 0 <= k ->
  find_from needle hay (pos + k)
  = if find_from needle hay pos =? -1 then -1 else find_from needle hay pos + k.
Proof.
  revert pos. induction hay as [|y hay IH]; intros pos Hpos Hk; cbn [find_from].
  - destruct (bytes_prefix needle []); [|reflexivity].
    destruct (Z.eqb_spec pos (-1)); [lia | reflexivity].
  - destruct (bytes_prefix needle (y :: hay)).
    + destruct (Z.eqb_spec pos (-1)); [lia | reflexivity].
    + replace (pos + k + 1) with (pos + 1 + k) by lia. apply IH; lia.
Qed.

Lemma indexOf_shift (pre rest value : Buffer) (offset : Z) :
  0 <= offset ->
  indexOf (pre ++ rest) value (Z.of_nat (length pre) + offset)
  = shift_index (Z.of_nat (length pre)) (indexOf rest value offset).
Proof.
  intros Hoff. unfold indexOf, shift_index, clamp_index, buf_length.
  rewrite length_app.
  destruct (Z.ltb_spec (Z.of_nat (length pre) + offset) 0); [lia|].
  destruct (Z.ltb_spec offset 0); [lia|].
  replace (Z.min (Z.of_nat (length pre) + offset)
             (Z.of_nat (length pre + length rest)))
    with (Z.min offset (Z.of_nat (length rest)) + Z.of_nat (length pre)) by lia.
  rewrite find_from_shift by lia.
  replace (Z.to_nat (Z.min offset (Z.of_nat (length rest)) + Z.of_nat (length pre)))
    with (length pre + Z.to_nat (Z.min offset (Z.of_nat (length rest))))%nat by lia.
  rewrite skipn_app, skipn_all2 by lia.
  replace (length pre + Z.to_nat (Z.min offset (Z.of_nat (length rest)))
           - length pre)%nat
    with (Z.to_nat (Z.min offset (Z.of_nat (length rest)))) by lia.
  reflexivity.
Qed.

Lemma subarray_shift (pre rest : Buffer) (s e : Z) :
  0 <= s -> 0 <= e ->
  subarray (pre ++ rest) (Z.of_nat (length pre) + s) (Z.of_nat (length pre) + e)
  = subarray rest s e.
Proof.
  intros Hs He. unfold subarray, clamp_index, buf_length. rewrite length_app.
  destruct (Z.ltb_spec (Z.of_nat (length pre) + s) 0); [lia|].
  destruct (Z.ltb_spec (Z.of_nat (length pre) + e) 0); [lia|].
  destruct (Z.ltb_spec s 0); [lia|]. destruct (Z.ltb_spec e 0); [lia|].
  replace (Z.to_nat (Z.min (Z.of_nat (length pre) + s)
                       (Z.of_nat (length pre + length rest))))
    with (length pre + Z.to_nat (Z.min s (Z.of_nat (length rest))))%nat by lia.
  rewrite skipn_app, skipn_all2 by lia.
  replace (length pre + Z.to_nat (Z.min s (Z.of_nat (length rest))) - length pre)%nat
    with (Z.to_nat (Z.min s (Z.of_nat (length rest)))) by lia.
  cbn [app]. f_equal. lia.
Qed.

Lemma indexOf_range (b value : Buffer) (offset : Z) :
  0 <= offset -> indexOf b value offset = -1 \/ 0 <= indexOf b value offset.
Proof.
  intros Hoff. unfold indexOf.
  assert (Hc : 0 <= clamp_index (buf_length b) offset).
  { unfold clamp_index, buf_length. destruct (Z.ltb_spec offset 0); lia. }
  destruct (find_from_result value (skipn (Z.to_nat (clamp_index (buf_length b) offset)) b)
              _ Hc) as [H | [H _]]; [left; exact H | right; lia].
Qed.

(** The loop never looks back: a pass that starts at [idx] reads the
    buffer from [idx] on. *)
Lemma scan_step_shift (pre rest bb : Buffer) (idx : Z) :
  0 <= idx ->
  scan_step (pre ++ rest) bb (Z.of_nat (length pre) + idx)
  = match scan_step rest bb idx with
    | Assign idx' name value =>
        Assign (shift_index (Z.of_nat (length pre)) idx') name value
    | step => step
    end.
Proof.
  intros Hidx. unfold scan_step.
  destruct (Z.eqb_spec (Z.of_nat (length pre) + idx) (-1)); [lia|].
  destruct (Z.eqb_spec idx (-1)); [lia|].
  replace (Z.of_nat (length pre) + idx + 1)
    with (Z.of_nat (length pre) + (idx + 1)) by lia.
  rewrite indexOf_shift by lia.
  destruct (indexOf_range rest bb (idx + 1) ltac:(lia)) as [Hend | Hend].
  - rewrite Hend. reflexivity.
  - assert (Hs : shift_index (Z.of_nat (length pre)) (indexOf rest bb (idx + 1))
                 = Z.of_nat (length pre) + indexOf rest bb (idx + 1)).
    { unfold shift_index. destruct (Z.eqb_spec (indexOf rest bb (idx + 1)) (-1)); lia. }
    rewrite Hs.
    destruct (Z.eqb_spec (indexOf rest bb (idx + 1)) (-1)) as [E|E]; [lia|].
    destruct (Z.eqb_spec (Z.of_nat (length pre) + indexOf rest bb (idx + 1)) (-1));
      [lia|].
    replace (Z.of_nat (length pre) + idx + buf_length bb)
      with (Z.of_nat (length pre) + (idx + buf_length bb)) by lia.
    rewrite subarray_shift by (unfold buf_length; lia).
    destruct (classify _); try reflexivity.
    rewrite indexOf_shift by lia. reflexivity.
Qed.

Lemma scan_shift (fuel : nat) (pre rest bb : Buffer) (idx : Z) (data : JsObject) :
  0 <= idx ->
  scan fuel (pre ++ rest) bb (Z.of_nat (length pre) + idx) data
  = scan fuel rest bb idx data.
Proof.
  revert idx data. induction fuel as [|fuel IH]; intros idx data Hidx; [reflexivity|].
  rewrite !scan_unfold, scan_step_shift by exact Hidx.
  destruct (scan_step rest bb idx) as [| |idx' name value|message] eqn:E;
    try reflexivity; [apply IH; exact Hidx|].
  unfold shift_index. destruct (Z.eqb_spec idx' (-1)) as [->|Hne].
  - destruct fuel; reflexivity.
  - replace (idx' + Z.of_nat (length pre)) with (Z.of_nat (length pre) + idx') by lia.
    apply IH.
    unfold scan_step in E. destruct (idx =? -1); [discriminate|].
    destruct (indexOf rest bb (idx + 1) =? -1) eqn:E1; [discriminate|].
    destruct (classify _); try discriminate. injection E as <- _ _.
    destruct (indexOf_range rest bb (indexOf rest bb (idx + 1))) as [H|H]; try lia.
    destruct (indexOf_range rest bb (idx + 1)); lia.
Qed.

Lemma written_part_framed (boundary : string) (p : WrittenPart) :
  written_part boundary p = Buffer_from ("--" +:+ boundary) ++ part_segment p.
Proof.
  unfold written_part, part_bytes, part_segment.
  rewrite <- !append_assoc, !Buffer_from_app, <- !app_assoc. reflexivity.
Qed.

Lemma written_body_leads (boundary : string) (parts : list WrittenPart) :
  exists tail, written_body boundary parts = Buffer_from ("--" +:+ boundary) ++ tail.
Proof.
  unfold written_body. destruct parts as [|p parts]; cbn [map concat].
  - unfold closing_bytes. rewrite <- append_assoc, Buffer_from_app.
    eexists. reflexivity.
  - rewrite written_part_framed, <- !app_assoc. eexists. reflexivity.
Qed.

Lemma classify_written (p : WrittenPart) :
  well_written p -> classify (part_segment p) = Entry (part_name p) (part_value p).
Proof.
  destruct p as [name content | name filename content]; unfold part_segment;
    cbn [part_headers part_payload part_name part_value well_written].
  - intros (Hwf & Hne & Hchars). apply field_segment_classified; [exact Hwf | exact Hne|].
    intros c Hin. destruct (Hchars c Hin) as (H1 & H2 & H3 & _). auto.
  - intros ((Hwfn & Hnn & Hcn) & (Hwff & Hnf & Hcf) & mime & Hmime).
    rewrite file_segment_classified; try assumption.
    + unfold sniffed. rewrite Hmime. reflexivity.
    + intros c [Hin | Hin]; [exact (Hcn c Hin) | exact (Hcf c Hin)].
Qed.

Lemma closing_pass (boundary : string) :
  delimiter_only_leads (Buffer_from ("--" +:+ boundary)) (closing_bytes boundary) ->
  scan_step (closing_bytes boundary) (Buffer_from ("--" +:+ boundary)) 0 = Exit.
Proof.
  intros Hlead. set (bb := Buffer_from ("--" +:+ boundary)) in *.
  assert (Hbb : bb <> []) by (subst bb; discriminate).
  unfold scan_step. change (0 =? -1) with false. cbv iota.
  destruct (indexOf_result (closing_bytes boundary) bb (0 + 1) Hbb ltac:(lia))
    as [-> | [Hrange Hpre]]; [reflexivity|].
  exfalso.
  pose proof (bytes_prefix_fits _ _ Hpre) as Hfit. rewrite length_skipn in Hfit.
  assert (Hlen : (0 < length bb)%nat) by (destruct bb; [contradiction | cbn; lia]).
  set (r := Z.to_nat (indexOf (closing_bytes boundary) bb (0 + 1))) in *.
  assert (Hr : r = 0%nat).
  { apply Hlead; [lia|].
    rewrite skipn_app. replace (r - length (closing_bytes boundary))%nat with 0%nat by lia.
    cbn [skipn]. rewrite bytes_prefix_app by (rewrite length_skipn; lia). exact Hpre. }
  subst r. lia.
Qed.

Lemma written_parts_scan (boundary : string) (parts : list WrittenPart)
  (data : JsObject) (fuel : nat) :
  Forall well_written parts ->
  (forall w, In w (map (written_part boundary) parts ++ [closing_bytes boundary]) ->
             delimiter_only_leads (Buffer_from ("--" +:+ boundary)) w) ->
  (length parts < fuel)%nat ->
  scan fuel (written_body boundary parts) (Buffer_from ("--" +:+ boundary)) 0 data
  = LoopDone (assign_all data (map part_entry parts)).
Proof.
  set (bb := Buffer_from ("--" +:+ boundary)).
  assert (Hbb : bb <> []) by (subst bb; discriminate).
  revert data fuel. induction parts as [|p parts IH]; intros data fuel Hwell Hlead Hfuel.
  - destruct fuel as [|fuel]; [cbn in Hfuel; lia|].
    rewrite scan_unfold. unfold written_body. cbn [map concat app].
    rewrite closing_pass; [reflexivity|]. apply Hlead. left. reflexivity.
  - destruct fuel as [|fuel]; [cbn in Hfuel; lia|].
    assert (Hbody : written_body boundary (p :: parts)
                    = written_part boundary p ++ written_body boundary parts).
    { unfold written_body. cbn [map concat]. rewrite <- app_assoc. reflexivity. }
    destruct (written_body_leads boundary parts) as [tail Htail]. fold bb in Htail.
    rewrite scan_unfold, Hbody.
    assert (Hstep : scan_step (written_part boundary p ++ written_body boundary parts) bb 0
                    = Assign (Z.of_nat (length (written_part boundary p)))
                        (part_name p) (part_value p)).
    { rewrite Htail, written_part_framed. fold bb.
      rewrite leading_segment_pass.
      - rewrite classify_written by exact (Forall_inv Hwell). reflexivity.
      - exact Hbb.
      - unfold bb. rewrite <- written_part_framed. apply Hlead. left. reflexivity. }
    rewrite Hstep.
    replace (Z.of_nat (length (written_part boundary p)))
      with (Z.of_nat (length (written_part boundary p)) + 0) by lia.
    rewrite scan_shift by lia.
    rewrite IH.
    + reflexivity.
    + exact (Forall_inv_tail Hwell).
    + intros w Hin. apply Hlead. right. exact Hin.
    + cbn [length] in Hfuel. lia.
Qed.

Lemma written_body_resolves (fuel : nat) (chunks : list Buffer)
  (header boundary : string) (parts : list WrittenPart) :
  starts_with_literal header "multipart/form-data" ->
  regex_exec boundary_at header = Some boundary ->
  concat chunks = written_body boundary parts ->
  Forall well_written parts ->
  (forall w, In w (map (written_part boundary) parts ++ [closing_bytes boundary]) ->
             delimiter_only_leads (Buffer_from ("--" +:+ boundary)) w) ->
  (length parts < fuel)%nat ->
  parseMultipart fuel (map EvData chunks ++ [EvEnd]) header
  = Some {| outcome := Resolved (assign_all empty_object (map part_entry parts));
            listeners := subscribed;
            delivered := map EvData chunks ++ [EvEnd] |}.
Proof.
  intros Hprefix Hboundary Hbody Hwell Hlead Hfuel.
  apply startsWith_spec in Hprefix.
  rewrite (parseMultipart_chunks_end fuel chunks header boundary Hprefix Hboundary).
  unfold on_end. rewrite Hbody.
  destruct (written_body_leads boundary parts) as [tail Htail].
  rewrite indexOf_here.
  - rewrite written_parts_scan by assumption. reflexivity.
  - unfold buf_length. lia.
  - apply bytes_prefix_spec. exists tail. exact Htail.
Qed.

(** Checks [delimiter_only_leads] on given bytes, offset by offset. *)
Ltac check_delimiter :=
  let i := fresh "i" in
  let Hlt := fresh "Hlt" in
  let Hocc := fresh "Hocc" in
  intros i Hlt Hocc;
  do 120 (destruct i as [|i];
          [first [ reflexivity
                 | vm_compute in Hocc; discriminate Hocc
                 | vm_compute in Hlt; lia ]|]);
  vm_compute in Hlt; lia.



(** In a body of several parts, as a client writes it, the last part
    that carries a name decides what the name is bound to in the object
    the call resolves with, for every name other than __proto__: the
    parts before it that carry the same name are overwritten. *)
Theorem later_part_overwrites (fuel : nat) (chunks : list Buffer)
  (header boundary : string) (before after : list WrittenPart) (p : WrittenPart) :
  starts_with_literal header "multipart/form-data" ->
  regex_exec boundary_at header = Some boundary ->
  concat chunks = written_body boundary (before ++ p :: after) ->
  Forall well_written (before ++ p :: after) ->
  (forall w, In w (map (written_part boundary) (before ++ p :: after)
                   ++ [closing_bytes boundary]) ->
             delimiter_only_leads (Buffer_from ("--" +:+ boundary)) w) ->
  (length (before ++ p :: after) < fuel)%nat ->
  part_name p <> "__proto__"%string ->
  (forall q, In q after -> part_name q <> part_name p) ->
  exists resolved,
    parseMultipart fuel (map EvData chunks ++ [EvEnd]) header
    = Some {| outcome := Resolved resolved; listeners := subscribed;
              delivered := map EvData chunks ++ [EvEnd] |}
    /\ own resolved !! part_name p = Some (part_value p).
Proof.
  intros Hprefix Hboundary Hbody Hwell Hlead Hfuel Hproto Hlast.
  eexists. split.
  - apply (written_body_resolves fuel chunks header boundary (before ++ p :: after));
      assumption.
  - rewrite map_app. cbn [map]. unfold part_entry at 2.
    apply last_assignment_wins; [exact Hproto|].
    intros value Hin. apply in_map_iff in Hin as (q & Hq & Hin).
    injection Hq as Hq _. exact (Hlast q Hin Hq).
Qed.

Lemma later_part_overwrites_witness :
  exists resolved,
    parseMultipart 3
      (map EvData [written_body "X" ([Field "x" (Buffer_from "first")]
                                     ++ Field "x" (Buffer_from "second") :: [])]
       ++ [EvEnd])
      "multipart/form-data; boundary=X"
    = Some {| outcome := Resolved resolved; listeners := subscribed;
              delivered :=
                map EvData [written_body "X" ([Field "x" (Buffer_from "first")]
                                              ++ Field "x" (Buffer_from "second") :: [])]
                ++ [EvEnd] |}
    /\ own resolved !! "x"%string = Some (VString (toString (Buffer_from "second"))).
Proof.
  apply (later_part_overwrites 3 _ _ "X" [Field "x" (Buffer_from "first")] []
           (Field "x" (Buffer_from "second"))).
  - exists "; boundary=X"%string. reflexivity.
  - reflexivity.
  - cbn [concat]. rewrite app_nil_r. reflexivity.
  - constructor; [|constructor; [|constructor]];
      cbn [well_written]; unfold attribute_text;
      repeat split; try discriminate;
      try match goal with
          | H : In _ (list_ascii_of_string _) |- _ =>
              cbn in H; split_or H; subst; discriminate
          end.
  - intros w Hin. cbn [map app In] in Hin.
    destruct Hin as [<- | [<- | [<- | []]]]; check_delimiter.
  - cbn. lia.
  - discriminate.
  - intros q [].
Defined.

(** For a body of several parts, as a client writes it, the own keys of
    the object the call resolves with are the names of the parts and
    nothing else; the one name that does not become a key is
    __proto__. *)
Theorem resolved_keys_are_part_names (fuel : nat) (chunks : list Buffer)
  (header boundary : string) (parts : list WrittenPart) :
  starts_with_literal header "multipart/form-data" ->
  regex_exec boundary_at header = Some boundary ->
  concat chunks = written_body boundary parts ->
  Forall well_written parts ->
  (forall w, In w (map (written_part boundary) parts ++ [closing_bytes boundary]) ->
             delimiter_only_leads (Buffer_from ("--" +:+ boundary)) w) ->
  (length parts < fuel)%nat ->
  exists resolved,
    parseMultipart fuel (map EvData chunks ++ [EvEnd]) header
    = Some {| outcome := Resolved resolved; listeners := subscribed;
              delivered := map EvData chunks ++ [EvEnd] |}
    /\ forall key : string,
         key ∈ dom (own resolved) <->
         key <> "__proto__"%string /\ exists p, In p parts /\ part_name p = key.
Proof.
  intros Hprefix Hboundary Hbody Hwell Hlead Hfuel.
  eexists. split.
  - apply (written_body_resolves fuel chunks header boundary parts); assumption.
  - intros key. rewrite dom_assign_all. cbn [empty_object own].
    rewrite dom_empty_L. split.
    + intros [Hin | (Hne & value & Hin)]; [apply elem_of_empty in Hin; contradiction|].
      split; [exact Hne|]. apply in_map_iff in Hin as (p & Hp & Hin).
      injection Hp as Hp _. eauto.
    + intros (Hne & p & Hin & <-). right. split; [exact Hne|].
      exists (part_value p). apply in_map_iff. exists p. split; [reflexivity | exact Hin].
Qed.

Lemma resolved_keys_are_part_names_witness :
  exists resolved,
    parseMultipart 3
      (map EvData [written_body "X" [Field "a" (Buffer_from "hello");
                                     File "b" "f.png" png_signature]] ++ [EvEnd])
      "multipart/form-data; boundary=X"
    = Some {| outcome := Resolved resolved; listeners := subscribed;
              delivered :=
                map EvData [written_body "X" [Field "a" (Buffer_from "hello");
                                              File "b" "f.png" png_signature]]
                ++ [EvEnd] |}
    /\ forall key : string,
         key ∈ dom (own resolved) <->
         key <> "__proto__"%string
         /\ exists p, In p [Field "a" (Buffer_from "hello");
                            File "b" "f.png" png_signature]
                      /\ part_name p = key.
Proof.
  apply (resolved_keys_are_part_names 3 _ _ "X").
  - exists "; boundary=X"%string. reflexivity.
  - reflexivity.
  - cbn [concat]. rewrite app_nil_r. reflexivity.
  - constructor; [|constructor; [|constructor]];
      cbn [well_written]; unfold attribute_text;
      repeat split; try discriminate;
      try match goal with
          | H : In _ (list_ascii_of_string _) |- _ =>
              cbn in H; split_or H; subst; discriminate
          end.
    eexists. vm_compute. reflexivity.
  - intros w Hin. cbn [map app In] in Hin.
    destruct Hin as [<- | [<- | [<- | []]]]; check_delimiter.
  - cbn. lia.
Defined.
